(** * icosa: bouncing wireframe over a checkerboard floor

    A shallow embedding of [icosa.c] and the properties of its per-frame
    pipeline: the braille dot framebuffer, the integer line rasterizer, the
    floor field, the run-length serializer, the bounce integrator, the
    vertex transform and the start-up checks of [main].

    Conventions.
    - C [int] values are [Z]; the arithmetic of [draw_line] and the index
      arithmetic of [compute_floor] are the mathematical ones, which is
      what the C code computes as long as no signed overflow occurs (see
      [draw_line_no_overflow]).  Outside that range the behaviour of the C
      code is undefined; [loop_points32] and [compute_floor32] are the
      same loops on 32-bit integers with wrap-around, and agree with the
      mathematical ones where nothing overflows.
    - [unsigned char] values are [Z] in [0, 256), the conversion back to a
      byte after [|=] is written out as [mod 256].
    - [float] values are IEEE 754 binary32 numbers, [spec_float] with
      precision 24 and maximal exponent 128; every arithmetic operation is
      the correctly rounded one (round to nearest, ties to even), one
      rounding per operation: no contraction into fused operations and no
      excess precision.
    - [(int)] of a [float] truncates toward zero; outside the range of
      [int] the conversion is undefined in C and the embedding returns
      [INT_MIN]; [cast_defined] tells the two apart, and the casts of the
      floor field and of the edge loop are shown to be defined.
    - [sinf] and [cosf] are parameters of the frame loop. *)

From Stdlib Require Import ZArith Lia Bool List Ascii String.
From Stdlib Require Import Floats.SpecFloat.
From stdpp Require Import base list list_numbers.
Import ListNotations.
Open Scope Z_scope.

(* ================================================================== *)
(** * Part I: the program                                              *)
(* ================================================================== *)

(** ** Results of memory-touching code

    A store outside the allocated buffer is undefined behaviour in C; the
    embedding makes it an error value so that its absence can be stated.
    Loops that are not structurally recursive take fuel. *)

Inductive result (A : Type) : Type :=
| Ok (a : A)
| BadIndex (i : Z)
| OutOfFuel.

Arguments Ok {A} a.
Arguments BadIndex {A} i.
Arguments OutOfFuel {A}.

Definition rbind {A B : Type} (r : result A) (k : A -> result B) : result B :=
  match r with
  | Ok a => k a
  | BadIndex i => BadIndex i
  | OutOfFuel => OutOfFuel
  end.

#[global] Instance result_ret : MRet result := fun A a => Ok a.
#[global] Instance result_bind : MBind result := fun A B k r => rbind r k.

(** ** The range of [int] *)

Definition INT_MIN : Z := - 2 ^ 31.
Definition INT_MAX : Z := 2 ^ 31 - 1.

(** [int] arithmetic that leaves the range: two's complement wrap-around. *)
Definition wrap32 (n : Z) : Z := (n + 2 ^ 31) mod 2 ^ 32 - 2 ^ 31.

(** ** Globals: [cw], [ch], [pw], [ph] *)

Record geom : Type := Geom { cw : Z; ch : Z; pw : Z; ph : Z }.

(** The assignments of [main]: [cw = ws_col; ch = ws_row; pw = cw * 2;
    ph = ch * 4]. *)
Definition mk_geom (cols rows : Z) : geom :=
  {| cw := cols; ch := rows; pw := cols * 2; ph := rows * 4 |}.

(** ** Dot framebuffer *)

(** [memset(buf, v, n)] on a buffer of at least [n] bytes. *)
Definition memset (buf : list Z) (v : Z) (n : nat) : list Z :=
  replicate n v ++ drop n buf.

Definition fb_clear (g : geom) (fb : list Z) : list Z :=
  memset fb 0 (Z.to_nat (cw g * ch g)).

(** [static const unsigned char bits[2][4]] *)
Definition bits_table : list (list Z) :=
  [ [0x01; 0x02; 0x04; 0x40];
    [0x08; 0x10; 0x20; 0x80] ].

Definition bits (i j : Z) : Z :=
  nth (Z.to_nat j) (nth (Z.to_nat i) bits_table []) 0.

(** [buf[i] = f(buf[i])], checked. *)
Definition store (buf : list Z) (i : Z) (f : Z -> Z) : result (list Z) :=
  if (0 <=? i) && (i <? Z.of_nat (length buf))
  then Ok (<[Z.to_nat i := f (buf !!! Z.to_nat i)]> buf)
  else BadIndex i.

Definition out_of_bounds (g : geom) (x y : Z) : bool :=
  (x <? 0) || (x >=? pw g) || (y <? 0) || (y >=? ph g).

Definition cell_index (g : geom) (x y : Z) : Z :=
  Z.quot y 4 * cw g + Z.quot x 2.

Definition dot_mask (x y : Z) : Z := bits (Z.land x 1) (Z.land y 3).

Definition fb_set (g : geom) (fb : list Z) (x y : Z) : result (list Z) :=
  if out_of_bounds g x y then Ok fb
  else store fb (cell_index g x y) (fun b => Z.lor b (dot_mask x y) mod 256).

(** ** Rasterizer *)

(** The loop of [draw_line]; [dx dy sx sy] are fixed before the loop, the
    loop variables are [fb], [x0], [y0] and [err]. *)
Fixpoint draw_loop (fuel : nat) (g : geom) (fb : list Z)
    (x1 y1 dx dy sx sy : Z) (x0 y0 err : Z) : result (list Z) :=
  match fuel with
  | O => OutOfFuel
  | S fuel' =>
      fb' ← fb_set g fb x0 y0;
      if (x0 =? x1) && (y0 =? y1) then Ok fb'
      else
        let e2 := 2 * err in
        let '(err, x0) := if e2 >=? dy then (err + dy, x0 + sx) else (err, x0) in
        let '(err, y0) := if e2 <=? dx then (err + dx, y0 + sy) else (err, y0) in
        draw_loop fuel' g fb' x1 y1 dx dy sx sy x0 y0 err
  end.

Definition draw_line (fuel : nat) (g : geom) (fb : list Z)
    (x0 y0 x1 y1 : Z) : result (list Z) :=
  let dx := Z.abs (x1 - x0) in
  let sx := if x0 <? x1 then 1 else -1 in
  let dy := - Z.abs (y1 - y0) in
  let sy := if y0 <? y1 then 1 else -1 in
  let err := dx + dy in
  draw_loop fuel g fb x1 y1 dx dy sx sy x0 y0 err.

(** Fuel that always suffices: one iteration per point of the segment. *)
Definition line_fuel (x0 y0 x1 y1 : Z) : nat :=
  S (Z.to_nat (Z.abs (x1 - x0) + Z.abs (y1 - y0))).

(** *** Observations on the rasterizer (specification side) *)

(** The sub-pixels handed to [fb_set] by the loop, in order. *)
Fixpoint loop_points (fuel : nat) (x1 y1 dx dy sx sy : Z) (x0 y0 err : Z)
    : option (list (Z * Z)) :=
  match fuel with
  | O => None
  | S fuel' =>
      if (x0 =? x1) && (y0 =? y1) then Some [(x0, y0)]
      else
        let e2 := 2 * err in
        let '(err', x0') := if e2 >=? dy then (err + dy, x0 + sx) else (err, x0) in
        let '(err'', y0') := if e2 <=? dx then (err' + dx, y0 + sy) else (err', y0) in
        option_map (cons (x0, y0))
          (loop_points fuel' x1 y1 dx dy sx sy x0' y0' err'')
  end.

Definition line_points (fuel : nat) (x0 y0 x1 y1 : Z) : option (list (Z * Z)) :=
  let dx := Z.abs (x1 - x0) in
  let sx := if x0 <? x1 then 1 else -1 in
  let dy := - Z.abs (y1 - y0) in
  let sy := if y0 <? y1 then 1 else -1 in
  loop_points fuel x1 y1 dx dy sx sy x0 y0 (dx + dy).

(** The invariant of the loop.  [A] is [dx] and [B] is [- dy]; [rx] and [ry]
    are the numbers of steps still to go on each axis, so that the error
    accumulator is [(b + 1) * A - (a + 1) * B] after [a = A - rx] steps in x
    and [b = B - ry] steps in y. *)
Definition loop_inv (x1 y1 A B sx sy : Z) (x0 y0 err rx ry : Z) : Prop :=
  rx = (x1 - x0) * sx /\ ry = (y1 - y0) * sy /\
  0 <= rx <= A /\ 0 <= ry <= B /\
  err = (B - ry + 1) * A - (A - rx + 1) * B /\
  - 2 * B <= err <= 2 * A.

Definition int_ok (n : Z) : bool := (INT_MIN <=? n) && (n <=? INT_MAX).

(** Whether the run of the loop stays within [int]: every value it computes
    ([e2], the updated [err], [x0] and [y0]) is representable. *)
Fixpoint loop_in_int (fuel : nat) (x1 y1 dx dy sx sy : Z) (x0 y0 err : Z) : bool :=
  match fuel with
  | O => false
  | S fuel' =>
      if (x0 =? x1) && (y0 =? y1) then true
      else
        let e2 := 2 * err in
        let '(err', x0') := if e2 >=? dy then (err + dy, x0 + sx) else (err, x0) in
        let '(err'', y0') := if e2 <=? dx then (err' + dx, y0 + sy) else (err', y0) in
        int_ok e2 && int_ok err' && int_ok x0' && int_ok err'' && int_ok y0' &&
        loop_in_int fuel' x1 y1 dx dy sx sy x0' y0' err''
  end.

Definition line_in_int (fuel : nat) (x0 y0 x1 y1 : Z) : bool :=
  let dx := Z.abs (x1 - x0) in
  let sx := if x0 <? x1 then 1 else -1 in
  let dy := - Z.abs (y1 - y0) in
  let sy := if y0 <? y1 then 1 else -1 in
  int_ok (x1 - x0) && int_ok (y1 - y0) && int_ok dx && int_ok dy && int_ok (dx + dy) &&
  loop_in_int fuel x1 y1 dx dy sx sy x0 y0 (dx + dy).

(** *** The loop on 32-bit integers

    Signed overflow is undefined in C.  Compiled without an optimisation
    that exploits this, the loop computes in two's complement arithmetic,
    modulo [2 ^ 32], when a value leaves the range of [int]: the run below
    is the loop of [draw_line] with the result of every [int] operation
    wrapped that way.  It gives the sub-pixels handed to [fb_set] in the
    first [fuel] iterations and whether the loop has been left through
    [break] by then. *)
Fixpoint loop_points32 (fuel : nat) (x1 y1 dx dy sx sy : Z) (x0 y0 err : Z)
    : list (Z * Z) * bool :=
  match fuel with
  | O => ([], false)
  | S fuel' =>
      if (x0 =? x1) && (y0 =? y1) then ([(x0, y0)], true)
      else
        let e2 := wrap32 (2 * err) in
        let '(err', x0') :=
          if e2 >=? dy then (wrap32 (err + dy), wrap32 (x0 + sx)) else (err, x0) in
        let '(err'', y0') :=
          if e2 <=? dx then (wrap32 (err' + dx), wrap32 (y0 + sy)) else (err', y0) in
        let '(pts, out) := loop_points32 fuel' x1 y1 dx dy sx sy x0' y0' err'' in
        ((x0, y0) :: pts, out)
  end.

Definition line_points32 (fuel : nat) (x0 y0 x1 y1 : Z) : list (Z * Z) * bool :=
  let dx := wrap32 (Z.abs (wrap32 (x1 - x0))) in
  let sx := if x0 <? x1 then 1 else -1 in
  let dy := wrap32 (- wrap32 (Z.abs (wrap32 (y1 - y0)))) in
  let sy := if y0 <? y1 then 1 else -1 in
  loop_points32 fuel x1 y1 dx dy sx sy x0 y0 (wrap32 (dx + dy)).

(** [fb_set] on each point of a list, in order. *)
Fixpoint set_points (g : geom) (fb : list Z) (pts : list (Z * Z)) : result (list Z) :=
  match pts with
  | [] => Ok fb
  | (x, y) :: pts' => fb' ← fb_set g fb x y; set_points g fb' pts'
  end.

(** Whether sub-pixel [(x, y)] is occupied: its bit in its cell's byte. *)
Definition dot (g : geom) (fb : list Z) (x y : Z) : bool :=
  negb (Z.land (fb !!! Z.to_nat (cell_index g x y)) (dot_mask x y) =? 0).

Definition in_bounds (g : geom) (p : Z * Z) : bool :=
  negb (out_of_bounds g (fst p) (snd p)).

Definition point_eqb (p q : Z * Z) : bool :=
  (fst p =? fst q) && (snd p =? snd q).

(** All sub-pixel coordinates of the screen, row by row. *)
Definition all_dots (g : geom) : list (Z * Z) :=
  y ← seqZ 0 (ph g); (fun x => (x, y)) <$> seqZ 0 (pw g).

Definition count_dots (g : geom) (fb : list Z) : nat :=
  length (filter (fun p => dot g fb (fst p) (snd p)) (all_dots g)).


(** A framebuffer as [main] allocates it: [cw * ch] bytes. *)
Definition fb_sized (g : geom) (fb : list Z) : Prop :=
  Z.of_nat (length fb) = cw g * ch g.

Definition geom_ok (g : geom) : Prop :=
  0 < cw g /\ 0 < ch g /\ pw g = cw g * 2 /\ ph g = ch g * 4.

(** Segments drawn one after the other into the same framebuffer. *)
Fixpoint draw_lines (g : geom) (fb : list Z) (segs : list (Z * Z * (Z * Z)))
    : result (list Z) :=
  match segs with
  | [] => Ok fb
  | (x0, y0, (x1, y1)) :: segs' =>
      fb' ← draw_line (line_fuel x0 y0 x1 y1) g fb x0 y0 x1 y1;
      draw_lines g fb' segs'
  end.

(** Bit position of a sub-pixel inside its cell's byte: the braille dot
    numbering (dots 1-3 and 7 in the left column, 4-6 and 8 in the right). *)
Definition mask_bit (x y : Z) : Z :=
  nth (Z.to_nat (Z.land y 3))
      (nth (Z.to_nat (Z.land x 1)) [[0; 1; 2; 6]; [3; 4; 5; 7]] []) 0.

(** The bitwise union of the masks of the in-bounds points of [pts] that
    fall into cell [i], on top of [b]. *)
Definition cell_union (g : geom) (i : Z) (pts : list (Z * Z)) (b : Z) : Z :=
  fold_left
    (fun acc p =>
       if in_bounds g p && (cell_index g (fst p) (snd p) =? i)
       then Z.lor acc (dot_mask (fst p) (snd p)) else acc)
    pts b.

Definition is_byte (b : Z) : Prop := 0 <= b < 256.

(** The sub-pixels visited while drawing a list of segments, in order. *)
Definition segs_points (segs : list (Z * Z * (Z * Z))) : list (Z * Z) :=
  '(x0, y0, (x1, y1)) ← segs;
  default [] (line_points (line_fuel x0 y0 x1 y1) x0 y0 x1 y1).

(** ** Compositor and serializer *)

(** Bytes of a C string literal; [ESC] is the character written [\033]. *)
Definition ESC : Z := 27.

Definition str (s : string) : list Z :=
  map (fun c => Z.of_nat (Ascii.nat_of_ascii c)) (String.list_ascii_of_string s).

(** [put_str(p, s)]: the buffer filled so far is the list, [p] its end. *)
Definition put_str (p : list Z) (s : list Z) : list Z := p ++ s.

(** The [switch (mode)] of [render]. *)
Definition style_seq (mode : Z) : list Z :=
  match mode with
  | 0 => ESC :: str "[0m"
  | 1 => ESC :: str "[48;5;236m"
  | 2 => ESC :: str "[48;5;252m"
  | 3 => ESC :: str "[0;96m"
  | _ => []
  end.

(** [(char)] conversion of an [unsigned] value: the low eight bits. *)
Definition to_char (v : Z) : Z := v mod 256.

(** One iteration of the inner loop; the state is the output so far and
    [prev]. *)
Definition render_cell (g : geom) (fb floor_map : list Z) (y : Z)
    (st : list Z * Z) (x : Z) : list Z * Z :=
  let '(p, prev) := st in
  let idx := Z.to_nat (y * cw g + x) in
  let mode := if negb (fb !!! idx =? 0) then 3 else floor_map !!! idx in
  let '(p, prev) :=
    if negb (mode =? prev) then (put_str p (style_seq mode), mode) else (p, prev) in
  let p :=
    if negb (fb !!! idx =? 0) then
      let cp := 0x2800 + fb !!! idx in
      p ++ [to_char (Z.lor 0xE0 (Z.shiftr cp 12));
            to_char (Z.lor 0x80 (Z.land (Z.shiftr cp 6) 0x3F));
            to_char (Z.lor 0x80 (Z.land cp 0x3F))]
    else p ++ [32] in
  (p, prev).

(** One iteration of the outer loop. *)
Definition render_row (g : geom) (fb floor_map : list Z)
    (st : list Z * Z) (y : Z) : list Z * Z :=
  let '(p, prev) := foldl (render_cell g fb floor_map y) st (seqZ 0 (cw g)) in
  let p := put_str p (ESC :: str "[0m") in
  let prev := -1 in
  let p := if y <? ch g - 1 then p ++ [10] else p in
  (p, prev).

(** [render]: the bytes handed to [fwrite]. *)
Definition render (g : geom) (fb floor_map : list Z) : list Z :=
  let p := put_str [] (ESC :: str "[H") in
  let prev := -1 in
  fst (foldl (render_row g fb floor_map) (p, prev) (seqZ 0 (ch g))).

(** *** Observations on the serializer (specification side) *)

Definition cell_mode (g : geom) (fb floor_map : list Z) (y x : Z) : Z :=
  let idx := Z.to_nat (y * cw g + x) in
  if negb (fb !!! idx =? 0) then 3 else floor_map !!! idx.

Definition cell_glyph (g : geom) (fb : list Z) (y x : Z) : list Z :=
  let b := fb !!! Z.to_nat (y * cw g + x) in
  if negb (b =? 0) then
    [to_char (Z.lor 0xE0 (Z.shiftr (0x2800 + b) 12));
     to_char (Z.lor 0x80 (Z.land (Z.shiftr (0x2800 + b) 6) 0x3F));
     to_char (Z.lor 0x80 (Z.land (0x2800 + b) 0x3F))]
  else [32].

(** A cell starts a style run iff it is the first of its row or its style
    differs from the one of the cell to its left. *)
Definition style_change (g : geom) (fb floor_map : list Z) (y x : Z) : bool :=
  (x =? 0) || negb (cell_mode g fb floor_map y x =? cell_mode g fb floor_map y (x - 1)).

Definition cell_out (g : geom) (fb floor_map : list Z) (y x : Z) : list Z :=
  (if style_change g fb floor_map y x
   then style_seq (cell_mode g fb floor_map y x) else [])
  ++ cell_glyph g fb y x.

Definition row_out (g : geom) (fb floor_map : list Z) (y : Z) : list Z :=
  concat (cell_out g fb floor_map y <$> seqZ 0 (cw g))
  ++ (ESC :: str "[0m")
  ++ (if y <? ch g - 1 then [10] else []).

(** Number of style-change sequences emitted for the cells of row [y]. *)
Definition row_style_changes (g : geom) (fb floor_map : list Z) (y : Z) : nat :=
  length (filter (fun x => style_change g fb floor_map y x) (seqZ 0 (cw g))).

(** ** Single-precision arithmetic

    [float] is IEEE 754 binary32.  Each C operator is the correctly rounded
    operation of [SpecFloat]; expressions are evaluated in [float], one
    rounding per operation. *)

Definition prec : Z := 24.
Definition emax : Z := 128.

Abbreviation float := spec_float.

Definition fadd : float -> float -> float := SFadd prec emax.
Definition fsub : float -> float -> float := SFsub prec emax.
Definition fmul : float -> float -> float := SFmul prec emax.
Definition fdiv : float -> float -> float := SFdiv prec emax.
Definition fsqrt : float -> float := SFsqrt prec emax.
Definition fabs : float -> float := SFabs.
Definition fneg : float -> float := SFopp.
Definition flt : float -> float -> bool := SFltb.
Definition fle : float -> float -> bool := SFleb.

(** [(float) n] for an [int] [n]. *)
Definition of_int (n : Z) : float := binary_normalize prec emax n 0 false.

(** A decimal literal [n / d] with the suffix [f]: the nearest [float]. *)
Definition lit (n d : Z) : float := fdiv (of_int n) (of_int d).

Definition is_nan (x : float) : bool :=
  match x with S754_nan => true | _ => false end.

(** [fminf]: the smaller argument, the other one when one is a NaN. *)
Definition fminf (x y : float) : float :=
  if fle x y then x
  else if flt y x then y
  else if is_nan y then x else y.

(** ** Physics integrator *)

(** The constants set up by [main] before the loop. *)
Record physics : Type := Physics {
  floor_py : float;
  max_bounce : float;
  grav : float;
  restart_vel : float
}.

Definition damp : float := lit 82 100.
Definition squash_decay : float := lit 70 100.

(** [horizon = ch * 55 / 100], as set by [compute_floor]. *)
Definition horizon_of (g : geom) : Z := Z.quot (ch g * 55) 100.

Definition physics_init (g : geom) : physics :=
  let floor_py := of_int (horizon_of g * 4) in
  let max_bounce := fmul floor_py (lit 55 100) in
  let fall_frames := of_int 22 in
  let grav := fdiv (fmul (of_int 2) max_bounce) (fmul fall_frames fall_frames) in
  let restart_vel := fsqrt (fmul (fmul (of_int 2) max_bounce) grav) in
  {| floor_py := floor_py; max_bounce := max_bounce;
     grav := grav; restart_vel := restart_vel |}.

(** Bounce State: [pos], [vel], [squash]. *)
Record bounce : Type := Bounce { pos : float; vel : float; squash : float }.

Definition bounce_init (P : physics) : bounce :=
  {| pos := max_bounce P; vel := of_int 0; squash := of_int 0 |}.

(** "Gravity and bounce": the physics statements of one loop iteration. *)
Definition physics_step (P : physics) (s : bounce) : bounce :=
  let vel := fsub (vel s) (grav P) in
  let pos := fadd (pos s) vel in
  let '(pos, squash, vel) :=
    if fle pos (of_int 0) then
      let pos := of_int 0 in
      let squash :=
        fminf (fmul (fdiv (fabs vel) (restart_vel P)) (lit 5 10)) (lit 5 10) in
      let vel := fmul (fabs vel) damp in
      let vel := if flt vel (fmul (grav P) (of_int 8)) then restart_vel P else vel in
      (pos, squash, vel)
    else (pos, squash s, vel) in
  let squash := fmul squash squash_decay in
  {| pos := pos; vel := vel; squash := squash |}.

(** Bounce States the loop can be in: the initial one and every one reached
    from it by steps. *)
Inductive reachable (P : physics) : bounce -> Prop :=
| reach_init : reachable P (bounce_init P)
| reach_step s : reachable P s -> reachable P (physics_step P s).

(** Whether a step bounces: the position after gravity is at or below 0. *)
Definition impact (P : physics) (s : bounce) : bool :=
  fle (fadd (pos s) (fsub (vel s) (grav P))) (of_int 0).

(** The velocity with which the floor is hit. *)
Definition impact_vel (P : physics) (s : bounce) : float :=
  fsub (vel s) (grav P).

(** ** Conversions between [float] and [int] *)

(** The integer part of a finite float, towards zero. *)
Definition trunc (x : float) : Z :=
  match x with
  | S754_finite s m e =>
      let a := if 0 <=? e then Z.pos m * 2 ^ e else Z.pos m / 2 ^ (- e) in
      if s then - a else a
  | _ => 0
  end.

(** [(int) x].  The conversion is undefined in C when the integer part does
    not fit or [x] is not finite; the value taken here is the one the
    conversion instruction delivers then, [INT_MIN]. *)
Definition int_of_float (x : float) : Z :=
  match x with
  | S754_zero _ => 0
  | S754_finite _ _ _ =>
      let n := trunc x in
      if (INT_MIN <=? n) && (n <=? INT_MAX) then n else INT_MIN
  | _ => INT_MIN
  end.

(** [floorf].  The result is an integer of at most 24 bits or [x] itself. *)
Definition floorf (x : float) : float :=
  match x with
  | S754_finite s m e =>
      if 0 <=? e then x
      else
        let n := (if s then Z.neg m else Z.pos m) / 2 ^ (- e) in
        binary_normalize prec emax n 0 s
  | _ => x
  end.

(** ** Counted loops

    [for (i = a; i < b; i++) s = f(i, s)], with a body that may fail. *)
Fixpoint for_loop {St : Type} (n : nat) (i : Z) (f : Z -> St -> result St) (s : St)
    : result St :=
  match n with
  | O => Ok s
  | S n' => s' ← f i s; for_loop n' (i + 1) f s'
  end.

Definition for_range {St : Type} (a b : Z) (f : Z -> St -> result St) (s : St)
    : result St :=
  for_loop (Z.to_nat (b - a)) a f s.

(** ** Floor field *)

(** The value stored for one cell below the horizon. *)
Definition floor_cell (g : geom) (horizon row col : Z) : Z :=
  let floor_h := of_int (ch g - horizon) in
  let t := fdiv (of_int (row - horizon)) floor_h in
  let z := fdiv (of_int 1) t in
  let x := fmul (fmul (fsub (fdiv (of_int col) (of_int (cw g))) (lit 5 10)) z)
                (of_int 8) in
  let ix := int_of_float (floorf x) in
  let iz := int_of_float (floorf (fmul z (of_int 4))) in
  to_char (if negb (Z.land (wrap32 (ix + iz)) 1 =? 0) then 1 else 2).

(** [compute_floor]: the new [floor_map] and [horizon]. *)
Definition compute_floor (g : geom) : result (list Z * Z) :=
  let floor_map := replicate (Z.to_nat (cw g * ch g)) 0 in
  let horizon := Z.quot (ch g * 55) 100 in
  floor_map ←
    for_range (horizon + 1) (ch g)
      (fun row floor_map =>
         for_range 0 (cw g)
           (fun col floor_map =>
              store floor_map (row * cw g + col)
                    (fun _ => floor_cell g horizon row col))
           floor_map)
      floor_map;
  Ok (floor_map, horizon).

(** *** The floor field on 32-bit integers, with its allocation

    [compute_floor] above takes [calloc] to deliver the buffer and computes
    the index [row * cw + col] on mathematical integers.  In C [calloc] may
    return the null pointer, which [compute_floor] does not check and
    behind which no byte can be stored, and the index is an [int]:
    [compute_floor32] is the same function with the outcome [ok] of the
    allocation and with every [int] operation wrapped to 32 bits. *)
Definition calloc (ok : bool) (n : Z) : list Z :=
  if ok then replicate (Z.to_nat n) 0 else [].

Definition compute_floor32 (ok : bool) (g : geom) : result (list Z * Z) :=
  let floor_map := calloc ok (cw g * ch g) in
  let horizon := Z.quot (wrap32 (ch g * 55)) 100 in
  floor_map ←
    for_range (wrap32 (horizon + 1)) (ch g)
      (fun row floor_map =>
         for_range 0 (cw g)
           (fun col floor_map =>
              store floor_map (wrap32 (wrap32 (row * cw g) + col))
                    (fun _ => floor_cell g horizon row col))
           floor_map)
      floor_map;
  Ok (floor_map, horizon).

(** *** Observations on the floor field (specification side) *)

Inductive tile : Type := Sky | Dark | Light.

(** The classification a byte of [floor_map] stands for. *)
Definition classify (v : Z) : option tile :=
  match v with
  | 0 => Some Sky
  | 1 => Some Dark
  | 2 => Some Light
  | _ => None
  end.

(** Depth and world-x of a cell below the horizon, in tile units: the two
    values whose floors decide the tile colour. *)
Definition floor_depth (g : geom) (horizon row : Z) : float :=
  let t := fdiv (of_int (row - horizon)) (of_int (ch g - horizon)) in
  fmul (fdiv (of_int 1) t) (of_int 4).

Definition floor_world_x (g : geom) (horizon row col : Z) : float :=
  let t := fdiv (of_int (row - horizon)) (of_int (ch g - horizon)) in
  fmul (fmul (fsub (fdiv (of_int col) (of_int (cw g))) (lit 5 10))
             (fdiv (of_int 1) t))
       (of_int 8).

(** The integer floor of the number a float stands for: the largest integer
    not above it ([/] on [Z] rounds down). *)
Definition floor_value (x : float) : Z :=
  match x with
  | S754_finite s m e =>
      let n := if s then Z.neg m else Z.pos m in
      if 0 <=? e then n * 2 ^ e else n / 2 ^ (- e)
  | _ => 0
  end.

(** ** Transform pipeline *)

Definition PYR : float := lit 15 10.

Definition base_verts : list (float * float * float) :=
  let p := of_int 1 in let n := of_int (-1) in let o := of_int 0 in
  [ (p, p, p); (p, p, n); (p, n, p); (p, n, n);
    (n, p, p); (n, p, n); (n, n, p); (n, n, n);
    (PYR, o, o); (fneg PYR, o, o);
    (o, PYR, o); (o, fneg PYR, o);
    (o, o, PYR); (o, o, fneg PYR) ].

Definition edges : list (nat * nat) :=
  [ (0,1); (0,2); (0,4); (1,3); (1,5); (2,3); (2,6); (3,7); (4,5); (4,6); (5,7); (6,7);
    (8,0); (8,1); (8,2); (8,3);
    (9,4); (9,5); (9,6); (9,7);
    (10,0); (10,1); (10,4); (10,5);
    (11,2); (11,3); (11,6); (11,7);
    (12,0); (12,2); (12,4); (12,6);
    (13,1); (13,3); (13,5); (13,7) ]%nat.

(** Sines and cosines of the three angles of the Pose, as [sinf] and [cosf]
    return them. *)
Record trig : Type := Trig {
  s1 : float; c1 : float; s2 : float; c2 : float; s3 : float; c3 : float
}.

(** The per-frame values that do not depend on the vertex. *)
Record view : Type := View {
  scale : float; obj_cx : float; obj_cy : float;
  yscale : float; xzscale : float
}.

Definition mk_view (g : geom) (P : physics) (b : bounce) : view :=
  let scale := fmul (fminf (of_int (pw g)) (of_int (ph g))) (lit 45 100) in
  let center_x := fdiv (of_int (pw g)) (of_int 2) in
  {| scale := scale;
     obj_cx := center_x;
     obj_cy := fsub (fsub (floor_py P) (pos b)) (fmul scale (lit 2 10));
     yscale := fsub (of_int 1) (squash b);
     xzscale := fadd (of_int 1) (fmul (squash b) (lit 5 10)) |}.

(** The body of the vertex loop: rotate, squash, project. *)
Definition transform_vertex (v : view) (t : trig) (p : float * float * float)
    : float * float :=
  let '(x, y, z) := p in
  let y1 := fsub (fmul y (c1 t)) (fmul z (s1 t)) in
  let z1 := fadd (fmul y (s1 t)) (fmul z (c1 t)) in
  let x2 := fadd (fmul x (c2 t)) (fmul z1 (s2 t)) in
  let z2 := fadd (fmul (fneg x) (s2 t)) (fmul z1 (c2 t)) in
  let x3 := fsub (fmul x2 (c3 t)) (fmul y1 (s3 t)) in
  let y3 := fadd (fmul x2 (s3 t)) (fmul y1 (c3 t)) in
  let x3 := fmul x3 (xzscale v) in
  let y3 := fmul y3 (yscale v) in
  let d := fadd (of_int 5) (fmul z2 (lit 3 10)) in
  (fadd (obj_cx v) (fmul (fdiv x3 d) (scale v)),
   fadd (obj_cy v) (fmul (fdiv y3 d) (scale v))).

Definition project (v : view) (t : trig) : list (float * float) :=
  transform_vertex v t <$> base_verts.

(** *** Observations on the transform (specification side) *)

(** The three stages of [transform_vertex], on (horizontal, vertical,
    depth) coordinates. *)
Definition rotate (t : trig) (p : float * float * float) : float * float * float :=
  let '(x, y, z) := p in
  let y1 := fsub (fmul y (c1 t)) (fmul z (s1 t)) in
  let z1 := fadd (fmul y (s1 t)) (fmul z (c1 t)) in
  let x2 := fadd (fmul x (c2 t)) (fmul z1 (s2 t)) in
  let z2 := fadd (fmul (fneg x) (s2 t)) (fmul z1 (c2 t)) in
  let x3 := fsub (fmul x2 (c3 t)) (fmul y1 (s3 t)) in
  let y3 := fadd (fmul x2 (s3 t)) (fmul y1 (c3 t)) in
  (x3, y3, z2).

Definition perspective (v : view) (p : float * float * float) : float * float :=
  let '(x, y, z) := p in
  let d := fadd (of_int 5) (fmul z (lit 3 10)) in
  (fadd (obj_cx v) (fmul (fdiv x d) (scale v)),
   fadd (obj_cy v) (fmul (fdiv y d) (scale v))).

(** The scaling the code applies: horizontal and vertical only. *)
Definition squash_screen (sq : float) (p : float * float * float)
    : float * float * float :=
  let '(x, y, z) := p in
  (fmul x (fadd (of_int 1) (fmul sq (lit 5 10))), fmul y (fsub (of_int 1) sq), z).

(** The scaling as the specification words it: the vertical axis by
    [1 - squash], the horizontal and the depth axis by [1 + squash / 2]. *)
Definition squash_spec (sq : float) (p : float * float * float)
    : float * float * float :=
  let '(x, y, z) := p in
  let k := fadd (of_int 1) (fdiv sq (of_int 2)) in
  (fmul x k, fmul y (fsub (of_int 1) sq), fmul z k).

(** The Pose with all angles 0: [sinf(0) = 0], [cosf(0) = 1]. *)
Definition trig_zero : trig :=
  {| s1 := of_int 0; c1 := of_int 1; s2 := of_int 0; c2 := of_int 1;
     s3 := of_int 0; c3 := of_int 1 |}.

(** The view used to compare the two scalings: an 80 x 24 terminal,
    resting on the floor, squash factor 0.35. *)
Definition cx_view : view :=
  mk_view (mk_geom 80 24) (physics_init (mk_geom 80 24))
          {| pos := of_int 0; vel := of_int 0; squash := lit 35 100 |}.

(** ** The frame loop and [main] *)

Record pose : Type := Pose { ax : float; ay : float; az : float }.

(** The edge loop: one [draw_line] per edge, between the projected
    endpoints converted to [int]. *)
Fixpoint draw_edges (g : geom) (fb : list Z) (proj : list (float * float))
    (es : list (nat * nat)) : result (list Z) :=
  match es with
  | [] => Ok fb
  | (a, b) :: es' =>
      let pa := nth a proj (of_int 0, of_int 0) in
      let pb := nth b proj (of_int 0, of_int 0) in
      let x0 := int_of_float (fst pa) in
      let y0 := int_of_float (snd pa) in
      let x1 := int_of_float (fst pb) in
      let y1 := int_of_float (snd pb) in
      fb' ← draw_line (line_fuel x0 y0 x1 y1) g fb x0 y0 x1 y1;
      draw_edges g fb' proj es'
  end.

Section Libm.

(** [sinf] and [cosf] of the C library. *)
Variables sinf cosf : float -> float.

(** One iteration of the loop of [main] between the two polls: the new
    framebuffer, the bytes written, the new Bounce State and Pose. *)
Definition frame (g : geom) (P : physics) (floor_map fb : list Z)
    (b : bounce) (a : pose) : result (list Z * list Z * bounce * pose) :=
  let fb := fb_clear g fb in
  let b := physics_step P b in
  let v := mk_view g P b in
  let t := {| s1 := sinf (ax a); c1 := cosf (ax a);
              s2 := sinf (ay a); c2 := cosf (ay a);
              s3 := sinf (az a); c3 := cosf (az a) |} in
  let proj := project v t in
  fb ← draw_edges g fb proj edges;
  let out := render g fb floor_map in
  let a := {| ax := fadd (ax a) (lit 5 100);
              ay := fadd (ay a) (lit 7 100);
              az := fadd (az a) (lit 3 100) |} in
  Ok (fb, out, b, a).

(** The loop of [main].  [polls] are the answers of the successive calls
    of [poll], [true] when input is waiting; the frames written so far
    are accumulated in [out].  The C loop is only left when a call reports
    input: a list without [true] gives the frames written during the
    calls it covers, of a run that goes on. *)
Fixpoint main_loop (g : geom) (P : physics) (floor_map : list Z)
    (polls : list bool) (fb : list Z) (b : bounce) (a : pose)
    (out : list (list Z)) : result (list (list Z)) :=
  match polls with
  | [] => Ok out
  | true :: _ => Ok out
  | false :: polls' =>
      '(fb, bytes, b, a) ← frame g P floor_map fb b a;
      match polls' with
      | [] => Ok (out ++ [bytes])
      | true :: _ => Ok (out ++ [bytes])
      | false :: polls'' =>
          main_loop g P floor_map polls'' fb b a (out ++ [bytes])
      end
  end.

(** What [main] gets from its environment. *)
Record env : Type := Env {
  argv : list string;            (* the arguments after the program name *)
  winsize : option (Z * Z);      (* [ws_col], [ws_row]; [None]: ioctl < 0 *)
  alloc_ok : bool;               (* [calloc] and [malloc] succeeded *)
  polls : list bool              (* answers of [poll] *)
}.

(** [main]: the exit status and the frames written.  [alloc_ok] is the
    outcome of the two allocations [main] checks; the [calloc] of
    [compute_floor], which the code does not check, is taken to deliver its
    buffer ([compute_floor32] has the failing case). *)
Definition main (e : env) : result (Z * list (list Z)) :=
  match argv e with
  | arg :: _ =>
      if (arg =? "-h")%string || (arg =? "--help")%string
      then Ok (0, []) else Ok (1, [])
  | [] =>
      match winsize e with
      | None => Ok (1, [])
      | Some (ws_col, ws_row) =>
          if (ws_col <? 20) || (ws_row <? 10) then Ok (1, [])
          else
            let g := mk_geom ws_col ws_row in
            let fb := replicate (Z.to_nat (cw g * ch g)) 0 in
            if negb (alloc_ok e) then Ok (1, [])
            else
              '(floor_map, horizon) ← compute_floor g;
              let P := physics_init g in
              let b := bounce_init P in
              let a := {| ax := of_int 0; ay := of_int 0; az := of_int 0 |} in
              frames ← main_loop g P floor_map (polls e) fb b a [];
              Ok (0, frames)
      end
  end.

End Libm.

(** *** Observations on floats (specification side) *)

(** The sign bit of a float, [None] for a NaN. *)
Definition fsign (x : float) : option bool :=
  match x with
  | S754_nan => None
  | S754_zero s | S754_infinity s | S754_finite s _ _ => Some s
  end.

(** A float of [binary_round_aux]: mantissa [m] at exponent [e], zero when
    the mantissa vanishes, infinite when the exponent overflows. *)
Definition pack (s : bool) (m e : Z) : float :=
  match m with
  | Z0 => S754_zero s
  | Zpos p => if e <=? emax - prec then S754_finite s p e else S754_infinity s
  | Zneg _ => S754_nan
  end.

(** A mantissa of at most 24 bits. *)
Definition fits_mantissa (x : float) : Prop :=
  match x with
  | S754_finite _ m _ => Z.pos m < 2 ^ prec
  | _ => True
  end.

(** The invariant of the squash factor: between 0 and 0.5, and a float of
    the format (a mantissa of at most 24 bits). *)
Definition squash_ok (x : float) : Prop :=
  fle (of_int 0) x = true /\ fle x (lit 5 10) = true /\ fits_mantissa x.

(** A normal float with [|x|] in [[2^(k-1), 2^k)] for some [lo <= k <= hi]. *)
Definition frange (lo hi : Z) (x : float) : Prop :=
  match x with
  | S754_finite _ m e => 2 ^ 23 <= Z.pos m < 2 ^ 24 /\ lo <= e + 24 <= hi
  | _ => False
  end.

Definition is_zero (x : float) : Prop :=
  match x with S754_zero _ => True | _ => False end.

(** Two sub-pixels touch: they differ by at most one in each coordinate and
    are not the same one. *)
Definition adjacent (p q : Z * Z) : bool :=
  (Z.abs (fst q - fst p) <=? 1) && (Z.abs (snd q - snd p) <=? 1) &&
  negb (point_eqb p q).

(** Every point of the list touches the next one. *)
Fixpoint connected (pts : list (Z * Z)) : bool :=
  match pts with
  | p :: (q :: _) as rest => adjacent p q && connected rest
  | _ => true
  end.

(** Twice the area of the triangle of the two endpoints and [p]: zero on
    the ideal line, and [|deviation| / max (|dx|) (|dy|)] is the distance of
    [p] from the ideal line along the minor axis. *)
Definition deviation (x0 y0 x1 y1 : Z) (p : Z * Z) : Z :=
  (x1 - x0) * (snd p - y0) - (y1 - y0) * (fst p - x0).

(** What the error accumulator satisfies besides [loop_inv]: on the axis
    with the larger span the loop steps in every iteration. *)
Definition major_inv (A B err : Z) : Prop :=
  (B <= A -> A - 2 * B <= 2 * err <= 3 * A - 2 * B) /\
  (A <= B -> 2 * A - 3 * B <= 2 * err <= 2 * A - B).

(** What holds of a point [p] of the trace when [rx] and [ry] steps were
    left at the start of the trace: it lies between that start and the
    endpoint, and its deviation, written with the steps taken on each axis,
    is at most half the larger span. *)
Definition shape_at (x1 y1 A B sx sy rx ry : Z) (p : Z * Z) : Prop :=
  0 <= (x1 - fst p) * sx <= rx /\ 0 <= (y1 - snd p) * sy <= ry /\
  2 * Z.abs ((B - (y1 - snd p) * sy) * A - (A - (x1 - fst p) * sx) * B) <= Z.max A B.

(** Whether point [p] is on the screen and is the sub-pixel of cell [i]
    stored at bit [n]. *)
Definition hits (g : geom) (i n : Z) (p : Z * Z) : bool :=
  in_bounds g p && (cell_index g (fst p) (snd p) =? i) &&
  (mask_bit (fst p) (snd p) =? n).

(** Decoding of a three-byte UTF-8 sequence, [1110xxxx 10xxxxxx 10xxxxxx];
    [None] when the bytes are not of this form. *)
Definition utf8_decode3 (bs : list Z) : option Z :=
  match bs with
  | [b0; b1; b2] =>
      if (Z.land b0 0xF0 =? 0xE0) && (Z.land b1 0xC0 =? 0x80) &&
         (Z.land b2 0xC0 =? 0x80)
      then Some (Z.lor (Z.shiftl (Z.land b0 0x0F) 12)
                       (Z.lor (Z.shiftl (Z.land b1 0x3F) 6) (Z.land b2 0x3F)))
      else None
  | _ => None
  end.

(** The three bytes [render] writes for a cell whose byte is [b]. *)
Definition glyph_bytes (b : Z) : list Z :=
  [to_char (Z.lor 0xE0 (Z.shiftr (0x2800 + b) 12));
   to_char (Z.lor 0x80 (Z.land (Z.shiftr (0x2800 + b) 6) 0x3F));
   to_char (Z.lor 0x80 (Z.land (0x2800 + b) 0x3F))].

(** *** Observations on the frame loop (specification side) *)

(** The increments of the three angles at the end of an iteration. *)
Definition advance (a : pose) : pose :=
  {| ax := fadd (ax a) (lit 5 100);
     ay := fadd (ay a) (lit 7 100);
     az := fadd (az a) (lit 3 100) |}.

(** Pose and Bounce State after [k] iterations. *)
Definition pose_at (k : nat) : pose :=
  Nat.iter k advance {| ax := of_int 0; ay := of_int 0; az := of_int 0 |}.

Definition bounce_at (P : physics) (k : nat) : bounce :=
  Nat.iter k (physics_step P) (bounce_init P).

(** The number of leading calls of [poll] that report no input. *)
Fixpoint quiet (polls : list bool) : nat :=
  match polls with
  | false :: polls' => S (quiet polls')
  | _ => 0
  end.

(** The size of [rbuf] as [main] allocates it. *)
Definition rbuf_size (g : geom) : Z := ch g * (cw g * 20 + 16) + 64.

Section FrameSpec.

Variables sinf cosf : float -> float.

(** Frame number [k], computed from scratch: the edges of the object in
    Bounce State [k + 1] and Pose [k], drawn into an empty framebuffer and
    serialized over the floor field. *)
Definition frame_image (g : geom) (P : physics) (floor_map : list Z) (k : nat)
    : result (list Z) :=
  let a := pose_at k in
  let t := {| s1 := sinf (ax a); c1 := cosf (ax a);
              s2 := sinf (ay a); c2 := cosf (ay a);
              s3 := sinf (az a); c3 := cosf (az a) |} in
  let proj := project (mk_view g P (bounce_at P (S k))) t in
  fb ← draw_edges g (replicate (Z.to_nat (cw g * ch g)) 0) proj edges;
  Ok (render g fb floor_map).

End FrameSpec.

(** ** The terminal and the output streams

    What [main] does to its environment besides computing frames: the bytes
    it writes to standard output and standard error, and the terminal
    attributes it installs with [tcsetattr].  Standard input is taken to be
    a terminal, so that [tcgetattr] delivers its attributes.  Signals are
    not part of the model. *)

(** [struct termios] *)
Record termios : Type := Termios {
  c_iflag : Z; c_oflag : Z; c_cflag : Z; c_lflag : Z; c_cc : list Z
}.

Inductive event : Type :=
| Stdout (bytes : list Z)
| Stderr (bytes : list Z)
| SetAttr (t : termios).

(** The text printed by [usage]. *)
Definition usage : list Z := str
"icosa — bouncing glenz vector over a checkerboard floor

Inspired by the 2nd Reality demo (Future Crew, 1993).
Renders a spinning tetrakis hexahedron with braille-dot wireframe,
physics-based bouncing, and squash-and-stretch deformation.

Usage: icosa [OPTIONS]

Options:
  -h, --help    Show this help message

Controls:
  Any key        Quit

Designed for use with demomotd as a terminal greeting effect.
Can also be run standalone or with timeout(1):
  timeout 5 icosa
".

(** [cleanup_terminal]: reset the style, show the cursor, leave the
    alternate screen, and put the saved attributes back. *)
Definition cleanup_seq : list Z :=
  (ESC :: str "[0m") ++ (ESC :: str "[?25h") ++ (ESC :: str "[?1049l").

Definition cleanup_terminal (orig_tios : termios) : list event :=
  [Stdout cleanup_seq; SetAttr orig_tios].

(** Written before the first frame: enter the alternate screen, hide the
    cursor, clear the screen. *)
Definition enter_seq : list Z :=
  (ESC :: str "[?1049h") ++ (ESC :: str "[?25l") ++ (ESC :: str "[2J").

Section Terminal.

(** The flag bits and control-character indices of [<termios.h>]. *)
Variables ICANON ECHO ISIG : Z.
Variables VMIN VTIME : nat.

(** [raw]: the saved attributes with [ICANON], [ECHO] and [ISIG] cleared
    and a non-blocking read. *)
Definition make_raw (orig_tios : termios) : termios :=
  {| c_iflag := c_iflag orig_tios;
     c_oflag := c_oflag orig_tios;
     c_cflag := c_cflag orig_tios;
     c_lflag := Z.land (c_lflag orig_tios) (Z.lnot (Z.lor (Z.lor ICANON ECHO) ISIG));
     c_cc := <[VTIME := 0]> (<[VMIN := 0]> (c_cc orig_tios)) |}.

Variables sinf cosf : float -> float.

(** [main] with its effects: the exit status and the events in order.
    [tios] is what [tcgetattr] reads. *)
Definition main_io (e : env) (tios : termios) : result (Z * list event) :=
  match argv e with
  | arg :: _ =>
      if (arg =? "-h")%string || (arg =? "--help")%string
      then Ok (0, [Stdout usage])
      else Ok (1, [Stderr (str "icosa: unknown option '" ++ str arg ++ str "'" ++ [10])])
  | [] =>
      match winsize e with
      | None => Ok (1, [])
      | Some (ws_col, ws_row) =>
          if (ws_col <? 20) || (ws_row <? 10) then Ok (1, [])
          else
            let g := mk_geom ws_col ws_row in
            let fb := replicate (Z.to_nat (cw g * ch g)) 0 in
            if negb (alloc_ok e) then Ok (1, [])
            else
              '(floor_map, horizon) ← compute_floor g;
              let orig_tios := tios in
              let raw := make_raw orig_tios in
              let setup := [SetAttr raw; Stdout enter_seq] in
              let P := physics_init g in
              let b := bounce_init P in
              let a := {| ax := of_int 0; ay := of_int 0; az := of_int 0 |} in
              frames ← main_loop sinf cosf g P floor_map (polls e) fb b a [];
              Ok (0, setup ++ (Stdout <$> frames) ++ cleanup_terminal orig_tios)
      end
  end.

End Terminal.

(** The bytes that reach standard output, and the attributes in force at
    the end. *)
Definition stdout_of (tr : list event) : list Z :=
  concat (omap (fun ev => match ev with Stdout bs => Some bs | _ => None end) tr).

Definition final_attr (tios : termios) (tr : list event) : termios :=
  foldl (fun t ev => match ev with SetAttr t' => t' | _ => t end) tios tr.

Definition touches_terminal (ev : event) : bool :=
  match ev with Stderr _ => false | _ => true end.

(** A positive normal number: neither zero, subnormal, infinite nor NaN. *)
Definition positive_normal (x : float) : bool :=
  match x with
  | S754_finite false m e =>
      (2 ^ 23 <=? Z.pos m) && (Z.pos m <? 2 ^ 24) && (-149 <=? e) && (e <=? 104)
  | _ => false
  end.

(** A float of the format, zero or finite, of magnitude at most [2 ^ k]:
    the mantissa is compared in units of [2 ^ -149], the spacing of the
    subnormal numbers. *)
Definition within (k : Z) (x : float) : bool :=
  valid_binary prec emax x &&
  match x with
  | S754_zero _ => true
  | S754_finite _ m e => Z.pos m * 2 ^ (e + 149) <=? 2 ^ (k + 149)
  | _ => false
  end.

(** What the C library guarantees of a sine or a cosine: a number of the
    format with [|x| <= 1]. *)
Definition unit_float (x : float) : bool :=
  valid_binary prec emax x && fle (fabs x) (of_int 1).

Definition unit_trig (t : trig) : bool :=
  unit_float (s1 t) && unit_float (c1 t) && unit_float (s2 t) &&
  unit_float (c2 t) && unit_float (s3 t) && unit_float (c3 t).

(** The divisor [d] of the perspective division for a vertex. *)
Definition depth_divisor (t : trig) (p : float * float * float) : float :=
  fadd (of_int 5) (fmul (snd (rotate t p)) (lit 3 10)).

(** Whether the conversion [(int) x] is defined in C: [x] is finite and its
    integer part is representable in an [int]. *)
Definition cast_defined (x : float) : bool :=
  match x with
  | S754_zero _ => true
  | S754_finite _ _ _ => int_ok (trunc x)
  | _ => false
  end.

(** The sines and cosines of the three angles of a Pose, as the loop of
    [main] takes them from the C library. *)
Definition pose_trig (sinf cosf : float -> float) (a : pose) : trig :=
  {| s1 := sinf (ax a); c1 := cosf (ax a);
     s2 := sinf (ay a); c2 := cosf (ay a);
     s3 := sinf (az a); c3 := cosf (az a) |}.

(** Whether the edge loop stays within what C defines: each of the four
    conversions [(int)] of an edge is of a finite float whose integer part
    is an [int], and the arithmetic of the [draw_line] call stays within
    [int]. *)
Definition edges_defined (proj : list (float * float)) (es : list (nat * nat)) : bool :=
  forallb
    (fun e : nat * nat =>
       let pa := nth e.1 proj (of_int 0, of_int 0) in
       let pb := nth e.2 proj (of_int 0, of_int 0) in
       let x0 := int_of_float pa.1 in
       let y0 := int_of_float pa.2 in
       let x1 := int_of_float pb.1 in
       let y1 := int_of_float pb.2 in
       cast_defined pa.1 && cast_defined pa.2 &&
       cast_defined pb.1 && cast_defined pb.2 &&
       line_in_int (line_fuel x0 y0 x1 y1) x0 y0 x1 y1)
    es.

(* ================================================================== *)
(** * Part II: properties                                              *)
(* ================================================================== *)

(** ** The result monad *)

Lemma bind_Ok {A B : Type} (a : A) (k : A -> result B) :
  (Ok a ≫= k) = k a.
Proof. reflexivity. Qed.

Lemma bind_Ok_inv {A B : Type} (r : result A) (k : A -> result B) (b : B) :
  (r ≫= k) = Ok b -> exists a, r = Ok a /\ k a = Ok b.
Proof. destruct r as [a| |]; simpl; intros H; try discriminate. now exists a. Qed.

(** ** Sub-pixel addressing *)

Lemma land_1_mod x : Z.land x 1 = x mod 2.
Proof. change 1 with (Z.ones 1). now rewrite Z.land_ones. Qed.

Lemma land_3_mod y : Z.land y 3 = y mod 4.
Proof. change 3 with (Z.ones 2). now rewrite Z.land_ones. Qed.

Lemma sub_cases x y :
  (Z.land x 1 = 0 \/ Z.land x 1 = 1) /\
  (Z.land y 3 = 0 \/ Z.land y 3 = 1 \/ Z.land y 3 = 2 \/ Z.land y 3 = 3).
Proof.
  rewrite land_1_mod, land_3_mod.
  pose proof (Z.mod_pos_bound x 2). pose proof (Z.mod_pos_bound y 4). lia.
Qed.

Lemma dot_mask_pow2 x y : dot_mask x y = 2 ^ mask_bit x y.
Proof.
  unfold dot_mask, mask_bit, bits.
  destruct (sub_cases x y) as [[-> | ->] [-> | [-> | [-> | ->]]]]; reflexivity.
Qed.

Lemma mask_bit_range x y : 0 <= mask_bit x y < 8.
Proof.
  unfold mask_bit.
  destruct (sub_cases x y) as [[-> | ->] [-> | [-> | [-> | ->]]]]; simpl; lia.
Qed.

Lemma dot_mask_byte x y : is_byte (dot_mask x y).
Proof.
  unfold dot_mask, bits, is_byte.
  destruct (sub_cases x y) as [[-> | ->] [-> | [-> | [-> | ->]]]]; simpl; lia.
Qed.

Lemma mask_bit_inj x y x' y' :
  mask_bit x y = mask_bit x' y' ->
  Z.land x 1 = Z.land x' 1 /\ Z.land y 3 = Z.land y' 3.
Proof.
  unfold mask_bit.
  destruct (sub_cases x y) as [[-> | ->] [-> | [-> | [-> | ->]]]];
  destruct (sub_cases x' y') as [[-> | ->] [-> | [-> | [-> | ->]]]];
  simpl; intros H; try discriminate H; split; reflexivity.
Qed.

Lemma land_pow2_testbit b k :
  0 <= k -> (Z.land b (2 ^ k) =? 0) = negb (Z.testbit b k).
Proof.
  intros Hk. destruct (Z.testbit b k) eqn:Hb; simpl.
  - apply Z.eqb_neq. intros H0.
    assert (Ht : Z.testbit (Z.land b (2 ^ k)) k = true)
      by (rewrite Z.land_spec, Hb, Z.pow2_bits_true; auto).
    rewrite H0, Z.bits_0 in Ht. discriminate.
  - apply Z.eqb_eq. apply Z.bits_inj'. intros n Hn.
    rewrite Z.land_spec, Z.bits_0, Z.pow2_bits_eqb by assumption.
    destruct (Z.eqb_spec k n) as [<- | _]; [rewrite Hb|]; auto using andb_false_r.
Qed.

Lemma dot_testbit g fb x y :
  dot g fb x y = Z.testbit (fb !!! Z.to_nat (cell_index g x y)) (mask_bit x y).
Proof.
  unfold dot. rewrite dot_mask_pow2, land_pow2_testbit by apply mask_bit_range.
  apply negb_involutive.
Qed.

Lemma out_of_bounds_false g x y :
  out_of_bounds g x y = false <-> 0 <= x < pw g /\ 0 <= y < ph g.
Proof. unfold out_of_bounds. lia. Qed.

Lemma in_bounds_true g p :
  in_bounds g p = true <-> 0 <= fst p < pw g /\ 0 <= snd p < ph g.
Proof. unfold in_bounds. rewrite negb_true_iff. apply out_of_bounds_false. Qed.

Lemma cell_index_div g x y :
  0 <= x -> 0 <= y -> cell_index g x y = y / 4 * cw g + x / 2.
Proof.
  intros Hx Hy. unfold cell_index. now rewrite !Z.quot_div_nonneg by lia.
Qed.

Lemma cell_index_range g x y :
  geom_ok g -> out_of_bounds g x y = false ->
  0 <= cell_index g x y < cw g * ch g.
Proof.
  intros (Hcw & Hch & Hpw & Hph) Hb. apply out_of_bounds_false in Hb.
  rewrite cell_index_div by lia.
  assert (0 <= x / 2 < cw g) by (split; [apply Z.div_pos | apply Z.div_lt_upper_bound]; lia).
  assert (0 <= y / 4 < ch g) by (split; [apply Z.div_pos | apply Z.div_lt_upper_bound]; lia).
  nia.
Qed.

(** Distinct in-bounds sub-pixels never share both a cell and a bit. *)
Lemma address_inj g x y x' y' :
  geom_ok g ->
  out_of_bounds g x y = false -> out_of_bounds g x' y' = false ->
  cell_index g x y = cell_index g x' y' ->
  mask_bit x y = mask_bit x' y' ->
  x = x' /\ y = y'.
Proof.
  intros (Hcw & Hch & Hpw & Hph) Hb Hb' Hc Hm.
  apply out_of_bounds_false in Hb, Hb'.
  rewrite !cell_index_div in Hc by lia.
  apply mask_bit_inj in Hm. rewrite !land_1_mod, !land_3_mod in Hm.
  destruct Hm as [Hmx Hmy].
  assert (0 <= x / 2 < cw g) by (split; [apply Z.div_pos | apply Z.div_lt_upper_bound]; lia).
  assert (0 <= x' / 2 < cw g) by (split; [apply Z.div_pos | apply Z.div_lt_upper_bound]; lia).
  pose proof (Z.div_mod x 2 ltac:(lia)). pose proof (Z.div_mod x' 2 ltac:(lia)).
  pose proof (Z.div_mod y 4 ltac:(lia)). pose proof (Z.div_mod y' 4 ltac:(lia)).
  assert (y / 4 = y' / 4) by nia.
  assert (x / 2 = x' / 2) by nia.
  lia.
Qed.

(** ** [fb_set] *)

Lemma fb_set_spec g fb x y :
  geom_ok g -> fb_sized g fb ->
  exists fb',
    fb_set g fb x y = Ok fb' /\ fb_sized g fb' /\
    forall i : nat,
      fb' !!! i =
        if in_bounds g (x, y) && (cell_index g x y =? Z.of_nat i)
        then Z.lor (fb !!! i) (dot_mask x y) mod 256
        else fb !!! i.
Proof.
  intros Hg Hsz. unfold fb_set, in_bounds; simpl.
  destruct (out_of_bounds g x y) eqn:Hb; simpl.
  - exists fb. auto.
  - pose proof (cell_index_range g x y Hg Hb) as Hr.
    unfold store. unfold fb_sized in Hsz.
    replace ((0 <=? cell_index g x y) && (cell_index g x y <? Z.of_nat (length fb)))
      with true by (symmetry; apply andb_true_iff; lia).
    eexists. split; [reflexivity|]. split.
    + unfold fb_sized. now rewrite length_insert.
    + intros i. rewrite list_lookup_total_insert.
      destruct (Z.eqb_spec (cell_index g x y) (Z.of_nat i)) as [He | Hne].
      * rewrite decide_True by (split; lia).
        now replace (Z.to_nat (cell_index g x y)) with i by lia.
      * rewrite decide_False by (intros [? ?]; lia). reflexivity.
Qed.

Lemma fb_set_out g fb x y :
  out_of_bounds g x y = true -> fb_set g fb x y = Ok fb.
Proof. intros H. unfold fb_set. now rewrite H. Qed.

Lemma testbit_lor_mask b k n :
  0 <= k < 8 -> 0 <= n < 8 ->
  Z.testbit (Z.lor b (2 ^ k) mod 256) n = Z.testbit b n || (k =? n).
Proof.
  intros Hk Hn. change 256 with (2 ^ 8).
  rewrite Z.mod_pow2_bits_low by lia.
  now rewrite Z.lor_spec, Z.pow2_bits_eqb by lia.
Qed.

(** After [fb_set], an in-bounds sub-pixel is occupied iff it was before or
    it is the one just set. *)
Lemma fb_set_dot g fb x y fb' x' y' :
  geom_ok g -> fb_sized g fb ->
  fb_set g fb x y = Ok fb' ->
  out_of_bounds g x' y' = false ->
  dot g fb' x' y' =
    dot g fb x' y' || (in_bounds g (x, y) && point_eqb (x, y) (x', y')).
Proof.
  intros Hg Hsz Hset Hb'.
  destruct (fb_set_spec g fb x y Hg Hsz) as (fb2 & Hset2 & _ & Hbyte).
  rewrite Hset in Hset2. injection Hset2 as <-.
  rewrite !dot_testbit, Hbyte.
  pose proof (cell_index_range g x' y' Hg Hb') as Hr'.
  rewrite Z2Nat.id by lia.
  unfold in_bounds, point_eqb; simpl.
  destruct (out_of_bounds g x y) eqn:Hb; simpl; [now rewrite orb_false_r|].
  destruct (Z.eqb_spec (cell_index g x y) (cell_index g x' y')) as [Hc | Hc].
  - rewrite dot_mask_pow2, testbit_lor_mask by apply mask_bit_range.
    f_equal.
    destruct (Z.eqb_spec (mask_bit x y) (mask_bit x' y')) as [Hm | Hm].
    + destruct (address_inj g x y x' y' Hg Hb Hb' Hc Hm) as [-> ->].
      now rewrite !Z.eqb_refl.
    + symmetry. apply andb_false_iff.
      destruct (Z.eqb_spec x x') as [-> |]; [|now left].
      destruct (Z.eqb_spec y y') as [-> |]; [|now right]. congruence.
  - destruct (Z.eqb_spec x x') as [-> |]; [|now rewrite orb_false_r].
    destruct (Z.eqb_spec y y') as [-> |]; [|now rewrite orb_false_r]. congruence.
Qed.

(** ** 32-bit integers *)

Lemma wrap32_small n : - 2 ^ 31 <= n < 2 ^ 31 -> wrap32 n = n.
Proof.
  intros H. unfold wrap32. change (2 ^ 31) with 2147483648 in *.
  change (2 ^ 32) with 4294967296. rewrite Z.mod_small; lia.
Qed.

Lemma int_ok_small n : int_ok n = true -> wrap32 n = n.
Proof.
  unfold int_ok, INT_MIN, INT_MAX. intros H. apply andb_true_iff in H.
  apply wrap32_small. change (2 ^ 31) with 2147483648 in *. lia.
Qed.

(** ** The loop of [draw_line] *)

(** The loop does [fb_set] on the points of its trace, in order. *)
Lemma draw_loop_points fuel g x1 y1 dx dy sx sy :
  forall fb x0 y0 err pts,
    loop_points fuel x1 y1 dx dy sx sy x0 y0 err = Some pts ->
    draw_loop fuel g fb x1 y1 dx dy sx sy x0 y0 err = set_points g fb pts.
Proof.
  induction fuel as [|fuel IH]; intros fb x0 y0 err pts; simpl; [discriminate|].
  destruct ((x0 =? x1) && (y0 =? y1)).
  - intros [= <-]. simpl. destruct (fb_set g fb x0 y0); reflexivity.
  - destruct (2 * err >=? dy), (2 * err <=? dx);
      (match goal with
       | |- option_map _ ?t = _ -> _ => destruct t as [pts'|] eqn:Hp
       end; simpl; intros [= <-]; simpl;
       destruct (fb_set g fb x0 y0) as [fb'| |]; simpl; auto).
Qed.

Lemma loop_points_mono fuel x1 y1 dx dy sx sy :
  forall fuel' x0 y0 err pts,
    loop_points fuel x1 y1 dx dy sx sy x0 y0 err = Some pts ->
    (fuel <= fuel')%nat ->
    loop_points fuel' x1 y1 dx dy sx sy x0 y0 err = Some pts.
Proof.
  induction fuel as [|fuel IH]; intros fuel' x0 y0 err pts; simpl; [discriminate|].
  intros H Hle. destruct fuel' as [|fuel']; [lia|]. simpl.
  destruct ((x0 =? x1) && (y0 =? y1)); [assumption|].
  destruct (2 * err >=? dy), (2 * err <=? dx);
    (match type of H with
     | option_map _ ?t = _ => destruct t as [pts'|] eqn:Hp
     end; simpl in H; [|discriminate];
     erewrite IH by (try eassumption; lia); exact H).
Qed.

Lemma loop_points_S fuel x1 y1 dx dy sx sy x0 y0 err :
  loop_points (S fuel) x1 y1 dx dy sx sy x0 y0 err =
    if (x0 =? x1) && (y0 =? y1) then Some [(x0, y0)]
    else
      let e2 := 2 * err in
      let '(err', x0') := if e2 >=? dy then (err + dy, x0 + sx) else (err, x0) in
      let '(err'', y0') := if e2 <=? dx then (err' + dx, y0 + sy) else (err', y0) in
      option_map (cons (x0, y0))
        (loop_points fuel x1 y1 dx dy sx sy x0' y0' err'').
Proof. reflexivity. Qed.

(** Error-term arithmetic: at an endpoint coordinate the test of the other
    axis fails, so the loop never steps past the endpoint. *)

Lemma no_x_step_at_end A B ry err :
  0 <= A -> 0 < ry <= B ->
  err = (B - ry + 1) * A - (A - 0 + 1) * B ->
  2 * err >= - B -> False.
Proof. intros. nia. Qed.

Lemma no_y_step_at_end A B rx err :
  0 <= B -> 0 < rx <= A ->
  err = (B - 0 + 1) * A - (A - rx + 1) * B ->
  2 * err <= A -> False.
Proof. intros. nia. Qed.

Section Bresenham.

(** What is fixed before the loop: the endpoint, the spans [A = dx] and
    [B = - dy], and the step directions. *)
Variables x1 y1 A B sx sy : Z.
Hypothesis Hsx : sx = 1 \/ sx = -1.
Hypothesis Hsy : sy = 1 \/ sy = -1.

(** Goals that are linear once the step directions are known. *)
Ltac by_directions :=
  unfold loop_inv in *;
  destruct Hsx as [-> | ->], Hsy as [-> | ->]; lia.

(** One iteration away from the endpoint: at least one axis steps, no axis
    steps past the endpoint, and the invariant holds again. *)
Lemma loop_step_cases x0 y0 err rx ry :
  loop_inv x1 y1 A B sx sy x0 y0 err rx ry ->
  (x0 =? x1) && (y0 =? y1) = false ->
  ((2 * err >=? - B) = true /\ (2 * err <=? A) = true /\
   loop_inv x1 y1 A B sx sy (x0 + sx) (y0 + sy) (err + - B + A) (rx - 1) (ry - 1)) \/
  ((2 * err >=? - B) = true /\ (2 * err <=? A) = false /\
   loop_inv x1 y1 A B sx sy (x0 + sx) y0 (err + - B) (rx - 1) ry) \/
  ((2 * err >=? - B) = false /\ (2 * err <=? A) = true /\
   loop_inv x1 y1 A B sx sy x0 (y0 + sy) (err + A) rx (ry - 1)).
Proof using Hsx Hsy.
  intros Hinv Hend.
  assert (Hne : 0 < rx + ry).
  { apply andb_false_iff in Hend.
    destruct Hend as [H | H]; apply Z.eqb_neq in H; by_directions. }
  assert (Hxs : 2 * err >= - B -> 0 < rx).
  { intros Hc. destruct (Z.eq_dec rx 0) as [E|]; [|unfold loop_inv in *; lia].
    exfalso. apply (no_x_step_at_end A B ry err); unfold loop_inv in *; lia. }
  assert (Hys : 2 * err <= A -> 0 < ry).
  { intros Hc. destruct (Z.eq_dec ry 0) as [E|]; [|unfold loop_inv in *; lia].
    exfalso. apply (no_y_step_at_end A B rx err); unfold loop_inv in *; lia. }
  destruct (Z.geb_spec (2 * err) (- B)) as [Hx | Hx];
  destruct (Z.leb_spec (2 * err) A) as [Hy | Hy].
  - left. repeat split; try reflexivity; by_directions.
  - right; left. repeat split; try reflexivity; by_directions.
  - right; right. repeat split; try reflexivity; by_directions.
  - exfalso. unfold loop_inv in *. lia.
Qed.

(** The loop terminates within [rx + ry + 1] iterations; its trace starts
    at the current point, ends at the endpoint and stays between them. *)
Lemma loop_points_total fuel :
  forall x0 y0 err rx ry,
    loop_inv x1 y1 A B sx sy x0 y0 err rx ry ->
    (Z.to_nat (rx + ry) < fuel)%nat ->
    exists pts,
      loop_points fuel x1 y1 A (- B) sx sy x0 y0 err = Some pts /\
      (exists rest, pts = (x0, y0) :: rest) /\
      (exists front, pts = front ++ [(x1, y1)]) /\
      Forall (fun p => 0 <= (x1 - fst p) * sx <= rx /\
                       0 <= (y1 - snd p) * sy <= ry) pts /\
      (length pts <= S (Z.to_nat (rx + ry)))%nat.
Proof using Hsx Hsy.
  induction fuel as [|fuel IH]; intros x0 y0 err rx ry Hinv Hfuel; [lia|].
  rewrite loop_points_S. cbv zeta.
  destruct ((x0 =? x1) && (y0 =? y1)) eqn:Hend.
  - apply andb_true_iff in Hend. destruct Hend as [Hx Hy].
    apply Z.eqb_eq in Hx, Hy. subst x0 y0.
    exists [(x1, y1)]. split; [reflexivity|].
    split; [now exists []|]. split; [now exists []|].
    split; [|simpl; lia].
    constructor; [simpl; unfold loop_inv in Hinv; lia | constructor].
  - destruct (loop_step_cases x0 y0 err rx ry Hinv Hend)
      as [(-> & -> & Hnext) | [(-> & -> & Hnext) | (-> & -> & Hnext)]];
      cbv iota beta;
      (destruct (IH _ _ _ _ _ Hnext)
         as (pts & -> & [rest Hhd] & [front Hlast] & Hbox & Hlen);
       [unfold loop_inv in *; lia|];
       exists ((x0, y0) :: pts); split; [reflexivity|];
       split; [now eexists|];
       split; [exists ((x0, y0) :: front); now rewrite Hlast|];
       split; [|unfold loop_inv in *; simpl; lia];
       constructor; [simpl; by_directions|];
       eapply Forall_impl; [exact Hbox|]; simpl; intros p Hb;
       unfold loop_inv in *; lia).
Qed.

(** With spans and endpoint of at most 28 and 27 bits, every value computed
    by the loop is an [int]. *)
Lemma loop_in_int_ok fuel :
  A <= 2 ^ 28 -> B <= 2 ^ 28 -> - 2 ^ 27 <= x1 <= 2 ^ 27 -> - 2 ^ 27 <= y1 <= 2 ^ 27 ->
  forall x0 y0 err rx ry,
    loop_inv x1 y1 A B sx sy x0 y0 err rx ry ->
    (Z.to_nat (rx + ry) < fuel)%nat ->
    loop_in_int fuel x1 y1 A (- B) sx sy x0 y0 err = true.
Proof using Hsx Hsy.
  intros HA HB Hx1 Hy1.
  change (2 ^ 28) with 268435456 in HA, HB.
  change (2 ^ 27) with 134217728 in Hx1, Hy1.
  assert (Hi : forall n, - 1073741824 <= n <= 1073741824 -> int_ok n = true).
  { intros n Hn. unfold int_ok, INT_MIN, INT_MAX. apply andb_true_iff.
    change (2 ^ 31) with 2147483648. lia. }
  induction fuel as [|fuel IH]; intros x0 y0 err rx ry Hinv Hfuel; [lia|].
  cbn [loop_in_int]. cbv zeta.
  destruct ((x0 =? x1) && (y0 =? y1)) eqn:Hend; [reflexivity|].
  assert (Hx0 : x0 = x1 - rx * sx /\ y0 = y1 - ry * sy) by by_directions.
  destruct (loop_step_cases x0 y0 err rx ry Hinv Hend)
    as [(-> & -> & Hnext) | [(-> & -> & Hnext) | (-> & -> & Hnext)]];
    cbv iota beta;
    rewrite (IH _ _ _ _ _ Hnext) by (unfold loop_inv in *; lia);
    rewrite ?(Hi (2 * err)), ?(Hi err), ?(Hi (err + - B)), ?(Hi (err + A)),
      ?(Hi (err + - B + A)), ?(Hi x0), ?(Hi y0), ?(Hi (x0 + sx)), ?(Hi (y0 + sy))
      by by_directions;
    reflexivity.
Qed.

End Bresenham.

(** The invariant holds when the loop is entered. *)
Lemma loop_inv_init x0 y0 x1 y1 :
  let sx := if x0 <? x1 then 1 else -1 in
  let sy := if y0 <? y1 then 1 else -1 in
  (sx = 1 \/ sx = -1) /\ (sy = 1 \/ sy = -1) /\
  loop_inv x1 y1 (Z.abs (x1 - x0)) (Z.abs (y1 - y0)) sx sy x0 y0
           (Z.abs (x1 - x0) + - Z.abs (y1 - y0))
           (Z.abs (x1 - x0)) (Z.abs (y1 - y0)).
Proof.
  unfold loop_inv.
  destruct (Z.ltb_spec x0 x1), (Z.ltb_spec y0 y1); cbv zeta;
    repeat split; auto; lia.
Qed.

Lemma line_points_total fuel x0 y0 x1 y1 :
  (line_fuel x0 y0 x1 y1 <= fuel)%nat ->
  exists pts,
    line_points fuel x0 y0 x1 y1 = Some pts /\
    (exists rest, pts = (x0, y0) :: rest) /\
    (exists front, pts = front ++ [(x1, y1)]) /\
    Forall (fun p => Z.min x0 x1 <= fst p <= Z.max x0 x1 /\
                     Z.min y0 y1 <= snd p <= Z.max y0 y1) pts /\
    (length pts <= line_fuel x0 y0 x1 y1)%nat.
Proof.
  unfold line_fuel, line_points. intros Hfuel.
  destruct (loop_inv_init x0 y0 x1 y1) as (Hsx & Hsy & Hinv).
  destruct (loop_points_total _ _ _ _ _ _ Hsx Hsy fuel _ _ _ _ _ Hinv)
    as (pts & Hp & Hhd & Hlast & Hbox & Hlen); [lia|].
  exists pts. repeat split; try assumption.
  eapply Forall_impl; [exact Hbox|]. simpl. intros [px py]; simpl.
  destruct (Z.ltb_spec x0 x1), (Z.ltb_spec y0 y1); lia.
Qed.

(** ** [draw_line] stays within [int] *)

(** X11: with coordinates of at most 27 bits, which covers every screen, no
    arithmetic of [draw_line] overflows an [int]: the differences, spans
    and their sum before the loop, and [e2], [err], [x0] and [y0] in every
    iteration are representable, so the run on mathematical integers is
    the run of the C code. *)
Lemma draw_line_no_overflow x0 y0 x1 y1 :
  - 2 ^ 27 <= x0 <= 2 ^ 27 -> - 2 ^ 27 <= y0 <= 2 ^ 27 ->
  - 2 ^ 27 <= x1 <= 2 ^ 27 -> - 2 ^ 27 <= y1 <= 2 ^ 27 ->
  line_in_int (line_fuel x0 y0 x1 y1) x0 y0 x1 y1 = true.
Proof.
  intros Hx0 Hy0 Hx1 Hy1. unfold line_in_int, line_fuel.
  destruct (loop_inv_init x0 y0 x1 y1) as (Hsx & Hsy & Hinv).
  assert (HA : Z.abs (x1 - x0) <= 2 ^ 28 /\ Z.abs (y1 - y0) <= 2 ^ 28)
    by (change (2 ^ 27) with 134217728 in *; change (2 ^ 28) with 268435456; lia).
  rewrite (loop_in_int_ok _ _ _ _ _ _ Hsx Hsy _ (proj1 HA) (proj2 HA) Hx1 Hy1
             _ _ _ _ _ Hinv) by lia.
  unfold int_ok, INT_MIN, INT_MAX.
  change (2 ^ 27) with 134217728 in *. change (2 ^ 31) with 2147483648.
  repeat (apply andb_true_iff; split); lia.
Qed.

(** ** [draw_line] on 32-bit integers *)

(** Where no value leaves the range of [int], the 32-bit run is the run on
    mathematical integers. *)
Lemma loop_points32_agree fuel x1 y1 dx dy sx sy :
  forall x0 y0 err pts,
    loop_in_int fuel x1 y1 dx dy sx sy x0 y0 err = true ->
    loop_points fuel x1 y1 dx dy sx sy x0 y0 err = Some pts ->
    loop_points32 fuel x1 y1 dx dy sx sy x0 y0 err = (pts, true).
Proof.
  induction fuel as [|fuel IH]; intros x0 y0 err pts Hin Hp; [discriminate|].
  cbn [loop_in_int loop_points loop_points32] in *. cbv zeta in *.
  destruct ((x0 =? x1) && (y0 =? y1)); [now injection Hp as <-|].
  destruct (2 * err >=? dy) eqn:Hx, (2 * err <=? dx) eqn:Hy;
    cbv iota beta in Hin, Hp;
    do 5 (apply andb_true_iff in Hin; destruct Hin as [Hin ?]);
    rewrite (int_ok_small (2 * err)) by assumption;
    rewrite Hx, Hy; cbv iota beta;
    rewrite ?(int_ok_small (err + dy)), ?(int_ok_small (x0 + sx)),
      ?(int_ok_small (y0 + sy)) by assumption;
    rewrite ?(int_ok_small (err + dx)), ?(int_ok_small (err + dy + dx)) by assumption;
    (match type of Hp with
     | option_map _ ?t = _ => destruct t as [pts'|] eqn:Hp'; [|discriminate]
     end);
    injection Hp as <-;
    rewrite (IH _ _ _ pts') by assumption; reflexivity.
Qed.

(** A segment with coordinates of at most 27 bits: the loop returns within
    [line_fuel] iterations, no value it computes leaves the range of [int],
    and the 32-bit run visits the same sub-pixels. *)
Lemma line_run_in_range fuel x0 y0 x1 y1 :
  - 2 ^ 27 <= x0 <= 2 ^ 27 -> - 2 ^ 27 <= y0 <= 2 ^ 27 ->
  - 2 ^ 27 <= x1 <= 2 ^ 27 -> - 2 ^ 27 <= y1 <= 2 ^ 27 ->
  (line_fuel x0 y0 x1 y1 <= fuel)%nat ->
  exists pts,
    line_points fuel x0 y0 x1 y1 = Some pts /\
    line_in_int fuel x0 y0 x1 y1 = true /\
    line_points32 fuel x0 y0 x1 y1 = (pts, true).
Proof.
  intros Hx0 Hy0 Hx1 Hy1 Hfuel.
  destruct (line_points_total fuel x0 y0 x1 y1 Hfuel) as (pts & Hp & _).
  exists pts. split; [exact Hp|].
  assert (Hloop : loop_in_int fuel x1 y1 (Z.abs (x1 - x0)) (- Z.abs (y1 - y0))
                    (if x0 <? x1 then 1 else -1) (if y0 <? y1 then 1 else -1)
                    x0 y0 (Z.abs (x1 - x0) + - Z.abs (y1 - y0)) = true).
  { destruct (loop_inv_init x0 y0 x1 y1) as (Hsx & Hsy & Hinv).
    assert (HA : Z.abs (x1 - x0) <= 2 ^ 28 /\ Z.abs (y1 - y0) <= 2 ^ 28)
      by (change (2 ^ 27) with 134217728 in *; change (2 ^ 28) with 268435456; lia).
    apply (loop_in_int_ok _ _ _ _ _ _ Hsx Hsy _ (proj1 HA) (proj2 HA) Hx1 Hy1
             _ _ _ _ _ Hinv).
    unfold line_fuel in Hfuel. lia. }
  assert (Hi : forall n, - 2 ^ 29 <= n <= 2 ^ 29 -> int_ok n = true).
  { intros n Hn. unfold int_ok, INT_MIN, INT_MAX. apply andb_true_iff.
    change (2 ^ 29) with 536870912 in Hn. change (2 ^ 31) with 2147483648. lia. }
  assert (Hpre : int_ok (x1 - x0) = true /\ int_ok (y1 - y0) = true /\
                 int_ok (Z.abs (x1 - x0)) = true /\ int_ok (Z.abs (y1 - y0)) = true /\
                 int_ok (- Z.abs (y1 - y0)) = true /\
                 int_ok (Z.abs (x1 - x0) + - Z.abs (y1 - y0)) = true).
  { change (2 ^ 27) with 134217728 in *.
    repeat split; apply Hi; change (2 ^ 29) with 536870912; lia. }
  destruct Hpre as (H1 & H2 & H3 & H4 & H5 & H6).
  split.
  - unfold line_in_int. cbv zeta. now rewrite H1, H2, H3, H5, H6, Hloop.
  - unfold line_points32. cbv zeta.
    rewrite (int_ok_small (x1 - x0)), (int_ok_small (y1 - y0)) by assumption.
    rewrite (int_ok_small (Z.abs (x1 - x0))), (int_ok_small (Z.abs (y1 - y0)))
      by assumption.
    rewrite (int_ok_small (- Z.abs (y1 - y0))) by assumption.
    rewrite (int_ok_small (Z.abs (x1 - x0) + - Z.abs (y1 - y0))) by assumption.
    now apply loop_points32_agree.
Qed.

(** The segment from (0, 0) to (2^30 + 5, 1): all four coordinates and both
    spans are [int]s, but the first [e2 = 2 * err] is not. *)
Lemma far_segment_overflows fuel :
  line_in_int fuel 0 0 (2 ^ 30 + 5) 1 = false.
Proof.
  unfold line_in_int. cbv zeta.
  change (2 ^ 30 + 5) with 1073741829.
  destruct fuel as [|fuel]; [apply andb_false_r|].
  cbn [loop_in_int]. cbv zeta.
  change ((0 =? 1073741829) && (0 =? 1)) with false. cbv iota.
  change (Z.abs (1073741829 - 0)) with 1073741829.
  change (- Z.abs (1 - 0)) with (-1).
  change (2 * (1073741829 + -1)) with 2147483656.
  change (2147483656 >=? -1) with true. change (2147483656 <=? 1073741829) with false.
  cbv iota beta.
  change (int_ok 2147483656) with false.
  now rewrite !andb_false_r.
Qed.

(** Once the 32-bit run on that segment has passed row 1 it does not come
    back to it for as long as [y0] does not wrap around: it cannot leave
    the loop. *)
Lemma far_segment_stuck fuel :
  forall x0 y0 err,
    2 <= y0 -> y0 + Z.of_nat fuel < 2 ^ 31 ->
    snd (loop_points32 fuel (2 ^ 30 + 5) 1 (2 ^ 30 + 5) (-1) 1 1 x0 y0 err) = false.
Proof.
  induction fuel as [|fuel IH]; intros x0 y0 err Hy Hf; [reflexivity|].
  cbn [loop_points32]. cbv zeta.
  replace (y0 =? 1) with false by (symmetry; apply Z.eqb_neq; lia).
  rewrite andb_false_r.
  assert (Hw : wrap32 (y0 + 1) = y0 + 1)
    by (apply wrap32_small; change (2 ^ 31) with 2147483648 in *; lia).
  destruct (wrap32 (2 * err) >=? -1), (wrap32 (2 * err) <=? 2 ^ 30 + 5);
    cbv iota beta; rewrite ?Hw;
    match goal with
    | |- snd (let '(_, _) := loop_points32 fuel ?a ?b ?c ?d ?e ?f ?x ?y ?r in _) = false =>
        specialize (IH x y r ltac:(lia) ltac:(lia));
        destruct (loop_points32 fuel a b c d e f x y r) as [pts l];
        exact IH
    end.
Qed.

Lemma far_segment_no_return fuel :
  Z.of_nat fuel <= 2 ^ 31 - 3 ->
  snd (line_points32 fuel 0 0 (2 ^ 30 + 5) 1) = false.
Proof.
  intros Hf. unfold line_points32. cbv zeta.
  change (wrap32 (Z.abs (wrap32 (2 ^ 30 + 5 - 0)))) with (2 ^ 30 + 5).
  change (wrap32 (- wrap32 (Z.abs (wrap32 (1 - 0))))) with (-1).
  change (wrap32 (2 ^ 30 + 5 + -1)) with 1073741828.
  change (if 0 <? 2 ^ 30 + 5 then 1 else -1) with 1.
  change (if 0 <? 1 then 1 else -1) with 1.
  destruct fuel as [|fuel]; [reflexivity|].
  cbn [loop_points32]. cbv zeta.
  change ((0 =? 2 ^ 30 + 5) && (0 =? 1)) with false. cbv iota.
  change (wrap32 (2 * 1073741828)) with (-2147483640).
  change (-2147483640 >=? -1) with false.
  change (-2147483640 <=? 2 ^ 30 + 5) with true. cbv iota beta.
  change (wrap32 (1073741828 + (2 ^ 30 + 5))) with (-2147483639).
  change (wrap32 (0 + 1)) with 1.
  destruct fuel as [|fuel]; [reflexivity|].
  cbn [loop_points32]. cbv zeta.
  change ((0 =? 2 ^ 30 + 5) && (1 =? 1)) with false. cbv iota.
  change (wrap32 (2 * -2147483639)) with 18.
  change (18 >=? -1) with true. change (18 <=? 2 ^ 30 + 5) with true.
  cbv iota beta.
  change (wrap32 (-2147483639 + -1)) with (-2147483640).
  change (wrap32 (0 + 1)) with 1.
  change (wrap32 (-2147483640 + (2 ^ 30 + 5))) with (-1073741811).
  change (wrap32 (1 + 1)) with 2.
  pose proof (far_segment_stuck fuel 1 2 (-1073741811) ltac:(lia)
                ltac:(change (2 ^ 31) with 2147483648 in *; lia)) as H.
  destruct (loop_points32 fuel _ _ _ _ _ _ _ _ _) as [pts l]. exact H.
Qed.

(** ** [fb_set] over a list of points *)

Lemma point_eqb_eq p q : point_eqb p q = true <-> p = q.
Proof.
  destruct p as [a b], q as [c d]. unfold point_eqb; simpl.
  rewrite andb_true_iff, !Z.eqb_eq. split; [intros [-> ->] | intros [= -> ->]]; auto.
Qed.

Lemma point_eqb_sym p q : point_eqb p q = point_eqb q p.
Proof. unfold point_eqb. now rewrite (Z.eqb_sym (fst p)), (Z.eqb_sym (snd p)). Qed.

Lemma set_points_ok g pts :
  geom_ok g ->
  forall fb, fb_sized g fb ->
    exists fb', set_points g fb pts = Ok fb' /\ fb_sized g fb'.
Proof.
  intros Hg. induction pts as [|[x y] pts IH]; intros fb Hsz; simpl.
  - now exists fb.
  - destruct (fb_set_spec g fb x y Hg Hsz) as (fb1 & -> & Hsz1 & _). simpl.
    now apply IH.
Qed.

Lemma set_points_dot g pts :
  geom_ok g ->
  forall fb fb' x y,
    fb_sized g fb -> set_points g fb pts = Ok fb' ->
    out_of_bounds g x y = false ->
    dot g fb' x y = dot g fb x y || existsb (point_eqb (x, y)) pts.
Proof.
  intros Hg. induction pts as [|[px py] pts IH]; intros fb fb' x y Hsz Hset Hb; simpl in *.
  - injection Hset as <-. now rewrite orb_false_r.
  - destruct (fb_set_spec g fb px py Hg Hsz) as (fb1 & Hset1 & Hsz1 & _).
    rewrite Hset1 in Hset. simpl in Hset.
    rewrite (IH fb1 fb' x y Hsz1 Hset Hb).
    rewrite (fb_set_dot g fb px py fb1 x y Hg Hsz Hset1 Hb).
    rewrite <- orb_assoc. f_equal. f_equal.
    rewrite (point_eqb_sym (x, y)).
    destruct (point_eqb (px, py) (x, y)) eqn:He; [|apply andb_false_r].
    apply point_eqb_eq in He. injection He as -> ->.
    unfold in_bounds; simpl. now rewrite Hb.
Qed.

Lemma lor_byte a b :
  is_byte a -> is_byte b -> is_byte (Z.lor a b) /\ Z.lor a b mod 256 = Z.lor a b.
Proof.
  unfold is_byte. intros Ha Hb.
  assert (H0 : 0 <= Z.lor a b) by (apply Z.lor_nonneg; lia).
  assert (H1 : Z.lor a b < 2 ^ 8).
  { destruct (Z.eq_dec (Z.lor a b) 0) as [-> | Hnz]; [reflexivity|].
    apply Z.log2_lt_pow2; [lia|].
    rewrite Z.log2_lor by lia.
    apply Z.max_lub_lt.
    - destruct (Z.eq_dec a 0) as [-> |]; [reflexivity|].
      apply Z.log2_lt_pow2; lia.
    - destruct (Z.eq_dec b 0) as [-> |]; [reflexivity|].
      apply Z.log2_lt_pow2; lia. }
  change (2 ^ 8) with 256 in H1.
  split; [lia|]. apply Z.mod_small. lia.
Qed.

Lemma set_points_bytes g pts :
  geom_ok g ->
  forall fb fb',
    fb_sized g fb -> Forall is_byte fb ->
    set_points g fb pts = Ok fb' ->
    Forall is_byte fb' /\
    forall i : nat, (i < length fb)%nat ->
      fb' !!! i = cell_union g (Z.of_nat i) pts (fb !!! i).
Proof.
  intros Hg. induction pts as [|[px py] pts IH]; intros fb fb' Hsz Hby Hset; simpl in *.
  - injection Hset as <-. auto.
  - destruct (fb_set_spec g fb px py Hg Hsz) as (fb1 & Hset1 & Hsz1 & Hbyte).
    rewrite Hset1 in Hset. simpl in Hset.
    assert (Hlen : length fb1 = length fb)
      by (unfold fb_sized in *; lia).
    assert (Hcell : forall i : nat, (i < length fb)%nat ->
              is_byte (fb !!! i) /\
              fb1 !!! i =
                if in_bounds g (px, py) && (cell_index g px py =? Z.of_nat i)
                then Z.lor (fb !!! i) (dot_mask px py) else fb !!! i).
    { intros i Hi.
      assert (Hbi : is_byte (fb !!! i)).
      { rewrite Forall_lookup in Hby. apply (Hby i).
        apply list_lookup_lookup_total_lt. exact Hi. }
      split; [exact Hbi|]. rewrite Hbyte.
      destruct (in_bounds g (px, py) && (cell_index g px py =? Z.of_nat i));
        [|reflexivity].
      apply lor_byte; [exact Hbi | apply dot_mask_byte]. }
    assert (Hby1 : Forall is_byte fb1).
    { apply Forall_lookup. intros i b Hb.
      assert (Hi : (i < length fb)%nat)
        by (rewrite <- Hlen; eapply lookup_lt_Some; eassumption).
      apply list_lookup_total_correct in Hb. subst b.
      destruct (Hcell i Hi) as [Hbi ->].
      destruct (in_bounds g (px, py) && (cell_index g px py =? Z.of_nat i));
        [|exact Hbi].
      apply lor_byte; [exact Hbi | apply dot_mask_byte]. }
    destruct (IH fb1 fb' Hsz1 Hby1 Hset) as [Hby' Hu].
    split; [exact Hby'|]. intros i Hi.
    rewrite Hu by lia. unfold cell_union. simpl.
    now destruct (Hcell i Hi) as [_ ->].
Qed.

(** ** [draw_line] *)

Lemma draw_line_trace fuel g fb x0 y0 x1 y1 pts :
  line_points fuel x0 y0 x1 y1 = Some pts ->
  draw_line fuel g fb x0 y0 x1 y1 = set_points g fb pts.
Proof. unfold line_points, draw_line. apply draw_loop_points. Qed.

(** C6, corrected: for endpoints of at most 27 bits in magnitude the loop
    of [draw_line] terminates (any fuel from [line_fuel] on gives a result,
    never [OutOfFuel]) and no value it computes leaves the range of [int],
    so that the run on 32-bit integers is the one on mathematical integers;
    the first sub-pixel handed to [fb_set] is [(x0, y0)], the last one is
    [(x1, y1)], and each endpoint that lies on the screen is occupied
    afterwards. *)
Theorem draw_line_terminates_endpoints g fb fuel x0 y0 x1 y1 :
  geom_ok g -> fb_sized g fb ->
  - 2 ^ 27 <= x0 <= 2 ^ 27 -> - 2 ^ 27 <= y0 <= 2 ^ 27 ->
  - 2 ^ 27 <= x1 <= 2 ^ 27 -> - 2 ^ 27 <= y1 <= 2 ^ 27 ->
  (line_fuel x0 y0 x1 y1 <= fuel)%nat ->
  exists pts fb',
    line_points fuel x0 y0 x1 y1 = Some pts /\
    line_in_int fuel x0 y0 x1 y1 = true /\
    line_points32 fuel x0 y0 x1 y1 = (pts, true) /\
    draw_line fuel g fb x0 y0 x1 y1 = Ok fb' /\
    (exists rest, pts = (x0, y0) :: rest) /\
    (exists front, pts = front ++ [(x1, y1)]) /\
    (in_bounds g (x0, y0) = true -> dot g fb' x0 y0 = true) /\
    (in_bounds g (x1, y1) = true -> dot g fb' x1 y1 = true).
Proof.
  intros Hg Hsz Hx0 Hy0 Hx1 Hy1 Hfuel.
  destruct (line_run_in_range fuel x0 y0 x1 y1 Hx0 Hy0 Hx1 Hy1 Hfuel)
    as (pts & Hp & Hint & H32).
  destruct (line_points_total fuel x0 y0 x1 y1 Hfuel)
    as (pts' & Hp' & [rest Hhd] & [front Hlast] & _ & _).
  rewrite Hp in Hp'. injection Hp' as <-.
  destruct (set_points_ok g pts Hg fb Hsz) as (fb' & Hset & _).
  exists pts, fb'. rewrite (draw_line_trace _ _ _ _ _ _ _ _ Hp).
  split; [exact Hp|]. split; [exact Hint|]. split; [exact H32|].
  split; [exact Hset|].
  split; [now exists rest|]. split; [now exists front|].
  split; intros Hin; apply negb_true_iff in Hin; simpl in Hin;
    rewrite (set_points_dot g pts Hg fb fb' _ _ Hsz Hset Hin);
    apply orb_true_iff; right; apply existsb_exists.
  - exists (x0, y0). split; [rewrite Hhd; now left | now apply point_eqb_eq].
  - exists (x1, y1). split; [|now apply point_eqb_eq].
    rewrite Hlast. apply in_or_app. right. now left.
Qed.

Lemma draw_line_terminates_endpoints_witness :
  exists pts fb',
    line_points 9 3 1 (-2) 4 = Some pts /\
    line_in_int 9 3 1 (-2) 4 = true /\
    line_points32 9 3 1 (-2) 4 = (pts, true) /\
    draw_line 9 (mk_geom 4 2) (replicate 8 0) 3 1 (-2) 4 = Ok fb' /\
    (exists rest, pts = (3, 1) :: rest) /\
    (exists front, pts = front ++ [(-2, 4)]) /\
    (in_bounds (mk_geom 4 2) (3, 1) = true -> dot (mk_geom 4 2) fb' 3 1 = true) /\
    (in_bounds (mk_geom 4 2) (-2, 4) = true -> dot (mk_geom 4 2) fb' (-2) 4 = true).
Proof.
  apply (draw_line_terminates_endpoints (mk_geom 4 2) (replicate 8 0) 9 3 1 (-2) 4);
    try (change (2 ^ 27) with 134217728; lia).
  - unfold geom_ok; simpl; lia.
  - reflexivity.
  - vm_compute; lia.
Defined.

(** C6 as stated fails: it does not hold for every pair of [int]
    endpoints.  For the segment from (0, 0) to (2^30 + 5, 1) the first
    [e2 = 2 * err] is [2^31 + 8], not an [int]: the behaviour of
    [draw_line] is undefined.  With 32-bit wrap-around [e2] is negative,
    only [y0] is stepped and the loop leaves row 1 for good in its second
    iteration: it has not returned after [2^31 - 3] iterations, while the
    segment has [2^30 + 6] sub-pixels. *)
Lemma draw_line_overflow_no_return :
  let x1 := 2 ^ 30 + 5 in
  int_ok x1 = true /\
  int_ok (2 * (Z.abs (x1 - 0) + - Z.abs (1 - 0))) = false /\
  (forall fuel, line_in_int fuel 0 0 x1 1 = false) /\
  (forall fuel, Z.of_nat fuel <= 2 ^ 31 - 3 ->
     snd (line_points32 fuel 0 0 x1 1) = false) /\
  Z.of_nat (line_fuel 0 0 x1 1) = 2 ^ 30 + 7.
Proof.
  cbv zeta. split; [reflexivity|]. split; [reflexivity|].
  split; [exact far_segment_overflows|]. split; [exact far_segment_no_return|].
  unfold line_fuel. rewrite Nat2Z.inj_succ, Z2Nat.id by (vm_compute; discriminate).
  reflexivity.
Qed.

(** C5, corrected: for endpoints of at most 27 bits in magnitude
    rasterizing never fails: no value of the loop leaves the range of
    [int], the run ends with [Ok], so no store ever went outside the
    framebuffer ([BadIndex]), the buffer keeps its size, and an on-screen
    sub-pixel is occupied afterwards iff it was occupied before or lies on
    the segment; the off-screen sub-pixels of the segment leave no mark. *)
Theorem draw_line_clips g fb fuel x0 y0 x1 y1 :
  geom_ok g -> fb_sized g fb ->
  - 2 ^ 27 <= x0 <= 2 ^ 27 -> - 2 ^ 27 <= y0 <= 2 ^ 27 ->
  - 2 ^ 27 <= x1 <= 2 ^ 27 -> - 2 ^ 27 <= y1 <= 2 ^ 27 ->
  (line_fuel x0 y0 x1 y1 <= fuel)%nat ->
  exists pts fb',
    line_points fuel x0 y0 x1 y1 = Some pts /\
    line_in_int fuel x0 y0 x1 y1 = true /\
    line_points32 fuel x0 y0 x1 y1 = (pts, true) /\
    draw_line fuel g fb x0 y0 x1 y1 = Ok fb' /\
    fb_sized g fb' /\
    (forall x y, In (x, y) pts -> out_of_bounds g x y = true ->
                 fb_set g fb' x y = Ok fb') /\
    (forall x y, In (x, y) pts -> out_of_bounds g x y = false ->
                 dot g fb' x y = true) /\
    (forall x y, out_of_bounds g x y = false ->
                 dot g fb' x y = dot g fb x y || existsb (point_eqb (x, y)) pts).
Proof.
  intros Hg Hsz Hx0 Hy0 Hx1 Hy1 Hfuel.
  destruct (line_run_in_range fuel x0 y0 x1 y1 Hx0 Hy0 Hx1 Hy1 Hfuel)
    as (pts & Hp & Hint & H32).
  destruct (set_points_ok g pts Hg fb Hsz) as (fb' & Hset & Hsz').
  exists pts, fb'. rewrite (draw_line_trace _ _ _ _ _ _ _ _ Hp).
  split; [exact Hp|]. split; [exact Hint|]. split; [exact H32|].
  split; [exact Hset|]. split; [exact Hsz'|].
  split; [intros x y _ Hout; now apply fb_set_out|].
  split.
  - intros x y Hin Hb. rewrite (set_points_dot g pts Hg fb fb' _ _ Hsz Hset Hb).
    apply orb_true_iff; right; apply existsb_exists.
    exists (x, y). split; [exact Hin | now apply point_eqb_eq].
  - intros x y Hb. now apply set_points_dot.
Qed.

Lemma draw_line_clips_witness :
  exists pts fb',
    line_points 9 3 1 (-2) 4 = Some pts /\
    line_in_int 9 3 1 (-2) 4 = true /\
    line_points32 9 3 1 (-2) 4 = (pts, true) /\
    draw_line 9 (mk_geom 4 2) (replicate 8 0) 3 1 (-2) 4 = Ok fb' /\
    fb_sized (mk_geom 4 2) fb' /\
    (forall x y, In (x, y) pts -> out_of_bounds (mk_geom 4 2) x y = true ->
                 fb_set (mk_geom 4 2) fb' x y = Ok fb') /\
    (forall x y, In (x, y) pts -> out_of_bounds (mk_geom 4 2) x y = false ->
                 dot (mk_geom 4 2) fb' x y = true) /\
    (forall x y, out_of_bounds (mk_geom 4 2) x y = false ->
                 dot (mk_geom 4 2) fb' x y =
                   dot (mk_geom 4 2) (replicate 8 0) x y || existsb (point_eqb (x, y)) pts).
Proof.
  apply (draw_line_clips (mk_geom 4 2) (replicate 8 0) 9 3 1 (-2) 4);
    try (change (2 ^ 27) with 134217728; lia).
  - unfold geom_ok; simpl; lia.
  - reflexivity.
  - vm_compute; lia.
Defined.

(** C5 as stated fails: not every pair of [int] endpoints is rasterized as
    the clipped segment.  On an 80 x 24 terminal, for the segment from
    (0, 0) to (2^30 + 5, 1), whose first [e2] overflows, the loop run with
    32-bit wrap-around hands (0, 0), (0, 1), (1, 2), (1, 3) to [fb_set] in
    its first four iterations: (1, 2) is on the screen and gets marked, but
    it is no sub-pixel of the segment, which stays within rows 0 and 1. *)
Lemma draw_line_overflow_marks_off_segment :
  let g := mk_geom 80 24 in
  let x1 := 2 ^ 30 + 5 in
  int_ok (2 * (Z.abs (x1 - 0) + - Z.abs (1 - 0))) = false /\
  line_points32 4 0 0 x1 1 = ([(0, 0); (0, 1); (1, 2); (1, 3)], false) /\
  in_bounds g (1, 2) = true /\
  (exists pts, line_points (line_fuel 0 0 x1 1) 0 0 x1 1 = Some pts /\
               Forall (fun p => 0 <= snd p <= 1) pts).
Proof.
  cbv zeta. split; [reflexivity|]. split; [vm_compute; reflexivity|].
  split; [reflexivity|].
  destruct (line_points_total (line_fuel 0 0 (2 ^ 30 + 5) 1) 0 0 (2 ^ 30 + 5) 1
              (Nat.le_refl _)) as (pts & Hp & _ & _ & Hbox & _).
  exists pts. split; [exact Hp|].
  eapply Forall_impl; [exact Hbox|]. cbv beta. intros p [_ H].
  change (Z.min 0 1) with 0 in H. change (Z.max 0 1) with 1 in H. exact H.
Qed.

(** ** Counting occupied sub-pixels *)

Lemma elem_of_all_dots g p : p ∈ all_dots g <-> in_bounds g p = true.
Proof.
  unfold all_dots. rewrite list_elem_of_bind, in_bounds_true. split.
  - intros (y & Hp & Hy). apply list_elem_of_fmap in Hp. destruct Hp as (x & -> & Hx).
    apply elem_of_seqZ in Hx, Hy. simpl. lia.
  - intros [Hx Hy]. exists (snd p). split; [|apply elem_of_seqZ; lia].
    apply list_elem_of_fmap. exists (fst p).
    split; [now destruct p | apply elem_of_seqZ; lia].
Qed.

Lemma NoDup_all_dots g : NoDup (all_dots g).
Proof.
  unfold all_dots. apply NoDup_bind; [| |apply NoDup_seqZ].
  - intros y1 y2 p _ _ H1 H2.
    apply list_elem_of_fmap in H1, H2.
    destruct H1 as (a & -> & _), H2 as (b & [= _ ->] & _). reflexivity.
  - intros y _. apply NoDup_fmap; [|apply NoDup_seqZ].
    intros a b [= ->]. reflexivity.
Qed.

(** If the occupied on-screen sub-pixels are exactly those of a
    duplicate-free list of on-screen points, their number is its length. *)
Lemma count_dots_eq g fb (pts : list (Z * Z)) :
  NoDup pts ->
  (forall p, p ∈ pts -> in_bounds g p = true) ->
  (forall x y, out_of_bounds g x y = false ->
               dot g fb x y = existsb (point_eqb (x, y)) pts) ->
  count_dots g fb = length pts.
Proof.
  intros Hnd Hin Hdot. unfold count_dots.
  apply Permutation_length, NoDup_Permutation;
    [apply NoDup_filter, NoDup_all_dots | exact Hnd |].
  intros [x y]. rewrite list_elem_of_filter, elem_of_all_dots. simpl. split.
  - intros [Hd Hb]. apply negb_true_iff in Hb. simpl in Hb.
    rewrite (Hdot x y Hb) in Hd. apply Is_true_true, existsb_exists in Hd.
    destruct Hd as (q & Hq & He). apply point_eqb_eq in He. subst q.
    now apply list_elem_of_In.
  - intros Hp. pose proof (Hin _ Hp) as Hb. split; [|exact Hb].
    apply negb_true_iff in Hb. simpl in Hb. rewrite (Hdot x y Hb).
    apply Is_true_true, existsb_exists. exists (x, y).
    split; [now apply list_elem_of_In | now apply point_eqb_eq].
Qed.

Lemma fb_clear_sized g fb :
  geom_ok g -> fb_sized g fb ->
  fb_clear g fb = replicate (Z.to_nat (cw g * ch g)) 0.
Proof.
  intros _ Hsz. unfold fb_clear, memset. unfold fb_sized in Hsz.
  rewrite drop_ge by lia. apply app_nil_r.
Qed.


Lemma dot_clear g x y :
  geom_ok g -> out_of_bounds g x y = false ->
  dot g (replicate (Z.to_nat (cw g * ch g)) 0) x y = false.
Proof.
  intros Hg Hb. pose proof (cell_index_range g x y Hg Hb).
  unfold dot. rewrite lookup_total_replicate_2 by lia. reflexivity.
Qed.

(** ** Traces of particular segments *)






Lemma dot_mask_pos x y : 0 < dot_mask x y.
Proof. rewrite dot_mask_pow2. apply Z.pow_pos_nonneg; [lia | apply mask_bit_range]. Qed.

Lemma cell_union_nonneg g i pts :
  forall b, 0 <= b -> 0 <= cell_union g i pts b.
Proof.
  induction pts as [|p pts IH]; intros b Hb; [exact Hb|].
  unfold cell_union. simpl. apply IH.
  destruct (in_bounds g p && _); [|exact Hb].
  apply Z.lor_nonneg. pose proof (dot_mask_pos (fst p) (snd p)). lia.
Qed.

Lemma cell_union_cons g i p pts b :
  cell_union g i (p :: pts) b =
    cell_union g i pts
      (if in_bounds g p && (cell_index g (fst p) (snd p) =? i)
       then Z.lor b (dot_mask (fst p) (snd p)) else b).
Proof. reflexivity. Qed.






(** A segment whose bounding box misses the screen is fully outside. *)
Lemma segment_outside_box g fuel x0 y0 x1 y1 pts :
  line_points fuel x0 y0 x1 y1 = Some pts ->
  (line_fuel x0 y0 x1 y1 <= fuel)%nat ->
  Z.max x0 x1 < 0 \/ pw g <= Z.min x0 x1 \/ Z.max y0 y1 < 0 \/ ph g <= Z.min y0 y1 ->
  Forall (fun p => in_bounds g p = false) pts.
Proof.
  intros Hp Hfuel Hbox.
  destruct (line_points_total fuel x0 y0 x1 y1 Hfuel) as (pts' & Hp' & _ & _ & Hin & _).
  rewrite Hp in Hp'. injection Hp' as <-.
  eapply Forall_impl; [exact Hin|]. simpl. intros [x y] Hxy. simpl in Hxy.
  unfold in_bounds, out_of_bounds. simpl. lia.
Qed.

(** ** Several segments *)

Lemma set_points_app g pts1 pts2 :
  forall fb, set_points g fb (pts1 ++ pts2) =
             (set_points g fb pts1 ≫= fun fb' => set_points g fb' pts2).
Proof.
  induction pts1 as [|[x y] pts1 IH]; intros fb; [reflexivity|]. simpl.
  destruct (fb_set g fb x y); simpl; auto.
Qed.

Lemma draw_lines_trace g segs :
  forall fb, draw_lines g fb segs = set_points g fb (segs_points segs).
Proof.
  induction segs as [|[[x0 y0] [x1 y1]] segs IH]; intros fb; [reflexivity|].
  unfold segs_points. rewrite bind_cons. fold (segs_points segs).
  rewrite set_points_app. simpl.
  destruct (line_points_total (line_fuel x0 y0 x1 y1) x0 y0 x1 y1 (Nat.le_refl _))
    as (pts & Hp & _).
  rewrite Hp, (draw_line_trace _ g fb _ _ _ _ _ Hp). simpl.
  destruct (set_points g fb pts); simpl; auto.
Qed.

Lemma land_lor_absorb a b m : Z.land a b = a -> Z.land a (Z.lor b m) = a.
Proof.
  intros H. apply Z.bits_inj'. intros n Hn.
  assert (Hb : Z.testbit (Z.land a b) n = Z.testbit a n) by now rewrite H.
  rewrite Z.land_spec in Hb. rewrite Z.land_spec, Z.lor_spec.
  destruct (Z.testbit a n), (Z.testbit b n); simpl in *; auto; discriminate.
Qed.

Lemma cell_union_absorb g i pts :
  forall a b, Z.land a b = a -> Z.land a (cell_union g i pts b) = a.
Proof.
  induction pts as [|p pts IH]; intros a b H; [exact H|].
  unfold cell_union. simpl. apply IH.
  destruct (in_bounds g p && _); [now apply land_lor_absorb | exact H].
Qed.

Lemma cell_union_testbit g i n pts :
  0 <= n ->
  forall b,
    Z.testbit (cell_union g i pts b) n = Z.testbit b n || existsb (hits g i n) pts.
Proof.
  intros Hn. induction pts as [|p pts IH]; intros b.
  - simpl. now rewrite orb_false_r.
  - rewrite cell_union_cons, IH. cbn [existsb]. unfold hits at 2.
    destruct (in_bounds g p && (cell_index g (fst p) (snd p) =? i)); cbn [andb].
    + rewrite Z.lor_spec, dot_mask_pow2, Z.pow2_bits_eqb by apply mask_bit_range.
      now rewrite orb_assoc.
    + reflexivity.
Qed.

(** On the screen [fb_set] replaces the byte of the cell by its bitwise OR
    with the single bit of the sub-pixel. *)
Lemma fb_set_one_bit g fb x y :
  geom_ok g -> fb_sized g fb -> Forall is_byte fb ->
  in_bounds g (x, y) = true ->
  fb_set g fb x y =
    Ok (<[Z.to_nat (cell_index g x y) :=
           Z.lor (fb !!! Z.to_nat (cell_index g x y)) (2 ^ mask_bit x y)]> fb).
Proof.
  intros Hg Hsz Hby Hin. apply negb_true_iff in Hin. cbn [fst snd] in Hin.
  pose proof (cell_index_range g x y Hg Hin) as Hr.
  unfold fb_set. rewrite Hin. unfold store. unfold fb_sized in Hsz.
  replace ((0 <=? cell_index g x y) && (cell_index g x y <? Z.of_nat (length fb)))
    with true by (symmetry; apply andb_true_iff; lia).
  do 2 f_equal. rewrite <- dot_mask_pow2.
  apply lor_byte; [|apply dot_mask_byte].
  rewrite Forall_lookup in Hby. apply (Hby (Z.to_nat (cell_index g x y))).
  apply list_lookup_lookup_total_lt. lia.
Qed.

Lemma segs_in_int segs :
  Forall (fun s : Z * Z * (Z * Z) =>
            (- 2 ^ 27 <= s.1.1 <= 2 ^ 27 /\ - 2 ^ 27 <= s.1.2 <= 2 ^ 27) /\
            (- 2 ^ 27 <= s.2.1 <= 2 ^ 27 /\ - 2 ^ 27 <= s.2.2 <= 2 ^ 27)) segs ->
  Forall (fun s : Z * Z * (Z * Z) =>
            line_in_int (line_fuel s.1.1 s.1.2 s.2.1 s.2.2)
                        s.1.1 s.1.2 s.2.1 s.2.2 = true /\
            exists pts,
              line_points (line_fuel s.1.1 s.1.2 s.2.1 s.2.2)
                          s.1.1 s.1.2 s.2.1 s.2.2 = Some pts /\
              line_points32 (line_fuel s.1.1 s.1.2 s.2.1 s.2.2)
                            s.1.1 s.1.2 s.2.1 s.2.2 = (pts, true)) segs.
Proof.
  intros H. eapply Forall_impl; [exact H|]. cbv beta.
  intros [[x0 y0] [x1 y1]]. cbn [fst snd]. intros [[Hx0 Hy0] [Hx1 Hy1]].
  destruct (line_run_in_range _ x0 y0 x1 y1 Hx0 Hy0 Hx1 Hy1 (Nat.le_refl _))
    as (pts & Hp & Hint & H32).
  split; [exact Hint|]. now exists pts.
Qed.

(** C10: [fb_set] only ORs one bit into a byte, the bit [mask_bit x y] of
    the byte of the cell.  So drawing segments (with endpoints of at most
    27 bits in magnitude, for which the rasterizer stays within [int])
    never clears an occupied sub-pixel: every byte keeps all its bits, and
    a bit is set afterwards iff it was set before or is the bit of an
    on-screen sub-pixel of one of the segments.  Starting from a cleared
    framebuffer each cell's byte is exactly the union of the dots drawn into
    it. *)
Theorem raster_monotone_union g fb segs :
  geom_ok g -> fb_sized g fb -> Forall is_byte fb ->
  Forall (fun s : Z * Z * (Z * Z) =>
            (- 2 ^ 27 <= s.1.1 <= 2 ^ 27 /\ - 2 ^ 27 <= s.1.2 <= 2 ^ 27) /\
            (- 2 ^ 27 <= s.2.1 <= 2 ^ 27 /\ - 2 ^ 27 <= s.2.2 <= 2 ^ 27)) segs ->
  (forall x y, in_bounds g (x, y) = true ->
     0 <= mask_bit x y < 8 /\
     fb_set g fb x y =
       Ok (<[Z.to_nat (cell_index g x y) :=
              Z.lor (fb !!! Z.to_nat (cell_index g x y)) (2 ^ mask_bit x y)]> fb)) /\
  Forall (fun s : Z * Z * (Z * Z) =>
            line_in_int (line_fuel s.1.1 s.1.2 s.2.1 s.2.2)
                        s.1.1 s.1.2 s.2.1 s.2.2 = true /\
            exists pts,
              line_points (line_fuel s.1.1 s.1.2 s.2.1 s.2.2)
                          s.1.1 s.1.2 s.2.1 s.2.2 = Some pts /\
              line_points32 (line_fuel s.1.1 s.1.2 s.2.1 s.2.2)
                            s.1.1 s.1.2 s.2.1 s.2.2 = (pts, true)) segs /\
  (exists fb',
     draw_lines g fb segs = Ok fb' /\
     (forall x y, out_of_bounds g x y = false ->
                  dot g fb x y = true -> dot g fb' x y = true) /\
     (forall i : nat, (i < length fb)%nat ->
                  Z.land (fb !!! i) (fb' !!! i) = fb !!! i) /\
     (forall (i : nat) n, (i < length fb)%nat -> 0 <= n ->
        Z.testbit (fb' !!! i) n =
          Z.testbit (fb !!! i) n ||
          existsb (hits g (Z.of_nat i) n) (segs_points segs))) /\
  (exists fb',
     draw_lines g (fb_clear g fb) segs = Ok fb' /\
     (forall i : nat, (i < length fb)%nat ->
        fb' !!! i = cell_union g (Z.of_nat i) (segs_points segs) 0) /\
     (forall (i : nat) n, (i < length fb)%nat -> 0 <= n ->
        Z.testbit (fb' !!! i) n =
          existsb (hits g (Z.of_nat i) n) (segs_points segs))).
Proof.
  intros Hg Hsz Hby Hsegs. split; [|split; [|split]].
  - intros x y Hin. split; [apply mask_bit_range | now apply fb_set_one_bit].
  - now apply segs_in_int.
  - destruct (set_points_ok g (segs_points segs) Hg fb Hsz) as (fb' & Hset & _).
    destruct (set_points_bytes g _ Hg fb fb' Hsz Hby Hset) as [_ Hu].
    exists fb'. rewrite draw_lines_trace. split; [exact Hset|]. split; [|split].
    + intros x y Hb Hd.
      now rewrite (set_points_dot g _ Hg fb fb' x y Hsz Hset Hb), Hd.
    + intros i Hi. rewrite (Hu i Hi). apply cell_union_absorb, Z.land_diag.
    + intros i n Hi Hn. rewrite (Hu i Hi). now apply cell_union_testbit.
  - rewrite (fb_clear_sized g fb Hg Hsz).
    set (fb0 := replicate (Z.to_nat (cw g * ch g)) 0).
    assert (Hlen : length fb0 = length fb).
    { unfold fb0. rewrite length_replicate. unfold fb_sized in Hsz. lia. }
    assert (Hsz0 : fb_sized g fb0) by (unfold fb_sized in *; lia).
    assert (Hby0 : Forall is_byte fb0)
      by (apply Forall_replicate; unfold is_byte; lia).
    destruct (set_points_ok g (segs_points segs) Hg fb0 Hsz0) as (fb' & Hset & _).
    destruct (set_points_bytes g _ Hg fb0 fb' Hsz0 Hby0 Hset) as [_ Hu].
    assert (H0 : forall i : nat, (i < length fb)%nat -> fb0 !!! i = 0).
    { intros i Hi. unfold fb0. apply lookup_total_replicate_2.
      unfold fb_sized in Hsz. lia. }
    exists fb'. rewrite draw_lines_trace. split; [exact Hset|]. split.
    + intros i Hi. rewrite (Hu i) by lia. now rewrite (H0 i Hi).
    + intros i n Hi Hn. rewrite (Hu i) by lia. rewrite (H0 i Hi).
      rewrite cell_union_testbit by exact Hn. now rewrite Z.testbit_0_l.
Qed.

Lemma raster_monotone_union_witness :
  let g := mk_geom 4 2 in
  let fb := [0x41; 0; 3; 0; 0; 0x80; 0; 0] in
  let segs := [(0, 0, (7, 7)); (-3, 2, (9, 2)); (1, 6, (1, 0))] in
  (forall x y, in_bounds g (x, y) = true ->
     0 <= mask_bit x y < 8 /\
     fb_set g fb x y =
       Ok (<[Z.to_nat (cell_index g x y) :=
              Z.lor (fb !!! Z.to_nat (cell_index g x y)) (2 ^ mask_bit x y)]> fb)) /\
  Forall (fun s : Z * Z * (Z * Z) =>
            line_in_int (line_fuel s.1.1 s.1.2 s.2.1 s.2.2)
                        s.1.1 s.1.2 s.2.1 s.2.2 = true /\
            exists pts,
              line_points (line_fuel s.1.1 s.1.2 s.2.1 s.2.2)
                          s.1.1 s.1.2 s.2.1 s.2.2 = Some pts /\
              line_points32 (line_fuel s.1.1 s.1.2 s.2.1 s.2.2)
                            s.1.1 s.1.2 s.2.1 s.2.2 = (pts, true)) segs /\
  (exists fb',
     draw_lines g fb segs = Ok fb' /\
     (forall x y, out_of_bounds g x y = false ->
                  dot g fb x y = true -> dot g fb' x y = true) /\
     (forall i : nat, (i < length fb)%nat ->
                  Z.land (fb !!! i) (fb' !!! i) = fb !!! i) /\
     (forall (i : nat) n, (i < length fb)%nat -> 0 <= n ->
        Z.testbit (fb' !!! i) n =
          Z.testbit (fb !!! i) n ||
          existsb (hits g (Z.of_nat i) n) (segs_points segs))) /\
  (exists fb',
     draw_lines g (fb_clear g fb) segs = Ok fb' /\
     (forall i : nat, (i < length fb)%nat ->
        fb' !!! i = cell_union g (Z.of_nat i) (segs_points segs) 0) /\
     (forall (i : nat) n, (i < length fb)%nat -> 0 <= n ->
        Z.testbit (fb' !!! i) n =
          existsb (hits g (Z.of_nat i) n) (segs_points segs))).
Proof.
  apply (raster_monotone_union (mk_geom 4 2) [0x41; 0; 3; 0; 0; 0x80; 0; 0]
           [(0, 0, (7, 7)); (-3, 2, (9, 2)); (1, 6, (1, 0))]).
  - unfold geom_ok; simpl; lia.
  - reflexivity.
  - repeat constructor; unfold is_byte; lia.
  - repeat constructor; cbn [fst snd]; change (2 ^ 27) with 134217728; lia.
Defined.

(** ** Serializer *)

Section Serializer.

(** The two buffers [render] reads. *)
Variables (g : geom) (fb fm : list Z).

Lemma render_cell_eq y p prev x :
  render_cell g fb fm y (p, prev) x =
    (p ++ (if negb (cell_mode g fb fm y x =? prev)
           then style_seq (cell_mode g fb fm y x) else [])
       ++ cell_glyph g fb y x,
     cell_mode g fb fm y x).
Proof.
  unfold render_cell, cell_mode, cell_glyph, put_str.
  set (m := if negb (fb !!! Z.to_nat (y * cw g + x) =? 0)
            then 3 else fm !!! Z.to_nat (y * cw g + x)).
  destruct (Z.eqb_spec m prev) as [-> | _]; simpl;
    destruct (negb (fb !!! Z.to_nat (y * cw g + x) =? 0));
    now rewrite <- ?app_assoc.
Qed.

Lemma seqZ_succ a (n : nat) :
  seqZ a (Z.of_nat (S n)) = a :: seqZ (a + 1) (Z.of_nat n).
Proof.
  rewrite seqZ_cons by lia. f_equal.
  replace (Z.succ a) with (a + 1) by lia.
  now replace (Z.pred (Z.of_nat (S n))) with (Z.of_nat n) by lia.
Qed.

(** The inner loop emits, cell by cell, what [cell_out] says. *)
Lemma foldl_render_cells y :
  (forall x, 0 <= x < cw g -> cell_mode g fb fm y x <> -1) ->
  forall (n : nat) a p prev,
    0 <= a -> a + Z.of_nat n <= cw g ->
    prev = (if a =? 0 then -1 else cell_mode g fb fm y (a - 1)) ->
    exists prev',
      foldl (render_cell g fb fm y) (p, prev) (seqZ a (Z.of_nat n)) =
        (p ++ concat (cell_out g fb fm y <$> seqZ a (Z.of_nat n)), prev').
Proof.
  intros Hm. induction n as [|n IH]; intros a p prev Ha Hn Hprev.
  - exists prev. simpl. now rewrite app_nil_r.
  - rewrite seqZ_succ. cbn [foldl fmap list_fmap concat].
    rewrite render_cell_eq.
    destruct (IH (a + 1)
                (p ++ (if negb (cell_mode g fb fm y a =? prev)
                       then style_seq (cell_mode g fb fm y a) else [])
                   ++ cell_glyph g fb y a)
                (cell_mode g fb fm y a)) as (prev' & ->); try lia.
    { replace (a + 1 =? 0) with false by (symmetry; apply Z.eqb_neq; lia).
      now replace (a + 1 - 1) with a by lia. }
    exists prev'. f_equal. rewrite <- !app_assoc. f_equal.
    unfold cell_out at 2. rewrite <- app_assoc. f_equal.
    unfold style_change. subst prev.
    destruct (Z.eqb_spec a 0) as [-> | Hnz]; [|reflexivity].
    simpl. specialize (Hm 0 ltac:(lia)).
    now replace (cell_mode g fb fm y 0 =? -1) with false
      by (symmetry; apply Z.eqb_neq; exact Hm).
Qed.

Lemma render_row_eq p prev y :
  (forall x, 0 <= x < cw g -> cell_mode g fb fm y x <> -1) ->
  0 <= cw g -> prev = -1 ->
  render_row g fb fm (p, prev) y = (p ++ row_out g fb fm y, -1).
Proof.
  intros Hm Hcw ->. unfold render_row, row_out, put_str.
  destruct (foldl_render_cells y Hm (Z.to_nat (cw g)) 0 p (-1))
    as (prev' & H); try lia; [reflexivity|].
  rewrite Z2Nat.id in H by lia. rewrite H.
  f_equal. destruct (y <? ch g - 1); rewrite <- ?app_assoc; [reflexivity|].
  now rewrite app_nil_r.
Qed.

Lemma foldl_render_rows :
  (forall y x, 0 <= y < ch g -> 0 <= x < cw g -> cell_mode g fb fm y x <> -1) ->
  0 <= cw g ->
  forall (n : nat) a p,
    0 <= a -> a + Z.of_nat n <= ch g ->
    foldl (render_row g fb fm) (p, -1) (seqZ a (Z.of_nat n)) =
      (p ++ concat (row_out g fb fm <$> seqZ a (Z.of_nat n)), -1).
Proof.
  intros Hm Hcw. induction n as [|n IH]; intros a p Ha Hn.
  - simpl. now rewrite app_nil_r.
  - rewrite seqZ_succ. cbn [foldl fmap list_fmap concat].
    rewrite render_row_eq; [|intros x Hx; apply Hm; lia | exact Hcw | reflexivity].
    rewrite IH by lia. now rewrite <- app_assoc.
Qed.

Lemma cell_mode_byte y x :
  geom_ok g -> fb_sized g fm -> Forall is_byte fm ->
  0 <= y < ch g -> 0 <= x < cw g ->
  0 <= cell_mode g fb fm y x < 256.
Proof.
  intros (Hcw & Hch & _) Hsz Hby Hy Hx. unfold cell_mode.
  destruct (negb _); [lia|].
  rewrite Forall_lookup_total in Hby. apply Hby.
  unfold fb_sized in Hsz. nia.
Qed.

(** The outer loop: the frame is the cursor-home sequence and the rows. *)
Lemma render_rows :
  geom_ok g -> fb_sized g fm -> Forall is_byte fm ->
  render g fb fm = (ESC :: str "[H") ++ concat (row_out g fb fm <$> seqZ 0 (ch g)).
Proof.
  intros Hg Hsm Hby. pose proof Hg as (Hcw & Hch & _).
  unfold render, put_str.
  pose proof foldl_render_rows as H.
  specialize (H ltac:(intros y x Hy Hx;
                      pose proof (cell_mode_byte y x Hg Hsm Hby Hy Hx); lia)
                ltac:(lia) (Z.to_nat (ch g)) 0 ([] ++ ESC :: str "[H")
                ltac:(lia) ltac:(lia)).
  rewrite Z2Nat.id in H by lia. rewrite H. reflexivity.
Qed.

Lemma length_style_seq m : (length (style_seq m) <= 11)%nat.
Proof.
  destruct m as [|p|p]; [| destruct p as [q|q|]; [destruct q | destruct q |] |];
    cbv; lia.
Qed.

Lemma length_cell_out y x : (length (cell_out g fb fm y x) <= 14)%nat.
Proof.
  unfold cell_out, cell_glyph. rewrite length_app.
  pose proof (length_style_seq (cell_mode g fb fm y x)).
  destruct (style_change g fb fm y x), (negb _); simpl; lia.
Qed.

Lemma length_concat_le {A B} (f : A -> list B) (k : nat) (l : list A) :
  (forall x, (length (f x) <= k)%nat) ->
  (length (concat (f <$> l)) <= k * length l)%nat.
Proof.
  intros H. induction l as [|a l IH]; [simpl; lia|].
  rewrite fmap_cons. cbn [concat]. rewrite length_app. cbn [length].
  specialize (H a). lia.
Qed.

Lemma length_row_out y :
  0 <= cw g -> (length (row_out g fb fm y) <= 14 * Z.to_nat (cw g) + 5)%nat.
Proof.
  intros Hcw. unfold row_out. rewrite !length_app.
  pose proof (length_concat_le (cell_out g fb fm y) 14 (seqZ 0 (cw g))
                (length_cell_out y)) as H.
  rewrite length_seqZ in H.
  assert (length (ESC :: str "[0m") = 4%nat) by reflexivity.
  destruct (y <? ch g - 1); simpl length in *; lia.
Qed.

(** A frame takes at most 14 bytes per cell (a style sequence of up to 11
    and a glyph of up to 3), 5 per row and 3 for the cursor-home sequence. *)
Lemma render_length_le :
  geom_ok g -> fb_sized g fm -> Forall is_byte fm ->
  Z.of_nat (length (render g fb fm)) <= 3 + ch g * (14 * cw g + 5).
Proof.
  intros Hg Hsm Hby. rewrite render_rows by assumption.
  pose proof Hg as (Hcw & Hch & _).
  rewrite length_app.
  pose proof (length_concat_le (row_out g fb fm) (14 * Z.to_nat (cw g) + 5)
                (seqZ 0 (ch g)) (fun y => length_row_out y ltac:(lia))) as H.
  rewrite length_seqZ in H.
  assert (length (ESC :: str "[H") = 3%nat) by reflexivity.
  nia.
Qed.

End Serializer.

Lemma filter_none {A} (P : A -> Prop) `{!forall x, Decision (P x)} (l : list A) :
  (forall x, x ∈ l -> ~ P x) -> filter P l = [].
Proof.
  induction l as [|a l IH]; intros Hall; [reflexivity|].
  rewrite filter_cons. destruct (decide (P a)) as [Hp | _].
  - exfalso. apply (Hall a); [left | exact Hp].
  - apply IH. intros x Hx. apply Hall. now right.
Qed.

Lemma concat_replicate_singleton {A} (n : nat) (a : A) :
  concat (replicate n [a]) = replicate n a.
Proof. induction n as [|n IH]; [reflexivity|]. simpl. now rewrite IH. Qed.

(** With no dot and an all-sky floor every cell has style 0. *)
Lemma cell_mode_sky g fb fm y x :
  geom_ok g -> fb_sized g fb -> fb_sized g fm ->
  Forall (eq 0) fb -> Forall (eq 0) fm ->
  0 <= y < ch g -> 0 <= x < cw g ->
  cell_mode g fb fm y x = 0 /\ cell_glyph g fb y x = [32].
Proof.
  intros (Hcw & Hch & _) Hsb Hsm Hfb Hfm Hy Hx.
  unfold cell_mode, cell_glyph. unfold fb_sized in *.
  rewrite Forall_lookup_total in Hfb, Hfm.
  rewrite <- (Hfb (Z.to_nat (y * cw g + x))) by nia.
  rewrite <- (Hfm (Z.to_nat (y * cw g + x))) by nia.
  split; reflexivity.
Qed.

(** C8: the bytes written by [render] are the cursor-home sequence followed,
    row by row, by the cells of the row, a reset and (except after the last
    row) a newline; a cell is preceded by the control sequence of its style
    exactly when it is the first cell of its row or its style differs from
    the one of the cell before it in the same row ([style_change]).  With no
    occupied cell and an all-sky floor, each row is the initial reset, [cw]
    blanks and the closing reset: one style sequence, the initial one, is
    emitted for its cells and none after it. *)
Theorem render_run_length g fb fm :
  geom_ok g -> fb_sized g fb -> fb_sized g fm -> Forall is_byte fm ->
  render g fb fm = (ESC :: str "[H") ++ concat (row_out g fb fm <$> seqZ 0 (ch g)) /\
  (forall y x, 0 <= y < ch g -> 0 <= x < cw g ->
     cell_out g fb fm y x =
       (if (x =? 0) || negb (cell_mode g fb fm y x =? cell_mode g fb fm y (x - 1))
        then style_seq (cell_mode g fb fm y x) else [])
       ++ cell_glyph g fb y x) /\
  (Forall (eq 0) fb -> Forall (eq 0) fm ->
   forall y, 0 <= y < ch g ->
     row_style_changes g fb fm y = 1%nat /\
     (forall x, 0 <= x < cw g -> style_change g fb fm y x = (x =? 0)) /\
     row_out g fb fm y =
       (ESC :: str "[0m") ++ replicate (Z.to_nat (cw g)) 32 ++ (ESC :: str "[0m")
       ++ (if y <? ch g - 1 then [10] else [])).
Proof.
  intros Hg Hsb Hsm Hby.
  assert (Hcw : 0 < cw g) by apply Hg. assert (Hch : 0 < ch g) by apply Hg.
  split; [|split].
  - now apply render_rows.
  - intros y x _ _. reflexivity.
  - intros Hfb Hfm y Hy.
    assert (Hmode : forall x, 0 <= x < cw g ->
              cell_mode g fb fm y x = 0 /\ cell_glyph g fb y x = [32])
      by (intros x Hx; now apply cell_mode_sky).
    assert (Hsc : forall x, 0 <= x < cw g -> style_change g fb fm y x = (x =? 0)).
    { intros x Hx. unfold style_change.
      destruct (Z.eqb_spec x 0) as [-> | Hnz]; [reflexivity|].
      destruct (Hmode x Hx) as [-> _].
      now destruct (Hmode (x - 1) ltac:(lia)) as [-> _]. }
    split; [|split; [exact Hsc|]].
    + unfold row_style_changes. rewrite (seqZ_cons 0) by lia.
      rewrite filter_cons, decide_True by (rewrite Hsc by lia; exact I).
      rewrite filter_none; [reflexivity|].
      intros x Hx. apply elem_of_seqZ in Hx. rewrite Hsc by lia.
      replace (x =? 0) with false by (symmetry; apply Z.eqb_neq; lia). auto.
    + assert (Hc : concat (cell_out g fb fm y <$> seqZ 0 (cw g)) =
                   (ESC :: str "[0m") ++ replicate (Z.to_nat (cw g)) 32).
      { rewrite (seqZ_cons 0) by lia. rewrite fmap_cons. cbn [concat].
        unfold cell_out at 1. rewrite Hsc by lia.
        destruct (Hmode 0 ltac:(lia)) as [-> ->]. cbn [Z.eqb style_seq].
        rewrite (const_fmap _ _ [32]).
        - rewrite concat_replicate_singleton, length_seqZ, <- app_assoc. f_equal.
          now replace (Z.to_nat (cw g)) with (S (Z.to_nat (Z.pred (cw g)))) by lia.
        - intros i x Hx. apply lookup_seqZ in Hx. unfold cell_out.
          rewrite Hsc by lia. destruct (Hmode x ltac:(lia)) as [_ ->].
          now replace (x =? 0) with false by (symmetry; apply Z.eqb_neq; lia). }
      unfold row_out. rewrite Hc. now rewrite <- app_assoc.
Qed.

Lemma render_run_length_witness :
  let g := mk_geom 3 2 in
  let fb := [0; 0x41; 0; 0; 0; 0x80] in
  let fm := [0; 0; 0; 1; 1; 2] in
  render g fb fm = (ESC :: str "[H") ++ concat (row_out g fb fm <$> seqZ 0 (ch g)) /\
  (forall y x, 0 <= y < ch g -> 0 <= x < cw g ->
     cell_out g fb fm y x =
       (if (x =? 0) || negb (cell_mode g fb fm y x =? cell_mode g fb fm y (x - 1))
        then style_seq (cell_mode g fb fm y x) else [])
       ++ cell_glyph g fb y x) /\
  (Forall (eq 0) fb -> Forall (eq 0) fm ->
   forall y, 0 <= y < ch g ->
     row_style_changes g fb fm y = 1%nat /\
     (forall x, 0 <= x < cw g -> style_change g fb fm y x = (x =? 0)) /\
     row_out g fb fm y =
       (ESC :: str "[0m") ++ replicate (Z.to_nat (cw g)) 32 ++ (ESC :: str "[0m")
       ++ (if y <? ch g - 1 then [10] else [])).
Proof.
  apply (render_run_length (mk_geom 3 2) [0; 0x41; 0; 0; 0; 0x80] [0; 0; 0; 1; 1; 2]).
  - unfold geom_ok; simpl; lia.
  - reflexivity.
  - reflexivity.
  - repeat constructor; unfold is_byte; lia.
Defined.

(** The all-sky frame of a 3 x 2 screen, byte for byte. *)
Example render_all_sky_3x2 :
  render (mk_geom 3 2) (replicate 6 0) (replicate 6 0) =
    [27; 91; 72;
     27; 91; 48; 109; 32; 32; 32; 27; 91; 48; 109; 10;
     27; 91; 48; 109; 32; 32; 32; 27; 91; 48; 109].
Proof. reflexivity. Qed.

(* ------------------------------------------------------------------ *)
(** ** Floating point: digits, shifts and rounding                     *)
(* ------------------------------------------------------------------ *)

Lemma digits2_pos_bounds p :
  2 ^ (Z.pos (digits2_pos p) - 1) <= Z.pos p < 2 ^ Z.pos (digits2_pos p).
Proof.
  induction p as [p IH | p IH |]; simpl digits2_pos.
  - rewrite Pos2Z.inj_succ.
    replace (Z.succ (Z.pos (digits2_pos p)) - 1) with (Z.succ (Z.pos (digits2_pos p) - 1)) by lia.
    rewrite !Z.pow_succ_r by lia. lia.
  - rewrite Pos2Z.inj_succ.
    replace (Z.succ (Z.pos (digits2_pos p)) - 1) with (Z.succ (Z.pos (digits2_pos p) - 1)) by lia.
    rewrite !Z.pow_succ_r by lia. lia.
  - simpl. lia.
Qed.

Lemma Zdigits2_bounds m :
  0 < m -> 2 ^ (Zdigits2 m - 1) <= m < 2 ^ Zdigits2 m.
Proof. destruct m as [|p|p]; try lia. intros _. apply digits2_pos_bounds. Qed.

Lemma Zdigits2_pos m : 0 < m -> 0 < Zdigits2 m.
Proof. destruct m; simpl; lia. Qed.

Lemma Zdigits2_le m k : 0 < m -> m < 2 ^ k -> Zdigits2 m <= k.
Proof.
  intros Hm Hk. pose proof (Zdigits2_bounds m Hm) as [Hlo _].
  destruct (Z_le_gt_dec (Zdigits2 m) k) as [|Hgt]; [assumption|].
  exfalso. assert (2 ^ k <= 2 ^ (Zdigits2 m - 1)); [|lia].
  apply Z.pow_le_mono_r; [lia|]. lia.
Qed.

Lemma Zdigits2_ge m k : 0 < m -> 2 ^ (k - 1) <= m -> k <= Zdigits2 m.
Proof.
  intros Hm Hk. pose proof (Zdigits2_bounds m Hm) as [_ Hhi].
  pose proof (Zdigits2_pos m Hm).
  destruct (Z_le_gt_dec k (Zdigits2 m)) as [|Hgt]; [assumption|].
  exfalso. assert (2 ^ Zdigits2 m <= 2 ^ (k - 1)); [|lia].
  apply Z.pow_le_mono_r; lia.
Qed.

Lemma iter_pos_nat {A} (f : A -> A) p x :
  SpecFloat.iter_pos f p x = Nat.iter (Pos.to_nat p) f x.
Proof.
  revert x. induction p as [p IH | p IH |]; intros x; cbn [SpecFloat.iter_pos].
  - rewrite !IH, Pos2Nat.inj_xI.
    replace (S (2 * Pos.to_nat p)) with (Pos.to_nat p + (Pos.to_nat p + 1))%nat by lia.
    now rewrite !Nat.iter_add.
  - rewrite !IH, Pos2Nat.inj_xO.
    replace (2 * Pos.to_nat p)%nat with (Pos.to_nat p + Pos.to_nat p)%nat by lia.
    now rewrite Nat.iter_add.
  - reflexivity.
Qed.
Lemma shr_1_m mrs : 0 <= shr_m mrs -> shr_m (shr_1 mrs) = shr_m mrs / 2.
Proof.
  destruct mrs as [m r s]. cbn [shr_m]. intros Hm.
  destruct m as [|[p|p|]|p]; cbn [shr_1 shr_m]; try lia.
  - reflexivity.
  - apply Z.div_unique with 1; lia.
  - apply Z.div_unique with 0; lia.
  - reflexivity.
Qed.

Lemma shr_iter_m (n : nat) mrs :
  0 <= shr_m mrs ->
  shr_m (Nat.iter n shr_1 mrs) = shr_m mrs / 2 ^ Z.of_nat n.
Proof.
  intros Hm. induction n as [|n IH].
  - simpl. now rewrite Z.div_1_r.
  - rewrite Nat2Z.inj_succ, Z.pow_succ_r by lia. rewrite Nat.iter_succ.
    rewrite shr_1_m; rewrite IH.
    + rewrite Z.div_div by lia. f_equal. lia.
    + apply Z.div_pos; lia.
Qed.

(** The mantissa after [shr]: the quotient by the power of two. *)
Lemma shr_m_shr mrs e n :
  0 <= shr_m mrs -> 0 <= n ->
  shr mrs e n = (fst (shr mrs e n), e + n) /\
  shr_m (fst (shr mrs e n)) = shr_m mrs / 2 ^ n.
Proof.
  intros Hm Hn. unfold shr. destruct n as [|p|p]; try lia; simpl.
  - rewrite Z.add_0_r, Z.div_1_r. auto.
  - split; [reflexivity|].
    rewrite iter_pos_nat, shr_iter_m by assumption. now rewrite positive_nat_Z.
Qed.

Lemma shr_m_record_of_loc m l : shr_m (shr_record_of_loc m l) = m.
Proof. destruct l as [|[| |]]; reflexivity. Qed.

Lemma round_nearest_even_bounds m l :
  m <= round_nearest_even m l <= m + 1.
Proof.
  unfold round_nearest_even. destruct l as [|[| |]]; try lia.
  destruct (Z.even m); lia.
Qed.

Lemma shr_nonpos mrs e n : n <= 0 -> shr mrs e n = (mrs, e).
Proof. destruct n; try reflexivity. lia. Qed.

Lemma fexp_eq e : fexp prec emax e = Z.max (e - 24) (-149).
Proof. reflexivity. Qed.

(** What [binary_round_aux] returns on a positive mantissa whose exponent
    is not above the canonical one: the mantissa is shifted down to the
    canonical exponent, then rounded up by at most one unit; if that gives
    [2 ^ 24] the exponent is bumped. *)
Lemma binary_round_aux_spec sx mx ex lx :
  0 < mx -> ex <= fexp prec emax (Zdigits2 mx + ex) ->
  let e1 := fexp prec emax (Zdigits2 mx + ex) in
  let m1 := mx / 2 ^ (e1 - ex) in
  exists m2,
    m1 <= m2 <= m1 + 1 /\ 0 <= m1 /\ m2 <= 2 ^ 24 /\
    binary_round_aux prec emax sx mx ex lx =
      if m2 =? 2 ^ 24 then pack sx (2 ^ 23) (e1 + 1) else pack sx m2 e1.
Proof.
  intros Hm He e1 m1.
  assert (He1 : -149 <= e1) by (unfold e1; rewrite fexp_eq; lia).
  assert (Hd : Zdigits2 mx + ex - 24 <= e1) by (unfold e1; rewrite fexp_eq; lia).
  assert (Hm1 : 0 <= m1 < 2 ^ 24).
  { unfold m1. split; [apply Z.div_pos; [lia | apply Z.pow_pos_nonneg; lia]|].
    apply Z.div_lt_upper_bound; [apply Z.pow_pos_nonneg; lia|].
    rewrite <- Z.pow_add_r by lia.
    pose proof (Zdigits2_bounds mx Hm) as [_ Hhi].
    eapply Z.lt_le_trans; [exact Hhi|]. apply Z.pow_le_mono_r; lia. }
  unfold binary_round_aux, shr_fexp. fold e1.
  destruct (shr_m_shr (shr_record_of_loc mx lx) ex (e1 - ex)) as [Hs Hsm];
    [rewrite shr_m_record_of_loc; lia | lia |].
  rewrite shr_m_record_of_loc in Hsm. fold m1 in Hsm.
  rewrite Hs. replace (ex + (e1 - ex)) with e1 by lia.
  set (mrs' := fst (shr (shr_record_of_loc mx lx) ex (e1 - ex))) in *.
  set (m2 := round_nearest_even (shr_m mrs') (loc_of_shr_record mrs')).
  pose proof (round_nearest_even_bounds (shr_m mrs') (loc_of_shr_record mrs')) as Hr.
  fold m2 in Hr. rewrite Hsm in Hr.
  exists m2. split; [exact Hr|]. split; [lia|]. split; [lia|].
  destruct (Z.eqb_spec m2 (2 ^ 24)) as [E | NE].
  - rewrite E. change (Zdigits2 (2 ^ 24)) with 25. rewrite fexp_eq.
    replace (Z.max (25 + e1 - 24) (-149) - e1) with 1 by lia.
    cbn -[Z.add Z.leb Z.sub]. reflexivity.
  - assert (Hn : fexp prec emax (Zdigits2 m2 + e1) - e1 <= 0).
    { rewrite fexp_eq. destruct (Z.eq_dec m2 0) as [-> | Hnz]; [simpl; lia|].
      pose proof (Zdigits2_le m2 24 ltac:(lia) ltac:(lia)). lia. }
    rewrite shr_nonpos by exact Hn. cbn [shr_record_of_loc shr_m].
    unfold pack. destruct m2; reflexivity.
Qed.

(** ** Floating point: signs *)

Lemma fsign_binary_round_aux s m e l :
  fsign (binary_round_aux prec emax s m e l) = None \/
  fsign (binary_round_aux prec emax s m e l) = Some s.
Proof.
  unfold binary_round_aux.
  destruct (shr_fexp prec emax m e l) as [mrs' e'].
  destruct (shr_fexp prec emax _ e' loc_Exact) as [mrs'' e''].
  destruct (shr_m mrs''); [right; reflexivity | | left; reflexivity].
  destruct (e'' <=? emax - prec); right; reflexivity.
Qed.

Lemma fsign_fmul x y :
  fsign (fmul x y) = None \/
  exists a b, fsign x = Some a /\ fsign y = Some b /\
              fsign (fmul x y) = Some (xorb a b).
Proof.
  destruct x as [a | a | | a mx ex], y as [b | b | | b my ey];
    try (left; reflexivity); try (right; exists a, b; now repeat split).
  unfold fmul, SFmul.
  destruct (fsign_binary_round_aux (xorb a b) (Z.pos (mx * my)) (ex + ey) loc_Exact)
    as [H | H]; [now left | right; exists a, b; now repeat split].
Qed.

Lemma fsign_fdiv x y :
  fsign (fdiv x y) = None \/
  exists a b, fsign x = Some a /\ fsign y = Some b /\
              fsign (fdiv x y) = Some (xorb a b).
Proof.
  destruct x as [a | a | | a mx ex], y as [b | b | | b my ey];
    try (left; reflexivity); try (right; exists a, b; now repeat split).
  unfold fdiv, SFdiv.
  destruct (SFdiv_core_binary prec emax (Z.pos mx) ex (Z.pos my) ey) as [[mz ez] lz].
  destruct (fsign_binary_round_aux (xorb a b) mz ez lz)
    as [H | H]; [now left | right; exists a, b; now repeat split].
Qed.

Lemma fsign_fsqrt x : fsign x <> Some true -> fsign (fsqrt x) <> Some true.
Proof.
  destruct x as [[] | [] | | [] mx ex]; simpl; try congruence.
  intros _. unfold fsqrt, SFsqrt.
  destruct (SFsqrt_core_binary prec emax (Z.pos mx) ex) as [[mz ez] lz].
  destruct (fsign_binary_round_aux false mz ez lz) as [H | H]; rewrite H; congruence.
Qed.

Lemma fsign_of_int n : 0 <= n -> fsign (of_int n) <> Some true.
Proof.
  intros Hn. unfold of_int, binary_normalize.
  destruct n as [|p|p]; [simpl; congruence | | lia].
  unfold binary_round.
  destruct (shl_align p 0 _) as [mz ez].
  destruct (fsign_binary_round_aux false (Z.pos mz) ez loc_Exact) as [H | H];
    rewrite H; congruence.
Qed.

Lemma fsign_fabs x : fsign (fabs x) <> Some true.
Proof. destruct x; simpl; congruence. Qed.

Lemma fabs_id x : fsign x <> Some true -> fabs x = x.
Proof. destruct x as [[] | [] | | [] m e]; simpl; congruence. Qed.

(** The product of two floats that are not negative is not negative. *)
Lemma fsign_fmul_pos x y :
  fsign x <> Some true -> fsign y <> Some true -> fsign (fmul x y) <> Some true.
Proof.
  intros Hx Hy. destruct (fsign_fmul x y) as [H | (a & b & Ha & Hb & H)]; rewrite H.
  - congruence.
  - destruct a, b; simpl; congruence.
Qed.

Lemma fsign_fdiv_pos x y :
  fsign x <> Some true -> fsign y <> Some true -> fsign (fdiv x y) <> Some true.
Proof.
  intros Hx Hy. destruct (fsign_fdiv x y) as [H | (a & b & Ha & Hb & H)]; rewrite H.
  - congruence.
  - destruct a, b; simpl; congruence.
Qed.

(** [restart_vel] is a square root of a product of two floats of the same
    sign: it is never negative, whatever the geometry. *)
Lemma restart_vel_sign g : fsign (restart_vel (physics_init g)) <> Some true.
Proof.
  unfold physics_init. cbn [restart_vel].
  set (A := fmul (of_int 2) (fmul (of_int (horizon_of g * 4)) (lit 55 100))).
  apply fsign_fsqrt.
  destruct (fsign_fmul A (fdiv A (fmul (of_int 22) (of_int 22))))
    as [H | (a & b & Ha & Hb & H)]; rewrite H; [congruence|].
  destruct (fsign_fdiv A (fmul (of_int 22) (of_int 22)))
    as [H' | (a' & b' & Ha' & Hb' & H')]; [congruence|].
  rewrite Hb in H'. injection H' as ->.
  rewrite Ha in Ha'. injection Ha' as <-.
  assert (b' = false) by (vm_compute in Hb'; congruence). subst b'.
  destruct a; simpl; congruence.
Qed.

(** ** Floating point: the squash factor *)

Lemma lit_5_10 : lit 5 10 = S754_finite false 8388608 (-24).
Proof. vm_compute. reflexivity. Qed.

Lemma squash_decay_eq : squash_decay = S754_finite false 11744051 (-24).
Proof. vm_compute. reflexivity. Qed.

Lemma of_int_0 : of_int 0 = S754_zero false.
Proof. reflexivity. Qed.

Lemma fle_finite_pos m1 e1 m2 e2 :
  fle (S754_finite false m1 e1) (S754_finite false m2 e2) = true <->
  e1 < e2 \/ (e1 = e2 /\ Z.pos m1 <= Z.pos m2).
Proof.
  unfold fle, SFleb, SFcompare.
  destruct (Z.compare_spec e1 e2) as [-> | Hlt | Hgt].
  - rewrite Pos.compare_cont_spec. cbn [Pos.switch_Eq].
    destruct (Pos.compare_spec m1 m2) as [-> | H | H]; split; intros H'; try lia; auto.
    discriminate.
  - split; auto.
  - split; [discriminate | lia].
Qed.

(** [squash_ok], structurally: a zero, or a positive float below or at
    [2^23 * 2^-24] with a 24-bit mantissa. *)
Lemma squash_ok_inv x :
  squash_ok x <->
  match x with
  | S754_zero _ => True
  | S754_finite false m e =>
      Z.pos m < 2 ^ 24 /\ (e < -24 \/ (e = -24 /\ Z.pos m <= 2 ^ 23))
  | _ => False
  end.
Proof.
  unfold squash_ok. rewrite lit_5_10, of_int_0.
  destruct x as [s | [] | | [] m e];
    try (split; [intros (H1 & H2 & H3); try discriminate; auto | intros H; try tauto];
         repeat split; reflexivity).
  rewrite fle_finite_pos. cbn [fits_mantissa prec].
  change (Z.pos 8388608) with (2 ^ 23). split.
  - intros (_ & H & Hm). auto.
  - intros (Hm & H). repeat split; auto.
Qed.

Lemma pack_pos_small s m e :
  0 < m -> e <= 104 -> exists p, m = Z.pos p /\ pack s m e = S754_finite s p e.
Proof.
  intros Hm He. destruct m as [|p|p]; try lia. exists p. split; [reflexivity|].
  unfold pack. now replace (e <=? emax - prec) with true
    by (symmetry; apply Z.leb_le; unfold emax, prec; lia).
Qed.

(** A squash factor in range stays in range when multiplied by the decay
    constant: the product is rounded to a float that is still at most 0.5. *)
Lemma fmul_decay_ok x : squash_ok x -> squash_ok (fmul x squash_decay).
Proof.
  rewrite squash_decay_eq. intros Hx. apply squash_ok_inv in Hx.
  destruct x as [s | [] | | [] m e]; try contradiction.
  - apply squash_ok_inv. exact I.
  - destruct Hx as [Hm He]. unfold fmul, SFmul. cbn [xorb].
    set (M := Z.pos (m * 11744051)). set (E := e + -24).
    assert (HM : M = Z.pos m * 11744051) by reflexivity.
    assert (HMlo : 2 ^ 23 <= M) by (change (2 ^ 23) with 8388608; lia).
    assert (Hd24 : 24 <= Zdigits2 M) by (apply Zdigits2_ge; [lia | exact HMlo]).
    assert (Hd : Zdigits2 M + E - 24 <= -25).
    { destruct He as [He | [-> He]].
      - assert (Zdigits2 M <= 48); [|unfold E; lia].
        apply Zdigits2_le; [lia|]. change (2 ^ 24) with 16777216 in Hm.
        change (2 ^ 48) with 281474976710656. lia.
      - assert (Zdigits2 M <= 47); [|unfold E; lia].
        apply Zdigits2_le; [lia|]. change (2 ^ 23) with 8388608 in He.
        change (2 ^ 47) with 140737488355328. lia. }
    destruct (binary_round_aux_spec false M E loc_Exact) as (m2 & Hm2 & Hm1 & Hle & ->);
      [lia | rewrite fexp_eq; lia |].
    set (e1 := fexp prec emax (Zdigits2 M + E)) in *.
    assert (He1 : e1 <= -25) by (unfold e1; rewrite fexp_eq; lia).
    apply squash_ok_inv.
    destruct (Z.eqb_spec m2 (2 ^ 24)) as [_ | Hne].
    + destruct (pack_pos_small false (2 ^ 23) (e1 + 1)) as (p & Hp & ->); [reflexivity | lia |].
      rewrite <- Hp. change (2 ^ 23) with 8388608. change (2 ^ 24) with 16777216. lia.
    + destruct (Z.eq_dec m2 0) as [-> | Hnz]; [exact I|].
      destruct (pack_pos_small false m2 e1) as (p & Hp & ->); [lia | lia |].
      rewrite <- Hp. lia.
Qed.

(** A product with a constant whose mantissa has all 24 bits has a 24-bit
    mantissa. *)
Lemma fmul_const_fits x s mc ec :
  2 ^ 23 <= Z.pos mc -> fits_mantissa (fmul x (S754_finite s mc ec)).
Proof.
  intros Hc. destruct x as [a | a | | a m e]; try exact I.
  unfold fmul, SFmul.
  set (M := Z.pos (m * mc)). set (E := e + ec).
  assert (HMlo : 2 ^ 23 <= M) by (unfold M; rewrite Pos2Z.inj_mul; nia).
  assert (Hd24 : 24 <= Zdigits2 M) by (apply Zdigits2_ge; [lia | exact HMlo]).
  destruct (binary_round_aux_spec (xorb a s) M E loc_Exact) as (m2 & Hm2 & Hm1 & Hle & ->);
    [lia | rewrite fexp_eq; lia |].
  destruct (Z.eqb_spec m2 (2 ^ 24)) as [_ | Hne].
  - unfold pack. change (2 ^ 23) with (Z.pos 8388608). cbv iota.
    destruct (_ <=? _); [|exact I]. cbn [fits_mantissa]. reflexivity.
  - unfold pack. destruct m2 as [|p|p]; try exact I.
    destruct (_ <=? _); [|exact I]. cbn [fits_mantissa]. unfold prec. lia.
Qed.

Lemma fminf_half_ok q :
  fsign q <> Some true -> fits_mantissa q -> squash_ok (fminf q (lit 5 10)).
Proof.
  intros Hs Hf. unfold fminf.
  destruct (fle q (lit 5 10)) eqn:Hle.
  - split; [|split; assumption].
    rewrite of_int_0. rewrite lit_5_10 in Hle.
    destruct q as [[] | [] | | [] m e]; cbn [fsign] in Hs;
      try congruence; try reflexivity; cbv in Hle; discriminate Hle.
  - assert (Hh : squash_ok (lit 5 10)).
    { rewrite lit_5_10. apply squash_ok_inv.
      change (2 ^ 23) with 8388608. change (2 ^ 24) with 16777216. lia. }
    destruct (flt (lit 5 10) q); [exact Hh|].
    rewrite lit_5_10. exact Hh.
Qed.

Lemma flt_fle x y : flt x y = true -> fle x y = true.
Proof. unfold flt, fle, SFltb, SFleb. now destruct (SFcompare x y) as [[]|]. Qed.

(** ** Physics integrator *)

Lemma physics_step_impact P s :
  impact P s = true ->
  physics_step P s =
    {| pos := of_int 0;
       vel := (if flt (fmul (fabs (impact_vel P s)) damp) (fmul (grav P) (of_int 8))
               then restart_vel P else fmul (fabs (impact_vel P s)) damp);
       squash := fmul (fminf (fmul (fdiv (fabs (impact_vel P s)) (restart_vel P))
                                     (lit 5 10)) (lit 5 10)) squash_decay |}.
Proof. unfold impact, physics_step, impact_vel. now intros ->. Qed.

Lemma physics_step_flight P s :
  impact P s = false ->
  physics_step P s =
    {| pos := fadd (pos s) (impact_vel P s);
       vel := impact_vel P s;
       squash := fmul (squash s) squash_decay |}.
Proof. unfold impact, physics_step, impact_vel. now intros ->. Qed.

Lemma step_squash_ok g s :
  squash_ok (squash s) -> squash_ok (squash (physics_step (physics_init g) s)).
Proof.
  intros Hs. set (P := physics_init g).
  destruct (impact P s) eqn:Hi.
  - rewrite (physics_step_impact P s Hi). cbn [squash].
    apply fmul_decay_ok, fminf_half_ok.
    + apply fsign_fmul_pos.
      * apply fsign_fdiv_pos; [apply fsign_fabs | apply restart_vel_sign].
      * rewrite lit_5_10. simpl. congruence.
    + rewrite lit_5_10. apply fmul_const_fits. reflexivity.
  - rewrite (physics_step_flight P s Hi). cbn [squash]. now apply fmul_decay_ok.
Qed.

Lemma reachable_squash_ok g s :
  reachable (physics_init g) s -> squash_ok (squash s).
Proof.
  induction 1 as [|s _ IH].
  - simpl. apply squash_ok_inv. exact I.
  - now apply step_squash_ok.
Qed.

Lemma step_pos_not_negative P s :
  flt (pos (physics_step P s)) (of_int 0) = false.
Proof.
  destruct (impact P s) eqn:Hi.
  - now rewrite (physics_step_impact P s Hi).
  - rewrite (physics_step_flight P s Hi). cbn [pos].
    destruct (flt _ _) eqn:Hlt; [|reflexivity].
    apply flt_fle in Hlt. unfold impact, impact_vel in *. congruence.
Qed.

Lemma not_flt_fle x y :
  is_nan x = false -> is_nan y = false -> flt x y = false -> fle y x = true.
Proof.
  unfold flt, fle, SFltb, SFleb.
  destruct x as [[] | [] | | [] m e], y as [[] | [] | | [] m' e']; simpl;
    try discriminate; try reflexivity;
    try (destruct (Z.compare_spec e e'); destruct (Z.compare_spec e' e); try lia;
         subst; rewrite ?Pos.compare_cont_spec; cbn [Pos.switch_Eq];
         try discriminate; try reflexivity;
         rewrite (Pos.compare_antisym m m'); destruct (m ?= m')%positive;
         simpl; try discriminate; reflexivity).
Qed.

(** C1: for every reachable Bounce State, after one more step of the
    integrator the position is not negative (it is not below 0, and it is at
    least 0 whenever it is a number) and the squash factor lies in
    [0, 0.5]. *)
Theorem bounce_invariant g s :
  reachable (physics_init g) s ->
  let s' := physics_step (physics_init g) s in
  flt (pos s') (of_int 0) = false /\
  (is_nan (pos s') = false -> fle (of_int 0) (pos s') = true) /\
  fle (of_int 0) (squash s') = true /\
  fle (squash s') (lit 5 10) = true.
Proof.
  intros Hr s'.
  pose proof (step_pos_not_negative (physics_init g) s) as Hp. fold s' in Hp.
  destruct (reachable_squash_ok g s' (reach_step _ _ Hr)) as (H0 & H1 & _).
  repeat split; try assumption.
  intros Hn. apply not_flt_fle; auto.
Qed.

Lemma bounce_invariant_witness :
  let g := mk_geom 80 24 in
  let s := physics_step (physics_init g) (bounce_init (physics_init g)) in
  let s' := physics_step (physics_init g) s in
  flt (pos s') (of_int 0) = false /\
  (is_nan (pos s') = false -> fle (of_int 0) (pos s') = true) /\
  fle (of_int 0) (squash s') = true /\
  fle (squash s') (lit 5 10) = true.
Proof.
  apply (bounce_invariant (mk_geom 80 24)
           (physics_step (physics_init (mk_geom 80 24))
              (bounce_init (physics_init (mk_geom 80 24))))).
  apply reach_step, reach_init.
Defined.

(** C2: the damping constant [damp] is the float nearest to 0.82,
    [13757317 * 2^-24] (it differs from 0.82 by less than half a unit in
    the last place).  In a step with an impact (the position after gravity
    is at or below 0), with [v] the velocity at the impact, the velocity
    after the step has magnitude [|v|] times that float, unless the product
    is below the restart threshold [grav * 8], in which case it is
    [restart_vel] exactly; in both cases the new velocity points upwards. *)
Theorem impact_velocity g s :
  let P := physics_init g in
  impact P s = true ->
  let d := S754_finite false 13757317 (-24) in
  let damped := fmul (fabs (impact_vel P s)) d in
  let s' := physics_step P s in
  damp = d /\
  2 * Z.abs (100 * 13757317 - 82 * 2 ^ 24) < 100 /\
  (flt damped (fmul (grav P) (of_int 8)) = false ->
     vel s' = damped /\ fabs (vel s') = fmul (fabs (impact_vel P s)) d) /\
  (flt damped (fmul (grav P) (of_int 8)) = true ->
     vel s' = restart_vel P /\ fabs (vel s') = restart_vel P).
Proof.
  intros P Hi d damped s'.
  assert (Ed : damp = d) by (vm_compute; reflexivity).
  split; [exact Ed|]. split; [vm_compute; reflexivity|].
  unfold s'. rewrite (physics_step_impact P s Hi). cbn [vel].
  rewrite Ed. fold damped. split; intros ->.
  - split; [reflexivity|]. apply fabs_id. unfold damped.
    apply fsign_fmul_pos; [apply fsign_fabs|]. vm_compute. congruence.
  - split; [reflexivity|]. apply fabs_id, restart_vel_sign.
Qed.

Lemma impact_velocity_witness :
  let P := physics_init (mk_geom 80 24) in
  let s := {| pos := of_int 1; vel := fneg (of_int 2); squash := of_int 0 |} in
  let d := S754_finite false 13757317 (-24) in
  let damped := fmul (fabs (impact_vel P s)) d in
  let s' := physics_step P s in
  damp = d /\
  2 * Z.abs (100 * 13757317 - 82 * 2 ^ 24) < 100 /\
  (flt damped (fmul (grav P) (of_int 8)) = false ->
     vel s' = damped /\ fabs (vel s') = fmul (fabs (impact_vel P s)) d) /\
  (flt damped (fmul (grav P) (of_int 8)) = true ->
     vel s' = restart_vel P /\ fabs (vel s') = restart_vel P).
Proof.
  apply (impact_velocity (mk_geom 80 24)
           {| pos := of_int 1; vel := fneg (of_int 2); squash := of_int 0 |}).
  vm_compute. reflexivity.
Defined.

(** The constants of the integrator on an 80 x 24 terminal, and the two
    outcomes of an impact. *)
Example physics_80x24 :
  physics_init (mk_geom 80 24) =
    {| floor_py := S754_finite false 13631488 (-18);
       max_bounce := S754_finite false 14994637 (-19);
       grav := S754_finite false 15862095 (-27);
       restart_vel := S754_finite false 10905191 (-22) |}.
Proof. vm_compute. reflexivity. Qed.

Example impact_damped :
  let P := physics_init (mk_geom 80 24) in
  vel (physics_step P {| pos := of_int 1; vel := fneg (of_int 2); squash := of_int 0 |})
  = fmul (fadd (of_int 2) (grav P)) damp.
Proof. vm_compute. reflexivity. Qed.

Example impact_restart :
  let P := physics_init (mk_geom 80 24) in
  vel (physics_step P {| pos := of_int 0; vel := of_int 0; squash := of_int 0 |})
  = restart_vel P.
Proof. vm_compute. reflexivity. Qed.

(** ** Transform pipeline *)

(** C3, as the code has it: [transform_vertex] is the rotation, then a
    scaling of the two screen axes, the vertical one by [1 - squash] and the
    horizontal one by [1 + squash * 0.5], then the perspective divide and
    the translation to the screen; the depth coordinate that feeds the
    divisor of the perspective is the rotated one, it is not scaled. *)
Theorem transform_vertex_stages g P b t p :
  let v := mk_view g P b in
  yscale v = fsub (of_int 1) (squash b) /\
  xzscale v = fadd (of_int 1) (fmul (squash b) (lit 5 10)) /\
  transform_vertex v t p = perspective v (squash_screen (squash b) (rotate t p)) /\
  snd (squash_screen (squash b) (rotate t p)) = snd (rotate t p).
Proof. destruct p as [[x y] z]. repeat split. Qed.

(** C3 as stated fails: scaling the depth axis by [1 + squash / 2] as well
    changes the depth of the vertex (1, 1, 1) at Pose (0, 0, 0) and squash
    0.35, and with it the projected point. *)
Lemma transform_vertex_depth_not_scaled :
  let p := (of_int 1, of_int 1, of_int 1) in
  let sq := lit 35 100 in
  fst (squash_spec sq (rotate trig_zero p)) = fst (squash_screen sq (rotate trig_zero p)) /\
  snd (squash_spec sq (rotate trig_zero p)) <> snd (squash_screen sq (rotate trig_zero p)) /\
  transform_vertex cx_view trig_zero p <>
    perspective cx_view (squash_spec sq (rotate trig_zero p)).
Proof.
  vm_compute. repeat split; congruence.
Qed.


(** ** Counted loops *)

Lemma for_loop_rule {St} (I : Z -> St -> Prop) (f : Z -> St -> result St) :
  forall (n : nat) a s,
    I a s ->
    (forall i s, a <= i < a + Z.of_nat n -> I i s ->
                 exists s', f i s = Ok s' /\ I (i + 1) s') ->
    exists s', for_loop n a f s = Ok s' /\ I (a + Z.of_nat n) s'.
Proof.
  induction n as [|n IH]; intros a s H0 Hstep.
  - exists s. rewrite Z.add_0_r. auto.
  - destruct (Hstep a s ltac:(lia) H0) as (s1 & Hf & H1).
    cbn [for_loop]. rewrite Hf. simpl.
    destruct (IH (a + 1) s1 H1) as (s' & Hl & H').
    { intros i s2 Hi. apply Hstep. lia. }
    exists s'. split; [exact Hl|].
    now replace (a + Z.of_nat (S n)) with (a + 1 + Z.of_nat n) by lia.
Qed.

Lemma for_range_rule {St} (I : Z -> St -> Prop) (f : Z -> St -> result St) a b s :
  a <= b -> I a s ->
  (forall i s, a <= i < b -> I i s -> exists s', f i s = Ok s' /\ I (i + 1) s') ->
  exists s', for_range a b f s = Ok s' /\ I b s'.
Proof.
  intros Hab H0 Hstep. unfold for_range.
  destruct (for_loop_rule I f (Z.to_nat (b - a)) a s H0) as (s' & Hl & H').
  { intros i s1 Hi. apply Hstep. lia. }
  exists s'. split; [exact Hl|].
  now replace (a + Z.of_nat (Z.to_nat (b - a))) with b in H' by lia.
Qed.

Lemma for_range_empty {St} (f : Z -> St -> result St) a b s :
  b <= a -> for_range a b f s = Ok s.
Proof. intros H. unfold for_range. now replace (Z.to_nat (b - a)) with 0%nat by lia. Qed.

Lemma for_loop_ext {St} (f f' : Z -> St -> result St) :
  forall (n : nat) a s,
    (forall i s, a <= i < a + Z.of_nat n -> f i s = f' i s) ->
    for_loop n a f s = for_loop n a f' s.
Proof.
  induction n as [|n IH]; intros a s H; [reflexivity|].
  cbn [for_loop]. rewrite (H a s) by lia.
  destruct (f' a s) as [s'| |]; try reflexivity. simpl.
  apply IH. intros i s2 Hi. apply H. lia.
Qed.

Lemma for_range_ext {St} (f f' : Z -> St -> result St) a b s :
  (forall i s, a <= i < b -> f i s = f' i s) ->
  for_range a b f s = for_range a b f' s.
Proof. intros H. unfold for_range. apply for_loop_ext. intros i s' Hi. apply H. lia. Qed.

Lemma for_loop_app {St} (f : Z -> St -> result St) :
  forall (n m : nat) a s,
    for_loop (n + m) a f s = (for_loop n a f s ≫= for_loop m (a + Z.of_nat n) f).
Proof.
  induction n as [|n IH]; intros m a s.
  - simpl. now rewrite Z.add_0_r.
  - cbn [Nat.add for_loop]. destruct (f a s) as [s'| |]; try reflexivity. simpl.
    rewrite IH. now replace (a + 1 + Z.of_nat n) with (a + Z.of_nat (S n)) by lia.
Qed.

Lemma for_range_split {St} (f : Z -> St -> result St) a b c s :
  a <= b <= c ->
  for_range a c f s = (for_range a b f s ≫= for_range b c f).
Proof.
  intros H. unfold for_range.
  replace (Z.to_nat (c - a)) with (Z.to_nat (b - a) + Z.to_nat (c - b))%nat by lia.
  rewrite for_loop_app. now replace (a + Z.of_nat (Z.to_nat (b - a))) with b by lia.
Qed.

(** A loop whose first iteration stores out of range. *)
Lemma for_range_fault {St} (f : Z -> St -> result St) a b s i :
  a < b -> f a s = BadIndex i -> for_range a b f s = BadIndex i.
Proof.
  intros H Hf. unfold for_range.
  replace (Z.to_nat (b - a)) with (S (Z.to_nat (b - a - 1))) by lia.
  cbn [for_loop]. now rewrite Hf.
Qed.

(** ** Floating point: magnitudes *)

Lemma Zdigits2_eq m k : 0 < k -> 2 ^ (k - 1) <= m < 2 ^ k -> Zdigits2 m = k.
Proof.
  intros Hk [Hlo Hhi].
  assert (0 < m) by (pose proof (Z.pow_pos_nonneg 2 (k - 1)); lia).
  pose proof (Zdigits2_le m k ltac:(lia) Hhi).
  pose proof (Zdigits2_ge m k ltac:(lia) Hlo). lia.
Qed.

Lemma pow2_split a b : 0 <= a -> 0 <= b -> 2 ^ (a + b) = 2 ^ a * 2 ^ b.
Proof. intros. apply Z.pow_add_r; lia. Qed.

(** Rounding a mantissa of at least 24 bits, away from the subnormal and the
    overflow range, gives a normal float of the same magnitude or the next. *)
Lemma binary_round_aux_range sx mx ex lx :
  2 ^ 23 <= mx ->
  -125 <= Zdigits2 mx + ex <= 126 ->
  frange (Zdigits2 mx + ex) (Zdigits2 mx + ex + 1)
         (binary_round_aux prec emax sx mx ex lx).
Proof.
  intros Hmx Hr. change (2 ^ 23) with 8388608 in Hmx.
  set (d := Zdigits2 mx) in *.
  assert (Hd : 24 <= d) by (apply Zdigits2_ge; [lia | exact Hmx]).
  pose proof (Zdigits2_bounds mx ltac:(lia)) as [Hlo Hhi]. fold d in Hlo, Hhi.
  destruct (binary_round_aux_spec sx mx ex lx) as (m2 & Hm2 & Hm1 & Hle & ->);
    [lia | rewrite fexp_eq; fold d; lia |].
  fold d in Hm2, Hm1 |- *. rewrite fexp_eq in Hm2, Hm1 |- *.
  replace (Z.max (d + ex - 24) (-149)) with (d + ex - 24) in * by lia.
  replace (d + ex - 24 - ex) with (d - 24) in * by lia.
  assert (Hm1lo : 2 ^ 23 <= mx / 2 ^ (d - 24)).
  { apply Z.div_le_lower_bound; [apply Z.pow_pos_nonneg; lia|].
    rewrite Z.mul_comm, <- pow2_split by lia.
    now replace (23 + (d - 24)) with (d - 1) by lia. }
  destruct (Z.eqb_spec m2 (2 ^ 24)) as [E | NE].
  - destruct (pack_pos_small sx (2 ^ 23) (d + ex - 24 + 1)) as (p & Hp & ->);
      [reflexivity | lia |].
    cbn [frange]. rewrite <- Hp. change (2 ^ 23) with 8388608.
    change (2 ^ 24) with 16777216. lia.
  - change (2 ^ 23) with 8388608 in *. change (2 ^ 24) with 16777216 in *.
    destruct (pack_pos_small sx m2 (d + ex - 24)) as (p & Hp & ->); [lia | lia |].
    cbn [frange]. rewrite <- Hp. change (2 ^ 23) with 8388608.
    change (2 ^ 24) with 16777216. lia.
Qed.

Lemma pos_iter_xO p n : Z.pos (Pos.iter xO p n) = Z.pos p * 2 ^ Z.pos n.
Proof.
  induction n as [|n IH] using Pos.peano_ind.
  - simpl. lia.
  - rewrite Pos.iter_succ, Pos2Z.inj_xO, IH, Pos2Z.inj_succ, Z.pow_succ_r by lia.
    lia.
Qed.

Lemma shl_align_spec mx ex ex' :
  let '(mz, ez) := shl_align mx ex ex' in
  ez = Z.min ex ex' /\ Z.pos mz = Z.pos mx * 2 ^ (ex - ez).
Proof.
  unfold shl_align. destruct (ex' - ex) as [|d|d] eqn:E.
  - split; [lia|]. replace (ex - ex) with 0 by lia. lia.
  - split; [lia|]. replace (ex - ex) with 0 by lia. lia.
  - split; [lia|]. rewrite pos_iter_xO. f_equal. f_equal. lia.
Qed.

(** [binary_round], away from the subnormal and the overflow range. *)
Lemma binary_round_range s p ex :
  -125 <= Zdigits2 (Z.pos p) + ex <= 126 ->
  frange (Zdigits2 (Z.pos p) + ex) (Zdigits2 (Z.pos p) + ex + 1)
         (binary_round prec emax s p ex).
Proof.
  intros Hr. unfold binary_round.
  set (d := Zdigits2 (Z.pos p)) in *.
  pose proof (Zdigits2_bounds (Z.pos p) ltac:(lia)) as [Hlo Hhi]. fold d in Hlo, Hhi.
  assert (Hd : 0 < d) by (apply Zdigits2_pos; lia).
  change (Z.pos (digits2_pos p)) with d.
  pose proof (shl_align_spec p ex (fexp prec emax (d + ex))) as Hal.
  destruct (shl_align p ex (fexp prec emax (d + ex))) as [mz ez].
  destruct Hal as [Hez Hmz]. rewrite fexp_eq in Hez.
  replace (Z.max (d + ex - 24) (-149)) with (d + ex - 24) in Hez by lia.
  assert (Hdz : Zdigits2 (Z.pos mz) + ez = d + ex /\ 2 ^ 23 <= Z.pos mz).
  { destruct (Z_le_gt_dec 24 d) as [Hge | Hlt].
    - replace ez with ex in * by lia. rewrite Z.sub_diag, Z.mul_1_r in Hmz.
      rewrite Hmz. fold d. split; [lia|].
      eapply Z.le_trans; [|exact Hlo]. apply Z.pow_le_mono_r; lia.
    - replace ez with (d + ex - 24) in * by lia.
      replace (ex - (d + ex - 24)) with (24 - d) in Hmz by lia.
      assert (Hb : 2 ^ (24 - 1) <= Z.pos mz < 2 ^ 24).
      { rewrite Hmz.
        pose proof (Z.pow_pos_nonneg 2 (24 - d) ltac:(lia) ltac:(lia)) as Hpos.
        assert (E1 : 2 ^ (24 - 1) = 2 ^ (d - 1) * 2 ^ (24 - d))
          by (rewrite <- pow2_split by lia; f_equal; lia).
        assert (E2 : 2 ^ 24 = 2 ^ d * 2 ^ (24 - d))
          by (rewrite <- pow2_split by lia; f_equal; lia).
        rewrite E1, E2. split.
        - apply Z.mul_le_mono_nonneg_r; lia.
        - apply Z.mul_lt_mono_pos_r; lia. }
      rewrite (Zdigits2_eq (Z.pos mz) 24 ltac:(lia) Hb). split; [lia | apply Hb]. }
  destruct Hdz as [Hdz Hmzlo]. rewrite <- Hdz.
  apply binary_round_aux_range; [exact Hmzlo | lia].
Qed.

Lemma of_int_range n k :
  0 < n < 2 ^ k -> 0 < k <= 100 -> frange 1 (k + 1) (of_int n).
Proof.
  intros Hn Hk. destruct n as [|p|p]; try lia. unfold of_int, binary_normalize.
  pose proof (Zdigits2_le (Z.pos p) k ltac:(lia) ltac:(lia)).
  pose proof (Zdigits2_pos (Z.pos p) ltac:(lia)).
  pose proof (binary_round_range false p 0 ltac:(lia)) as H1.
  destruct (binary_round prec emax false p 0); try contradiction.
  cbn [frange] in *. lia.
Qed.

Lemma frange_weaken lo hi lo' hi' x :
  frange lo hi x -> lo' <= lo -> hi <= hi' -> frange lo' hi' x.
Proof. destruct x; simpl; try tauto. lia. Qed.

Lemma frange_digits s m e lo hi :
  frange lo hi (S754_finite s m e) -> Zdigits2 (Z.pos m) = 24.
Proof. intros [Hm _]. apply Zdigits2_eq; [lia | exact Hm]. Qed.

(** The product of two normal floats. *)
Lemma fmul_range a b c d x y :
  frange a b x -> frange c d y ->
  -124 <= a + c -> b + d <= 126 ->
  frange (a + c - 1) (b + d + 1) (fmul x y).
Proof.
  destruct x as [| | |sx mx ex], y as [| | |sy my ey]; try contradiction.
  intros [Hmx Hex] [Hmy Hey] Hlo Hhi. unfold fmul, SFmul.
  change (2 ^ 23) with 8388608 in *. change (2 ^ 24) with 16777216 in *.
  set (M := Z.pos (mx * my)).
  assert (HM : 2 ^ (48 - 1 - 1) <= M < 2 ^ 48).
  { unfold M. rewrite Pos2Z.inj_mul.
    change (2 ^ (48 - 1 - 1)) with (8388608 * 8388608).
    change (2 ^ 48) with (16777216 * 16777216). nia. }
  assert (Hd : 47 <= Zdigits2 M <= 48).
  { split; [apply Zdigits2_ge | apply Zdigits2_le]; try lia; apply HM. }
  eapply frange_weaken; [apply binary_round_aux_range | |]; lia.
Qed.

(** The quotient of two normal floats. *)
Lemma fdiv_range a b c d x y :
  frange a b x -> frange c d y ->
  -125 <= a - d -> b - c <= 124 ->
  frange (a - d) (b - c + 2) (fdiv x y).
Proof.
  destruct x as [| | |sx mx ex], y as [| | |sy my ey]; try contradiction.
  intros Hx Hy Hlo Hhi.
  pose proof (frange_digits _ _ _ _ _ Hx) as Hdx.
  pose proof (frange_digits _ _ _ _ _ Hy) as Hdy.
  destruct Hx as [Hmx Hex], Hy as [Hmy Hey].
  unfold fdiv, SFdiv, SFdiv_core_binary. rewrite Hdx, Hdy, fexp_eq.
  replace (Z.min (Z.max (24 + ex - (24 + ey) - 24) (-149)) (ex - ey))
    with (ex - ey - 24) by lia.
  replace (ex - ey - (ex - ey - 24)) with 24 by lia.
  rewrite Z.shiftl_mul_pow2 by lia.
  change (2 ^ 23) with 8388608 in *. change (2 ^ 24) with 16777216 in *.
  pose proof (Z_div_mod (Z.pos mx * 16777216) (Z.pos my) ltac:(lia)) as Hdm.
  destruct (Z.div_eucl (Z.pos mx * 16777216) (Z.pos my)) as [q r].
  destruct Hdm as [Hq Hr].
  assert (Hqb : 2 ^ 23 <= q < 2 ^ 25).
  { change (2 ^ 23) with 8388608. change (2 ^ 25) with 33554432. nia. }
  assert (Hd : 24 <= Zdigits2 q <= 25).
  { split; [apply Zdigits2_ge | apply Zdigits2_le]; try lia; apply Hqb. }
  eapply frange_weaken; [apply binary_round_aux_range | |]; try lia.
Qed.

(** The difference of two normal floats: zero, or a normal float. *)
Lemma fsub_range a b c d x y :
  frange a b x -> frange c d y ->
  -101 <= a -> -101 <= c -> b <= 124 -> d <= 124 ->
  is_zero (fsub x y) \/ frange (Z.min a c - 23) (Z.max b d + 2) (fsub x y).
Proof.
  destruct x as [| | |sx mx ex], y as [| | |sy my ey]; try contradiction.
  intros [Hmx Hex] [Hmy Hey] Ha Hc Hb Hd. unfold fsub, SFsub.
  set (ez := Z.min ex ey).
  pose proof (shl_align_spec mx ex ez) as Hx.
  pose proof (shl_align_spec my ey ez) as Hy.
  destruct (shl_align mx ex ez) as [X ex'], (shl_align my ey ez) as [Y ey'].
  cbn [fst]. destruct Hx as [Hex' HX], Hy as [Hey' HY].
  replace ex' with ez in * by lia. replace ey' with ez in * by lia.
  clear Hex' Hey'.
  set (D := cond_Zopp sx (Z.pos X) - cond_Zopp sy (Z.pos Y)).
  set (w := Z.max ex ey - ez).
  assert (Hw : 0 <= w) by lia.
  assert (HXY : Z.pos X + Z.pos Y < 2 ^ (25 + w)).
  { assert (HXb : Z.pos X < 2 ^ 24 * 2 ^ w).
    { rewrite HX. apply Z.lt_le_trans with (2 ^ 24 * 2 ^ (ex - ez)).
      - apply Z.mul_lt_mono_pos_r; [apply Z.pow_pos_nonneg; lia | lia].
      - apply Z.mul_le_mono_nonneg_l; [lia|]. apply Z.pow_le_mono_r; lia. }
    assert (HYb : Z.pos Y < 2 ^ 24 * 2 ^ w).
    { rewrite HY. apply Z.lt_le_trans with (2 ^ 24 * 2 ^ (ey - ez)).
      - apply Z.mul_lt_mono_pos_r; [apply Z.pow_pos_nonneg; lia | lia].
      - apply Z.mul_le_mono_nonneg_l; [lia|]. apply Z.pow_le_mono_r; lia. }
    replace (25 + w) with (1 + (24 + w)) by lia.
    rewrite (pow2_split 1), (pow2_split 24) by lia. change (2 ^ 1) with 2. lia. }
  assert (HD : Z.abs D <= Z.pos X + Z.pos Y).
  { unfold D, cond_Zopp. destruct sx, sy; lia. }
  unfold binary_normalize. destruct D as [|p|p] eqn:ED; [left; exact I | |]; right.
  - pose proof (Zdigits2_le (Z.pos p) (25 + w) ltac:(lia) ltac:(lia)).
    pose proof (Zdigits2_pos (Z.pos p) ltac:(lia)).
    eapply frange_weaken; [apply binary_round_range | |]; lia.
  - pose proof (Zdigits2_le (Z.pos p) (25 + w) ltac:(lia) ltac:(lia)).
    pose proof (Zdigits2_pos (Z.pos p) ltac:(lia)).
    eapply frange_weaken; [apply binary_round_range | |]; lia.
Qed.

(** The conversion to [int] of a float of magnitude below [2^30] is
    defined: it is the integer part. *)
Lemma int_of_float_defined y lo hi :
  is_zero y \/ frange lo hi y -> hi <= 30 ->
  int_of_float y = trunc y /\ - 2 ^ 30 < trunc y < 2 ^ 30.
Proof.
  intros [Hz | Hy] Hhi.
  - destruct y; try contradiction. simpl. split; [reflexivity | lia].
  - destruct y as [| | |s m e]; try contradiction. destruct Hy as [Hm He].
    assert (Hb : - 2 ^ 30 < trunc (S754_finite s m e) < 2 ^ 30).
    { cbn [trunc]. change (2 ^ 24) with 16777216 in Hm.
      assert (Ha : 0 <= (if 0 <=? e then Z.pos m * 2 ^ e else Z.pos m / 2 ^ (- e)) < 2 ^ 30).
      { destruct (Z.leb_spec 0 e).
        - split; [apply Z.mul_nonneg_nonneg; [lia | apply Z.pow_nonneg; lia]|].
          apply Z.lt_le_trans with (2 ^ 24 * 2 ^ e).
          + apply Z.mul_lt_mono_pos_r; [apply Z.pow_pos_nonneg; lia|].
            change (2 ^ 24) with 16777216. lia.
          + rewrite <- pow2_split by lia. apply Z.pow_le_mono_r; lia.
        - split; [apply Z.div_pos; [lia | apply Z.pow_pos_nonneg; lia]|].
          apply Z.le_lt_trans with (Z.pos m); [|change (2 ^ 30) with 1073741824; lia].
          apply Z.div_le_upper_bound; [apply Z.pow_pos_nonneg; lia|].
          pose proof (Z.pow_pos_nonneg 2 (- e) ltac:(lia) ltac:(lia)). nia. }
      destruct s; lia. }
    split; [|exact Hb]. unfold int_of_float.
    replace ((INT_MIN <=? trunc (S754_finite s m e)) &&
             (trunc (S754_finite s m e) <=? INT_MAX)) with true; [reflexivity|].
    symmetry. apply andb_true_iff. unfold INT_MIN, INT_MAX.
    change (2 ^ 31) with 2147483648. change (2 ^ 30) with 1073741824 in Hb. lia.
Qed.

(** [floorf] of a float of magnitude below [2^28]: zero or normal, below
    [2^29]. *)
Lemma floorf_range x lo hi :
  is_zero x \/ frange lo hi x -> hi <= 28 ->
  is_zero (floorf x) \/ frange (Z.min lo 1) 29 (floorf x).
Proof.
  intros [Hz | Hx] Hhi.
  - destruct x; try contradiction. now left.
  - destruct x as [| | |s m e]; try contradiction. cbn [floorf].
    destruct (Z.leb_spec 0 e) as [He | He].
    + right. eapply frange_weaken; [exact Hx | lia | lia].
    + destruct Hx as [Hm Hk]. change (2 ^ 24) with 16777216 in Hm.
      set (n := (if s then Z.neg m else Z.pos m) / 2 ^ (- e)).
      assert (Hn : - 2 ^ 24 <= n < 2 ^ 24).
      { unfold n. pose proof (Z.pow_pos_nonneg 2 (- e) ltac:(lia) ltac:(lia)) as Hp.
        change (2 ^ 24) with 16777216. split.
        - apply Z.div_le_lower_bound; [lia|]. destruct s; nia.
        - apply Z.div_lt_upper_bound; [lia|]. destruct s; nia. }
      change (2 ^ 24) with 16777216 in Hn.
      unfold binary_normalize. destruct n as [|p|p]; [now left | |]; right.
      * pose proof (Zdigits2_le (Z.pos p) 24 ltac:(lia) ltac:(change (2 ^ 24) with 16777216; lia)).
        pose proof (Zdigits2_pos (Z.pos p) ltac:(lia)).
        eapply frange_weaken; [apply binary_round_range | |]; lia.
      * pose proof (Zdigits2_le (Z.pos p) 25 ltac:(lia) ltac:(change (2 ^ 25) with 33554432; lia)).
        pose proof (Zdigits2_pos (Z.pos p) ltac:(lia)).
        eapply frange_weaken; [apply binary_round_range | |]; lia.
Qed.

(** A 24-bit mantissa at an exponent in range is not altered by rounding. *)
Lemma binary_round_aux_exact sx p ex :
  2 ^ 23 <= Z.pos p < 2 ^ 24 -> -125 <= ex <= 104 ->
  binary_round_aux prec emax sx (Z.pos p) ex loc_Exact = S754_finite sx p ex.
Proof.
  intros Hp He.
  assert (Hd : Zdigits2 (Z.pos p) = 24) by (apply Zdigits2_eq; [lia | exact Hp]).
  unfold binary_round_aux, shr_fexp.
  cbn [shr_record_of_loc]. rewrite Hd, fexp_eq.
  rewrite shr_nonpos by lia. cbn [shr_m loc_of_shr_record round_nearest_even].
  rewrite Hd, fexp_eq. rewrite shr_nonpos by lia. cbn [shr_m].
  now replace (ex <=? emax - prec) with true
    by (symmetry; apply Z.leb_le; unfold emax, prec; lia).
Qed.

(** A positive [int] of at most 24 bits converts exactly. *)
Lemma of_int_exact n :
  0 < n < 2 ^ 24 -> frange (Zdigits2 n) (Zdigits2 n) (of_int n).
Proof.
  intros Hn. destruct n as [|p|p]; try lia.
  unfold of_int, binary_normalize, binary_round.
  set (d := Zdigits2 (Z.pos p)).
  pose proof (Zdigits2_bounds (Z.pos p) ltac:(lia)) as [Hlo Hhi]. fold d in Hlo, Hhi.
  assert (Hd : 0 < d <= 24).
  { split; [apply Zdigits2_pos; lia | apply Zdigits2_le; lia]. }
  change (Z.pos (digits2_pos p)) with d.
  pose proof (shl_align_spec p 0 (fexp prec emax (d + 0))) as Hal.
  destruct (shl_align p 0 (fexp prec emax (d + 0))) as [mz ez].
  destruct Hal as [Hez Hmz]. rewrite fexp_eq in Hez.
  replace ez with (d - 24) in * by lia.
  replace (0 - (d - 24)) with (24 - d) in Hmz by lia.
  assert (Hb : 2 ^ 23 <= Z.pos mz < 2 ^ 24).
  { rewrite Hmz.
    pose proof (Z.pow_pos_nonneg 2 (24 - d) ltac:(lia) ltac:(lia)) as Hpos.
    assert (E1 : 2 ^ 23 = 2 ^ (d - 1) * 2 ^ (24 - d))
      by (rewrite <- pow2_split by lia; f_equal; lia).
    assert (E2 : 2 ^ 24 = 2 ^ d * 2 ^ (24 - d))
      by (rewrite <- pow2_split by lia; f_equal; lia).
    rewrite E1, E2. split.
    - apply Z.mul_le_mono_nonneg_r; lia.
    - apply Z.mul_lt_mono_pos_r; lia. }
  rewrite binary_round_aux_exact by (try exact Hb; lia).
  cbn [frange]. split; [exact Hb | lia].
Qed.

Lemma digits_le_mono a b : 0 < a <= b -> Zdigits2 a <= Zdigits2 b.
Proof.
  intros H. apply Zdigits2_le; [lia|].
  pose proof (Zdigits2_bounds b ltac:(lia)). lia.
Qed.

(** For the geometries a terminal can report, the world-x of a cell below
    the horizon is zero or a normal float below [2^28] in magnitude, and
    the depth coordinate of its row a normal float between 1 and [2^22]. *)
Lemma floor_coords_range cols rows row col :
  20 <= cols <= 65535 -> 10 <= rows <= 65535 ->
  let g := mk_geom cols rows in
  let hz := rows * 55 / 100 in
  hz < row < rows -> 0 <= col < cols ->
  (is_zero (floor_world_x g hz row col) \/ frange (-50) 28 (floor_world_x g hz row col)) /\
  frange 1 22 (floor_depth g hz row).
Proof.
  intros Hc Hr g hz Hrow Hcol.
  assert (Hhz : 0 <= hz) by (apply Z.div_pos; lia).
  unfold floor_world_x, floor_depth. cbn [cw ch g mk_geom].
  set (A := of_int (row - hz)). set (B := of_int (rows - hz)).
  set (dA := Zdigits2 (row - hz)). set (dB := Zdigits2 (rows - hz)).
  assert (HdA : 1 <= dA <= dB /\ dB <= 16).
  { unfold dA, dB. split; [split|].
    - pose proof (Zdigits2_pos (row - hz) ltac:(lia)). lia.
    - apply digits_le_mono. lia.
    - apply Zdigits2_le; [lia|]. change (2 ^ 16) with 65536. lia. }
  assert (HA : frange dA dA A)
    by (apply of_int_exact; change (2 ^ 24) with 16777216; lia).
  assert (HB : frange dB dB B)
    by (apply of_int_exact; change (2 ^ 24) with 16777216; lia).
  assert (Ht : frange (dA - dB) (dA - dB + 2) (fdiv A B))
    by (apply fdiv_range; [exact HA | exact HB | lia | lia]).
  assert (H1 : frange 1 1 (of_int 1)) by (apply (of_int_exact 1); lia).
  assert (Hz : frange (-1) 18 (fdiv (of_int 1) (fdiv A B))).
  { eapply frange_weaken; [apply (fdiv_range _ _ _ _ _ _ H1 Ht) | |]; lia. }
  set (z := fdiv (of_int 1) (fdiv A B)) in *.
  assert (H4 : frange 3 3 (of_int 4)) by (apply (of_int_exact 4); lia).
  assert (H8 : frange 4 4 (of_int 8)) by (apply (of_int_exact 8); lia).
  assert (Hdp : frange 1 22 (fmul z (of_int 4))).
  { eapply frange_weaken; [apply (fmul_range _ _ _ _ _ _ Hz H4) | |]; lia. }
  assert (Hhalf : frange 0 0 (lit 5 10)).
  { rewrite lit_5_10. cbn [frange]. change (2 ^ 23) with 8388608.
    change (2 ^ 24) with 16777216. lia. }
  assert (Hu : is_zero (fsub (fdiv (of_int col) (of_int cols)) (lit 5 10)) \/
               frange (-40) 4 (fsub (fdiv (of_int col) (of_int cols)) (lit 5 10))).
  { assert (HC : frange (Zdigits2 cols) (Zdigits2 cols) (of_int cols))
      by (apply of_int_exact; change (2 ^ 24) with 16777216; lia).
    assert (HdC : 1 <= Zdigits2 cols <= 16).
    { split; [pose proof (Zdigits2_pos cols ltac:(lia)); lia|].
      apply Zdigits2_le; [lia|]. change (2 ^ 16) with 65536. lia. }
    destruct (Z.eq_dec col 0) as [-> | Hnz].
    - right. change (of_int 0) with (S754_zero false).
      destruct (of_int cols) as [| | |s m e]; try contradiction.
      rewrite lit_5_10. cbn. change (2 ^ 23) with 8388608.
      change (2 ^ 24) with 16777216. lia.
    - assert (Hcl : frange (Zdigits2 col) (Zdigits2 col) (of_int col))
        by (apply of_int_exact; change (2 ^ 24) with 16777216; lia).
      pose proof (digits_le_mono col cols ltac:(lia)) as Hle.
      pose proof (Zdigits2_pos col ltac:(lia)) as Hpc.
      pose proof (fdiv_range _ _ _ _ _ _ Hcl HC ltac:(lia) ltac:(lia)) as Hq.
      destruct (fsub_range _ _ _ _ _ _ Hq Hhalf) as [H0 | Hs]; try lia;
        [now left | right].
      eapply frange_weaken; [exact Hs | lia | lia]. }
  set (u := fsub (fdiv (of_int col) (of_int cols)) (lit 5 10)) in *.
  assert (Hx : is_zero (fmul (fmul u z) (of_int 8)) \/
               frange (-50) 28 (fmul (fmul u z) (of_int 8))).
  { destruct Hu as [H0 | Hu].
    - left. destruct u as [su| | |]; try contradiction.
      destruct z as [| | |sz mz ez]; try contradiction.
      cbn. destruct (of_int 8); try contradiction. exact I.
    - right.
      pose proof (fmul_range _ _ _ _ _ _ Hu Hz ltac:(lia) ltac:(lia)) as Hw.
      eapply frange_weaken; [apply (fmul_range _ _ _ _ _ _ Hw H8) | |]; lia. }
  split; [exact Hx | exact Hdp].
Qed.

(** An integer of less than 24 bits is a float, and converts back. *)
Lemma int_of_float_normalize n s :
  - 2 ^ 24 < n < 2 ^ 24 ->
  int_of_float (binary_normalize prec emax n 0 s) = n.
Proof.
  intros Hn. change (2 ^ 24) with 16777216 in Hn.
  assert (Hpos : forall sg p, Z.pos p < 16777216 ->
            int_of_float (binary_round prec emax sg p 0) =
              if sg then - Z.pos p else Z.pos p).
  { intros sg p Hp. unfold binary_round.
    set (d := Zdigits2 (Z.pos p)).
    pose proof (Zdigits2_bounds (Z.pos p) ltac:(lia)) as [Hlo Hhi]. fold d in Hlo, Hhi.
    assert (Hd : 0 < d <= 24).
    { split; [apply Zdigits2_pos; lia | apply Zdigits2_le; [lia|]].
      change (2 ^ 24) with 16777216. lia. }
    change (Z.pos (digits2_pos p)) with d.
    pose proof (shl_align_spec p 0 (fexp prec emax (d + 0))) as Hal.
    destruct (shl_align p 0 (fexp prec emax (d + 0))) as [mz ez].
    destruct Hal as [Hez Hmz]. rewrite fexp_eq in Hez.
    replace ez with (d - 24) in * by lia.
    replace (0 - (d - 24)) with (24 - d) in Hmz by lia.
    pose proof (Z.pow_pos_nonneg 2 (24 - d) ltac:(lia) ltac:(lia)) as Hpw.
    assert (Hb : 2 ^ 23 <= Z.pos mz < 2 ^ 24).
    { rewrite Hmz.
      assert (E1 : 2 ^ 23 = 2 ^ (d - 1) * 2 ^ (24 - d))
        by (rewrite <- pow2_split by lia; f_equal; lia).
      assert (E2 : 2 ^ 24 = 2 ^ d * 2 ^ (24 - d))
        by (rewrite <- pow2_split by lia; f_equal; lia).
      rewrite E1, E2. split.
      - apply Z.mul_le_mono_nonneg_r; lia.
      - apply Z.mul_lt_mono_pos_r; lia. }
    rewrite binary_round_aux_exact by (try exact Hb; lia).
    assert (Ht : trunc (S754_finite sg mz (d - 24)) = if sg then - Z.pos p else Z.pos p).
    { cbn [trunc]. cbv zeta.
      destruct (Z.leb_spec 0 (d - 24)) as [He | He].
      - replace (d - 24) with 0 in * by lia. replace (24 - d) with 0 in Hmz by lia.
        change (2 ^ 0) with 1 in *. rewrite Hmz. now rewrite !Z.mul_1_r.
      - replace (- (d - 24)) with (24 - d) by lia. rewrite Hmz.
        now rewrite Z.div_mul by lia. }
    unfold int_of_float. cbv zeta. rewrite Ht.
    replace ((INT_MIN <=? (if sg then - Z.pos p else Z.pos p)) &&
             ((if sg then - Z.pos p else Z.pos p) <=? INT_MAX)) with true; [reflexivity|].
    symmetry. unfold INT_MIN, INT_MAX. change (2 ^ 31) with 2147483648.
    apply andb_true_iff. destruct sg; lia. }
  unfold binary_normalize. destruct n as [|p|p].
  - reflexivity.
  - apply (Hpos false). lia.
  - apply (Hpos true). lia.
Qed.

(** [(int) floorf(x)] is the integer floor of [x], for [x] below [2^28] in
    magnitude. *)
Lemma int_of_float_floorf x lo hi :
  is_zero x \/ frange lo hi x -> hi <= 28 ->
  int_of_float (floorf x) = floor_value x.
Proof.
  intros [Hz | Hx] Hhi.
  - destruct x; try contradiction. reflexivity.
  - destruct x as [| | |s m e]; try contradiction. destruct Hx as [Hm He].
    change (2 ^ 23) with 8388608 in Hm. change (2 ^ 24) with 16777216 in Hm.
    cbn [floorf floor_value]. cbv zeta.
    destruct (Z.leb_spec 0 e) as [Hpos | Hneg].
    + assert (Hp : 0 < 2 ^ e <= 2 ^ 4).
      { split; [apply Z.pow_pos_nonneg; lia | apply Z.pow_le_mono_r; lia]. }
      change (2 ^ 4) with 16 in Hp.
      unfold int_of_float. cbn [trunc]. cbv zeta.
      replace (0 <=? e) with true by (symmetry; apply Z.leb_le; lia).
      assert (Ht : (if s then - (Z.pos m * 2 ^ e) else Z.pos m * 2 ^ e) =
                   (if s then Z.neg m else Z.pos m) * 2 ^ e) by (destruct s; lia).
      assert (Hprod : 0 <= Z.pos m * 2 ^ e <= 16777216 * 16).
      { split; [apply Z.mul_nonneg_nonneg; lia|].
        apply Z.mul_le_mono_nonneg; lia. }
      replace ((INT_MIN <=? (if s then - (Z.pos m * 2 ^ e) else Z.pos m * 2 ^ e)) &&
               ((if s then - (Z.pos m * 2 ^ e) else Z.pos m * 2 ^ e) <=? INT_MAX))
        with true; [exact Ht|].
      symmetry. unfold INT_MIN, INT_MAX. change (2 ^ 31) with 2147483648.
      apply andb_true_iff. destruct s; lia.
    + apply int_of_float_normalize.
      pose proof (Z.pow_pos_nonneg 2 (- e) ltac:(lia) ltac:(lia)) as Hp.
      assert (H2 : 2 <= 2 ^ (- e)).
      { change 2 with (2 ^ 1) at 1. apply Z.pow_le_mono_r; lia. }
      change (2 ^ 24) with 16777216. split.
      * apply Z.lt_le_trans with (- 16777215); [lia|].
        apply Z.div_le_lower_bound; [lia|]. destruct s; nia.
      * apply Z.div_lt_upper_bound; [lia|]. destruct s; nia.
Qed.

Lemma cast_defined_range y lo hi :
  is_zero y \/ frange lo hi y -> hi <= 30 -> cast_defined y = true.
Proof.
  intros Hy Hhi. destruct (int_of_float_defined y lo hi Hy Hhi) as [_ Hb].
  destruct y as [| | |s m e]; try (destruct Hy; contradiction); [reflexivity|].
  unfold cast_defined, int_ok, INT_MIN, INT_MAX.
  change (2 ^ 30) with 1073741824 in Hb. change (2 ^ 31) with 2147483648.
  apply andb_true_iff. lia.
Qed.

(** ** Floor field *)

Lemma wrap32_parity n : Z.land (wrap32 n) 1 = n mod 2.
Proof.
  rewrite land_1_mod. unfold wrap32.
  pose proof (Z.div_mod (n + 2 ^ 31) (2 ^ 32) ltac:(lia)) as H.
  replace ((n + 2 ^ 31) mod 2 ^ 32 - 2 ^ 31)
    with (n + (- (2 ^ 31 * ((n + 2 ^ 31) / 2 ^ 32))) * 2) by lia.
  apply Z.mod_add. lia.
Qed.

Lemma floor_cell_parity g hz row col :
  floor_cell g hz row col =
    if Z.odd (int_of_float (floorf (floor_world_x g hz row col)) +
              int_of_float (floorf (floor_depth g hz row)))
    then 1 else 2.
Proof.
  unfold floor_cell, floor_world_x, floor_depth. cbv zeta.
  rewrite wrap32_parity.
  set (n := _ + _). rewrite <- Z.bit0_odd, Z.bit0_eqb.
  pose proof (Z.mod_pos_bound n 2 ltac:(lia)).
  destruct (Z.eqb_spec (n mod 2) 0) as [-> | Hnz]; [reflexivity|].
  replace (n mod 2) with 1 by lia. reflexivity.
Qed.

(** The inner loop fills the cells of one row. *)
Lemma fill_row_spec g hz row fm0 :
  geom_ok g -> fb_sized g fm0 -> 0 <= row < ch g ->
  exists fm,
    for_range 0 (cw g)
      (fun col fm => store fm (row * cw g + col) (fun _ => floor_cell g hz row col))
      fm0 = Ok fm /\
    fb_sized g fm /\
    forall i : nat,
      fm !!! i =
        if (row * cw g <=? Z.of_nat i) && (Z.of_nat i <? row * cw g + cw g)
        then floor_cell g hz row (Z.of_nat i - row * cw g)
        else fm0 !!! i.
Proof.
  intros (Hcw & Hch & _) Hsz Hrow.
  destruct (for_range_rule
    (fun col fm =>
       fb_sized g fm /\
       forall i : nat,
         fm !!! i =
           if (row * cw g <=? Z.of_nat i) && (Z.of_nat i <? row * cw g + col)
           then floor_cell g hz row (Z.of_nat i - row * cw g)
           else fm0 !!! i)
    (fun col fm => store fm (row * cw g + col) (fun _ => floor_cell g hz row col))
    0 (cw g) fm0) as (fm & Hfm & Hsz' & Hcells); [lia | | | eauto].
  - split; [exact Hsz|]. intros i.
    replace ((row * cw g <=? Z.of_nat i) && (Z.of_nat i <? row * cw g + 0))
      with false by (symmetry; apply andb_false_iff; lia). reflexivity.
  - intros col fm Hcol [Hsz1 Hinv]. unfold store. unfold fb_sized in Hsz1.
    replace ((0 <=? row * cw g + col) && (row * cw g + col <? Z.of_nat (length fm)))
      with true by (symmetry; apply andb_true_iff; nia).
    eexists. split; [reflexivity|]. split.
    + unfold fb_sized. now rewrite length_insert.
    + intros i. rewrite list_lookup_total_insert.
      destruct (decide _) as [[Hi Hlt] | Hn].
      * replace ((row * cw g <=? Z.of_nat i) && (Z.of_nat i <? row * cw g + (col + 1)))
          with true by (symmetry; apply andb_true_iff; lia).
        f_equal. lia.
      * rewrite Hinv.
        assert (Hne : Z.of_nat i <> row * cw g + col).
        { intros E. apply Hn. split; [lia | nia]. }
        destruct (Z.leb_spec (row * cw g) (Z.of_nat i));
        destruct (Z.ltb_spec (Z.of_nat i) (row * cw g + col));
        destruct (Z.ltb_spec (Z.of_nat i) (row * cw g + (col + 1)));
          simpl; try reflexivity; lia.
Qed.

Lemma cell_row_col cw row i :
  0 < cw -> row * cw <= i < row * cw + cw ->
  i / cw = row /\ i mod cw = i - row * cw.
Proof.
  intros Hcw Hi.
  assert (Hq : row = i / cw) by (apply Z.div_unique with (i - row * cw); lia).
  split; [lia|]. symmetry. apply Z.mod_unique with row; lia.
Qed.

(** The two loops of [compute_floor]: cells of the rows below the horizon
    hold [floor_cell], all others keep the 0 of [calloc]. *)
Lemma compute_floor_spec g :
  geom_ok g ->
  let hz := ch g * 55 / 100 in
  exists fm,
    compute_floor g = Ok (fm, hz) /\ fb_sized g fm /\
    forall i : nat, Z.of_nat i < cw g * ch g ->
      fm !!! i =
        if (hz + 1) * cw g <=? Z.of_nat i
        then floor_cell g hz (Z.of_nat i / cw g) (Z.of_nat i mod cw g)
        else 0.
Proof.
  intros Hg hz. pose proof Hg as (Hcw & Hch & _).
  assert (Hhz : 0 <= hz < ch g).
  { unfold hz. split; [apply Z.div_pos; lia|].
    apply Z.div_lt_upper_bound; lia. }
  unfold compute_floor. rewrite Z.quot_div_nonneg by lia. fold hz.
  set (fm0 := replicate (Z.to_nat (cw g * ch g)) 0).
  assert (Hsz0 : fb_sized g fm0) by (unfold fb_sized, fm0; rewrite length_replicate; nia).
  destruct (for_range_rule
    (fun row fm =>
       fb_sized g fm /\
       forall i : nat, Z.of_nat i < cw g * ch g ->
         fm !!! i =
           if ((hz + 1) * cw g <=? Z.of_nat i) && (Z.of_nat i <? row * cw g)
           then floor_cell g hz (Z.of_nat i / cw g) (Z.of_nat i mod cw g)
           else 0)
    (fun row fm =>
       for_range 0 (cw g)
         (fun col fm => store fm (row * cw g + col) (fun _ => floor_cell g hz row col))
         fm)
    (hz + 1) (ch g) fm0) as (fm & Hfm & Hsz & Hcells); [lia | | |].
  - split; [exact Hsz0|]. intros i Hi.
    replace (((hz + 1) * cw g <=? Z.of_nat i) && (Z.of_nat i <? (hz + 1) * cw g))
      with false by (symmetry; apply andb_false_iff; lia).
    unfold fm0. apply lookup_total_replicate_2. lia.
  - intros row fm1 Hrow [Hsz1 Hinv].
    destruct (fill_row_spec g hz row fm1 Hg Hsz1 ltac:(lia)) as (fm2 & Hfill & Hsz2 & Hrowc).
    exists fm2. split; [exact Hfill|]. split; [exact Hsz2|].
    intros i Hi. rewrite Hrowc.
    destruct (Z.leb_spec (row * cw g) (Z.of_nat i)) as [Hlo | Hlo];
    destruct (Z.ltb_spec (Z.of_nat i) (row * cw g + cw g)) as [Hhi | Hhi]; cbn [andb].
    + destruct (cell_row_col (cw g) row (Z.of_nat i) Hcw ltac:(lia)) as [-> ->].
      replace (((hz + 1) * cw g <=? Z.of_nat i) && (Z.of_nat i <? (row + 1) * cw g))
        with true by (symmetry; apply andb_true_iff; nia).
      reflexivity.
    + rewrite (Hinv i Hi).
      replace (Z.of_nat i <? row * cw g) with false by (symmetry; apply Z.ltb_ge; lia).
      replace (Z.of_nat i <? (row + 1) * cw g) with false by (symmetry; apply Z.ltb_ge; lia).
      reflexivity.
    + rewrite (Hinv i Hi).
      replace (Z.of_nat i <? row * cw g) with true by (symmetry; apply Z.ltb_lt; lia).
      replace (Z.of_nat i <? (row + 1) * cw g) with true by (symmetry; apply Z.ltb_lt; lia).
      reflexivity.
    + lia.
  - rewrite Hfm. simpl. exists fm. split; [reflexivity|]. split; [exact Hsz|].
    intros i Hi. rewrite (Hcells i Hi).
    replace (Z.of_nat i <? ch g * cw g) with true by (symmetry; apply Z.ltb_lt; lia).
    now rewrite andb_true_r.
Qed.

(** Where the number of cells is an [int], the 32-bit run with a
    successful allocation is the run on mathematical integers. *)
Lemma compute_floor32_agree cols rows :
  0 < cols -> 0 < rows <= 65535 -> cols * rows <= INT_MAX ->
  compute_floor32 true (mk_geom cols rows) = compute_floor (mk_geom cols rows).
Proof.
  unfold INT_MAX. change (2 ^ 31 - 1) with 2147483647. intros Hc Hr HN.
  unfold compute_floor32, compute_floor, calloc. cbn [cw ch mk_geom].
  rewrite (wrap32_small (rows * 55)) by (change (2 ^ 31) with 2147483648; lia).
  assert (Hhz : 0 <= rows * 55 ÷ 100 < rows).
  { rewrite Z.quot_div_nonneg by lia. split; [apply Z.div_pos; lia|].
    apply Z.div_lt_upper_bound; lia. }
  set (hz := rows * 55 ÷ 100) in *.
  rewrite (wrap32_small (hz + 1)) by (change (2 ^ 31) with 2147483648; lia).
  f_equal. apply for_range_ext. intros row fm Hrow.
  apply for_range_ext. intros col fm' Hcol.
  assert (Hrc : 0 <= row * cols) by (apply Z.mul_nonneg_nonneg; lia).
  assert (Hup : row * cols + col < cols * rows) by nia.
  rewrite (wrap32_small (row * cols)) by (change (2 ^ 31) with 2147483648; lia).
  now rewrite wrap32_small by (change (2 ^ 31) with 2147483648; lia).
Qed.

(** When the allocation fails the first store of [compute_floor] is
    through the null pointer. *)
Lemma compute_floor32_null cols rows :
  0 < cols -> 10 <= rows <= 65535 -> cols * rows <= INT_MAX ->
  compute_floor32 false (mk_geom cols rows) = BadIndex ((rows * 55 / 100 + 1) * cols).
Proof.
  unfold INT_MAX. change (2 ^ 31 - 1) with 2147483647. intros Hc Hr HN.
  unfold compute_floor32, calloc. cbn [cw ch mk_geom].
  rewrite (wrap32_small (rows * 55)) by (change (2 ^ 31) with 2147483648; lia).
  rewrite Z.quot_div_nonneg by lia.
  assert (Hhz : 0 <= rows * 55 / 100 /\ rows * 55 / 100 + 1 < rows).
  { split; [apply Z.div_pos; lia|].
    assert (rows * 55 / 100 < rows - 1); [|lia].
    apply Z.div_lt_upper_bound; lia. }
  set (hz := rows * 55 / 100) in *.
  rewrite (wrap32_small (hz + 1)) by (change (2 ^ 31) with 2147483648; lia).
  rewrite (for_range_fault _ (hz + 1) rows [] ((hz + 1) * cols)); [reflexivity | lia|].
  apply for_range_fault; [lia|].
  assert (Hrc : 0 <= (hz + 1) * cols < cols * rows) by nia.
  rewrite (wrap32_small ((hz + 1) * cols)) by (change (2 ^ 31) with 2147483648; lia).
  rewrite Z.add_0_r.
  rewrite wrap32_small by (change (2 ^ 31) with 2147483648; lia).
  unfold store. cbn [length].
  replace ((hz + 1) * cols <? Z.of_nat 0) with false by (symmetry; apply Z.ltb_ge; lia).
  now rewrite andb_false_r.
Qed.

(** C7, corrected: for every geometry with at least 20 columns and 10 rows
    that a terminal can report (at most 65535 each way) and whose number of
    cells is an [int], [compute_floor] returns when [calloc] has delivered
    the buffer: both loops are counted loops, every index [row * cw + col]
    is an [int] inside the buffer, so the run on 32-bit integers is the one
    on mathematical integers.  The horizon is [rows * 55 / 100] rounded
    down, 13 for 24 rows; every cell holds one of the three classes; the
    cells of the rows at or above the horizon are sky; for a cell below it
    both conversions [(int) floorf(..)] are defined and deliver the integer
    floors of its world-x [(col / cols - 0.5) * z * 8] and of its depth
    coordinate [z * 4] (with [z = 1 / t] the perspective depth of the row),
    their sum is an [int], and the cell is dark when that sum is odd and
    light when it is even.  When [calloc] returns the null pointer, the
    first store faults. *)
Theorem compute_floor_classifies cols rows :
  20 <= cols <= 65535 -> 10 <= rows <= 65535 -> cols * rows <= INT_MAX ->
  let g := mk_geom cols rows in
  let hz := rows * 55 / 100 in
  (rows = 24 -> hz = 13) /\
  compute_floor32 false g = BadIndex ((hz + 1) * cols) /\
  exists fm,
    compute_floor32 true g = Ok (fm, hz) /\
    compute_floor g = Ok (fm, hz) /\
    Z.of_nat (length fm) = cols * rows /\
    forall row col, 0 <= row < rows -> 0 <= col < cols ->
      let v := fm !!! Z.to_nat (row * cols + col) in
      int_ok (row * cols + col) = true /\
      (exists c, classify v = Some c) /\
      (row <= hz -> classify v = Some Sky) /\
      (hz < row ->
         let wx := floor_world_x g hz row col in
         let wz := floor_depth g hz row in
         cast_defined (floorf wx) = true /\ cast_defined (floorf wz) = true /\
         int_of_float (floorf wx) = floor_value wx /\
         int_of_float (floorf wz) = floor_value wz /\
         int_ok (floor_value wx + floor_value wz) = true /\
         classify v =
           Some (if Z.odd (floor_value wx + floor_value wz) then Dark else Light)).
Proof.
  intros Hc Hr HN g hz. split; [intros ->; reflexivity|].
  split; [apply compute_floor32_null; lia|].
  assert (Hg : geom_ok g) by (unfold geom_ok, g; simpl; lia).
  destruct (compute_floor_spec g Hg) as (fm & Hfm & Hsz & Hcells).
  exists fm. split; [unfold g; rewrite compute_floor32_agree by lia; exact Hfm|].
  split; [exact Hfm|]. split; [exact Hsz|].
  intros row col Hrow Hcol v.
  assert (Hhz : 0 <= hz < rows).
  { unfold hz. split; [apply Z.div_pos; lia|]. apply Z.div_lt_upper_bound; lia. }
  assert (Hidx : int_ok (row * cols + col) = true).
  { unfold int_ok, INT_MIN, INT_MAX in *. change (2 ^ 31) with 2147483648 in *.
    apply andb_true_iff. nia. }
  split; [exact Hidx|].
  assert (Hv : v = if hz + 1 <=? row then floor_cell g hz row col else 0).
  { unfold v. rewrite Hcells by (simpl; rewrite Z2Nat.id; nia).
    rewrite Z2Nat.id by nia. simpl cw. simpl ch. fold hz.
    destruct (Z.leb_spec (hz + 1) row) as [H | H].
    - replace ((hz + 1) * cols <=? row * cols + col) with true
        by (symmetry; apply Z.leb_le; nia).
      now destruct (cell_row_col cols row (row * cols + col) ltac:(lia) ltac:(lia))
        as [-> ->]; replace (row * cols + col - row * cols) with col by lia.
    - now replace ((hz + 1) * cols <=? row * cols + col) with false
        by (symmetry; apply Z.leb_gt; nia). }
  rewrite Hv, floor_cell_parity.
  assert (Hbelow : hz < row ->
            let wx := floor_world_x g hz row col in
            let wz := floor_depth g hz row in
            cast_defined (floorf wx) = true /\ cast_defined (floorf wz) = true /\
            int_of_float (floorf wx) = floor_value wx /\
            int_of_float (floorf wz) = floor_value wz /\
            int_ok (floor_value wx + floor_value wz) = true).
  { intros Hlt wx wz.
    destruct (floor_coords_range cols rows row col Hc Hr ltac:(fold hz; lia) Hcol)
      as [Hx Hz].
    fold g hz in Hx, Hz. fold wx in Hx. fold wz in Hz.
    pose proof (floorf_range _ _ _ Hx ltac:(lia)) as Hfx.
    pose proof (floorf_range _ _ _ (or_intror Hz) ltac:(lia)) as Hfz.
    destruct (int_of_float_defined _ _ _ Hfx ltac:(lia)) as [_ Hbx].
    destruct (int_of_float_defined _ _ _ Hfz ltac:(lia)) as [Etz Hbz].
    pose proof (int_of_float_floorf _ _ _ Hx ltac:(lia)) as Ex.
    pose proof (int_of_float_floorf _ _ _ (or_intror Hz) ltac:(lia)) as Ez.
    destruct (int_of_float_defined _ _ _ Hfx ltac:(lia)) as [Etx _].
    split; [apply (cast_defined_range _ _ _ Hfx); lia|].
    split; [apply (cast_defined_range _ _ _ Hfz); lia|].
    split; [exact Ex|]. split; [exact Ez|].
    rewrite <- Ex, <- Ez, Etx, Etz.
    unfold int_ok, INT_MIN, INT_MAX. change (2 ^ 30) with 1073741824 in *.
    change (2 ^ 31) with 2147483648. apply andb_true_iff. lia. }
  destruct (Z.leb_spec (hz + 1) row) as [H | H].
  - split; [destruct (Z.odd _); eauto|]. split; [lia|].
    intros Hlt wx wz. destruct (Hbelow Hlt) as (D1 & D2 & E1 & E2 & Hs).
    fold wx wz in E1, E2, Hs, D1, D2.
    repeat (split; [assumption|]).
    fold wx wz. rewrite E1, E2. now destruct (Z.odd _).
  - split; [eauto|]. split; [reflexivity|]. lia.
Qed.

Lemma compute_floor_classifies_witness :
  let g := mk_geom 80 24 in
  let hz := 24 * 55 / 100 in
  (24 = 24 -> hz = 13) /\
  compute_floor32 false g = BadIndex ((hz + 1) * 80) /\
  exists fm,
    compute_floor32 true g = Ok (fm, hz) /\
    compute_floor g = Ok (fm, hz) /\
    Z.of_nat (length fm) = 80 * 24 /\
    forall row col, 0 <= row < 24 -> 0 <= col < 80 ->
      let v := fm !!! Z.to_nat (row * 80 + col) in
      int_ok (row * 80 + col) = true /\
      (exists c, classify v = Some c) /\
      (row <= hz -> classify v = Some Sky) /\
      (hz < row ->
         let wx := floor_world_x g hz row col in
         let wz := floor_depth g hz row in
         cast_defined (floorf wx) = true /\ cast_defined (floorf wz) = true /\
         int_of_float (floorf wx) = floor_value wx /\
         int_of_float (floorf wz) = floor_value wz /\
         int_ok (floor_value wx + floor_value wz) = true /\
         classify v =
           Some (if Z.odd (floor_value wx + floor_value wz) then Dark else Light)).
Proof.
  apply (compute_floor_classifies 80 24); try lia.
  unfold INT_MAX. change (2 ^ 31 - 1) with 2147483647. lia.
Defined.

(** C7 as stated fails: not every geometry with at least 20 columns and 10
    rows is classified.  The sizes are [unsigned short]s; on a display of
    46341 x 46341 cells the index [row * cw + col] of the last row leaves
    the range of [int] at column 41708, where it is [2^31]: the behaviour is
    undefined.  With 32-bit wrap-around the index is [- 2^31] and the store
    is outside the buffer, although [calloc] has delivered it. *)
Lemma compute_floor_index_overflow :
  let cols := 46341 in
  let rows := 46341 in
  (20 <= cols <= 65535 /\ 10 <= rows <= 65535) /\
  int_ok ((rows - 1) * cols + 41708) = false /\
  compute_floor32 true (mk_geom cols rows) = BadIndex (- 2 ^ 31).
Proof.
  cbv zeta. split; [lia|]. split; [reflexivity|].
  unfold compute_floor32. cbn [cw ch mk_geom].
  change (Z.quot (wrap32 (46341 * 55)) 100) with 25487.
  change (wrap32 (25487 + 1)) with 25488.
  set (g := mk_geom 46341 46341).
  set (N := 46341 * 46341).
  assert (Hlen : Z.of_nat (length (calloc true N)) = N).
  { unfold calloc. rewrite length_replicate, Z2Nat.id; unfold N; lia. }
  generalize dependent (calloc true N). intros fm0 Hlen.
  set (F := fun row floor_map =>
              for_range 0 46341
                (fun col floor_map =>
                   store floor_map (wrap32 (wrap32 (row * 46341) + col))
                         (fun _ => floor_cell g 25487 row col))
                floor_map).
  assert (HN : N < 2 ^ 32 /\ 46340 * 46341 + 41708 <= N) by (unfold N; lia).
  (* the rows above the last one *)
  destruct (for_range_rule (fun _ fm => Z.of_nat (length fm) = N) F 25488 46340 fm0)
    as (fm1 & H1 & Hlen1); [lia | exact Hlen | |].
  { intros row fm Hrow Hl. unfold F.
    destruct (for_range_rule (fun _ fm => Z.of_nat (length fm) = N)
                (fun col floor_map =>
                   store floor_map (wrap32 (wrap32 (row * 46341) + col))
                         (fun _ => floor_cell g 25487 row col))
                0 46341 fm) as (fm' & Hf & Hl'); [lia | exact Hl | | eauto].
    intros col fm2 Hcol Hl2.
    rewrite (wrap32_small (row * 46341)) by (change (2 ^ 31) with 2147483648; lia).
    rewrite wrap32_small by (change (2 ^ 31) with 2147483648; lia).
    unfold store.
    replace ((0 <=? row * 46341 + col) && (row * 46341 + col <? Z.of_nat (length fm2)))
      with true by (symmetry; apply andb_true_iff; unfold N in *; lia).
    eexists. split; [reflexivity|]. now rewrite length_insert. }
  rewrite (for_range_split F 25488 46340 46341) by lia. rewrite H1.
  cbn [mbind result_bind rbind].
  (* the last row, up to the first index that is not an [int] *)
  rewrite (for_range_fault F 46340 46341 fm1 (- 2 ^ 31)); [reflexivity | lia|].
  unfold F.
  rewrite (for_range_split _ 0 41708 46341) by lia.
  destruct (for_range_rule (fun _ fm => Z.of_nat (length fm) = N)
              (fun col floor_map =>
                 store floor_map (wrap32 (wrap32 (46340 * 46341) + col))
                       (fun _ => floor_cell g 25487 46340 col))
              0 41708 fm1) as (fm2 & H2 & Hlen2); [lia | exact Hlen1 | |].
  { intros col fm Hcol Hl.
    change (wrap32 (46340 * 46341)) with 2147441940.
    rewrite wrap32_small by (change (2 ^ 31) with 2147483648; lia).
    unfold store.
    replace ((0 <=? 2147441940 + col) && (2147441940 + col <? Z.of_nat (length fm)))
      with true by (symmetry; apply andb_true_iff; unfold N in *; lia).
    eexists. split; [reflexivity|]. now rewrite length_insert. }
  rewrite H2. cbn [mbind result_bind rbind].
  apply for_range_fault; [lia|].
  change (wrap32 (wrap32 (46340 * 46341) + 41708)) with (- 2 ^ 31).
  reflexivity.
Qed.

Example floor_80x24_row14 :
  (fun col => floor_cell (mk_geom 80 24) 13 14 col) <$> seqZ 0 12
  = [2; 1; 2; 1; 2; 1; 2; 1; 2; 1; 1; 2].
Proof. vm_compute. reflexivity. Qed.

(** ** Start-up checks of [main] *)

(** C9: when the geometry query fails, or reports fewer than 20 columns or
    fewer than 10 rows, [main] returns 1 and has written no frame, whatever
    the C library, the allocator and the input do: the floor field is not
    computed and the frame loop is not entered. *)
Theorem main_rejects_small_display sinf cosf e :
  argv e = [] ->
  (winsize e = None \/
   exists cols rows, winsize e = Some (cols, rows) /\ (cols < 20 \/ rows < 10)) ->
  main sinf cosf e = Ok (1, []).
Proof.
  intros Hargs Hws. unfold main. rewrite Hargs.
  destruct Hws as [-> | (cols & rows & -> & Hsmall)]; [reflexivity|].
  now replace ((cols <? 20) || (rows <? 10)) with true
    by (symmetry; apply orb_true_iff; lia).
Qed.

Lemma main_rejects_small_display_witness :
  main (fun x => x) (fun x => x)
       {| argv := []; winsize := Some (19, 50); alloc_ok := true;
          polls := [false; false; true] |} = Ok (1, []).
Proof.
  apply main_rejects_small_display.
  - reflexivity.
  - right. exists 19, 50. split; [reflexivity | lia].
Defined.

(** On a 20 x 10 display with a key pressed during the first frame delay,
    [main] writes one frame, of 825 bytes, and returns 0.  The only pose
    rendered has its three angles at 0, where the sine is 0 and the cosine
    is 1. *)
Example main_20x10_one_frame :
  match main (fun _ => of_int 0) (fun _ => of_int 1)
             {| argv := []; winsize := Some (20, 10); alloc_ok := true;
                polls := [false; true] |} with
  | Ok (0, [f]) => length f = 825%nat
  | _ => False
  end.
Proof. vm_compute. reflexivity. Qed.

(* ================================================================== *)
(** * Part III: further properties of the code                         *)
(* ================================================================== *)

Lemma loop_points_head fuel x1 y1 dx dy sx sy x0 y0 err pts :
  loop_points fuel x1 y1 dx dy sx sy x0 y0 err = Some pts ->
  exists rest, pts = (x0, y0) :: rest.
Proof.
  destruct fuel as [|fuel]; [discriminate|]. rewrite loop_points_S. cbv zeta.
  destruct ((x0 =? x1) && (y0 =? y1)); [intros [= <-]; now eexists|].
  destruct (2 * err >=? dy), (2 * err <=? dx); cbv iota beta;
    (match goal with
     | |- option_map _ ?t = _ -> _ => destruct t as [pts'|]
     end; simpl; intros [= <-]; now eexists).
Qed.

Section BresenhamShape.

Variables x1 y1 A B sx sy : Z.
Hypothesis Hsx : sx = 1 \/ sx = -1.
Hypothesis Hsy : sy = 1 \/ sy = -1.

Ltac directions :=
  unfold loop_inv, major_inv in *;
  destruct Hsx as [-> | ->], Hsy as [-> | ->]; lia.

Lemma shape_at_weaken rx ry rx' ry' p :
  rx' <= rx -> ry' <= ry -> shape_at x1 y1 A B sx sy rx' ry' p -> shape_at x1 y1 A B sx sy rx ry p.
Proof. unfold shape_at. lia. Qed.

Lemma loop_points_shape fuel :
  forall x0 y0 err rx ry pts,
    loop_inv x1 y1 A B sx sy x0 y0 err rx ry ->
    major_inv A B err ->
    loop_points fuel x1 y1 A (- B) sx sy x0 y0 err = Some pts ->
    length pts = S (Z.to_nat (if B <=? A then rx else ry)) /\
    connected pts = true /\
    NoDup pts /\
    Forall (shape_at x1 y1 A B sx sy rx ry) pts.
Proof using Hsx Hsy.
  induction fuel as [|fuel IH]; intros x0 y0 err rx ry pts Hinv Hmaj; [discriminate|].
  rewrite loop_points_S. cbv zeta.
  assert (Hhere : shape_at x1 y1 A B sx sy rx ry (x0, y0)).
  { unfold shape_at; simpl. unfold loop_inv, major_inv in *.
    destruct Hinv as (-> & -> & ? & ? & Herr & _).
    assert (A <= B \/ B <= A) as [Hc | Hc] by lia; lia. }
  destruct ((x0 =? x1) && (y0 =? y1)) eqn:Hend.
  - intros [= <-].
    apply andb_true_iff in Hend. destruct Hend as [Hx Hy].
    apply Z.eqb_eq in Hx, Hy. subst x0 y0.
    assert (rx = 0 /\ ry = 0) as [-> ->] by (unfold loop_inv in Hinv; lia).
    split; [now destruct (B <=? A)|]. split; [reflexivity|].
    split; [apply NoDup_singleton|]. now constructor.
  - assert (Hstep : forall x0' y0' err' rx' ry' pts',
              loop_inv x1 y1 A B sx sy x0' y0' err' rx' ry' ->
              major_inv A B err' ->
              rx' <= rx -> ry' <= ry ->
              (if B <=? A then rx' else ry') = (if B <=? A then rx else ry) - 1 ->
              (x0' = x0 + sx \/ x0' = x0) -> (y0' = y0 + sy \/ y0' = y0) ->
              (x0', y0') <> (x0, y0) ->
              (rx' < rx \/ ry' < ry) ->
              loop_points fuel x1 y1 A (- B) sx sy x0' y0' err' = Some pts' ->
              length ((x0, y0) :: pts') = S (Z.to_nat (if B <=? A then rx else ry)) /\
              connected ((x0, y0) :: pts') = true /\
              NoDup ((x0, y0) :: pts') /\
              Forall (shape_at x1 y1 A B sx sy rx ry) ((x0, y0) :: pts')).
    { intros x0' y0' err' rx' ry' pts' Hinv' Hmaj' Hrx Hry Hmajor Hx' Hy' Hne Hlt Hp.
      destruct (loop_points_head _ _ _ _ _ _ _ _ _ _ _ Hp) as [rest Hhd].
      destruct (IH _ _ _ _ _ _ Hinv' Hmaj' Hp) as (Hlen & Hconn & Hnd & Hall).
      assert (0 <= (if B <=? A then rx' else ry'))
        by (destruct (B <=? A); unfold loop_inv in Hinv'; lia).
      split; [|split; [|split]].
      - cbn [length]. rewrite Hlen. f_equal. lia.
      - rewrite Hhd in *.
        change (connected ((x0, y0) :: (x0', y0') :: rest))
          with (adjacent (x0, y0) (x0', y0') && connected ((x0', y0') :: rest)).
        rewrite Hconn, andb_true_r.
        unfold adjacent, point_eqb; simpl.
        repeat (apply andb_true_iff; split).
        + apply Z.leb_le. directions.
        + apply Z.leb_le. directions.
        + apply negb_true_iff, andb_false_iff. rewrite !Z.eqb_neq.
          destruct (Z.eq_dec x0 x0'); [|now left].
          destruct (Z.eq_dec y0 y0'); [|now right]. congruence.
      - constructor; [|exact Hnd].
        intros Hin.
        rewrite Forall_forall in Hall. apply Hall in Hin.
        unfold shape_at in Hin; simpl in Hin. unfold loop_inv in Hinv. lia.
      - constructor; [exact Hhere|].
        eapply Forall_impl; [exact Hall|]. intros p.
        apply shape_at_weaken; lia. }
    destruct (loop_step_cases x1 y1 A B sx sy Hsx Hsy x0 y0 err rx ry Hinv Hend)
      as [(Hx & Hy & Hnext) | [(Hx & Hy & Hnext) | (Hx & Hy & Hnext)]];
      rewrite Hx, Hy; cbv iota beta;
      (match goal with
       | |- option_map _ ?t = _ -> _ => destruct t as [pts'|] eqn:Hp
       end; simpl; [|discriminate]; intros [= <-]);
      rewrite Z.geb_leb in Hx;
      (apply Z.leb_le in Hx || apply Z.leb_gt in Hx);
      (apply Z.leb_le in Hy || apply Z.leb_gt in Hy);
      (eapply Hstep; [exact Hnext | | | | | | | | | exact Hp]).
    all: try (unfold loop_inv, major_inv in *; destruct (Z.leb_spec B A); lia).
    all: try (left; reflexivity).
    all: try (right; reflexivity).
    all: intros E; inversion E; directions.
Qed.

End BresenhamShape.

Lemma major_inv_init A B : 0 <= A -> 0 <= B -> major_inv A B (A + - B).
Proof. unfold major_inv. lia. Qed.

(** The trace of a segment: one point per step on the axis with the larger
    span, each touching the next, none visited twice, all within half a
    step of the ideal line. *)
Lemma line_points_shape fuel x0 y0 x1 y1 pts :
  line_points fuel x0 y0 x1 y1 = Some pts ->
  length pts = S (Z.to_nat (Z.max (Z.abs (x1 - x0)) (Z.abs (y1 - y0)))) /\
  connected pts = true /\
  NoDup pts /\
  Forall (fun p => 2 * Z.abs (deviation x0 y0 x1 y1 p)
                   <= Z.max (Z.abs (x1 - x0)) (Z.abs (y1 - y0))) pts.
Proof.
  unfold line_points. intros Hp.
  destruct (loop_inv_init x0 y0 x1 y1) as (Hsx & Hsy & Hinv).
  destruct (loop_points_shape _ _ _ _ _ _ Hsx Hsy fuel _ _ _ _ _ _ Hinv
              (major_inv_init _ _ (Z.abs_nonneg _) (Z.abs_nonneg _)) Hp)
    as (Hlen & Hconn & Hnd & Hall).
  split; [|split; [exact Hconn | split; [exact Hnd|]]].
  - rewrite Hlen. do 2 f_equal.
    destruct (Z.leb_spec (Z.abs (y1 - y0)) (Z.abs (x1 - x0))); lia.
  - eapply Forall_impl; [exact Hall|]. intros [px py].
    unfold shape_at, deviation. cbn [fst snd]. intros (_ & _ & H).
    destruct (Z.ltb_spec x0 x1), (Z.ltb_spec y0 y1); cbv beta iota zeta in H;
      rewrite ?(Z.abs_eq (x1 - x0)), ?(Z.abs_neq (x1 - x0)),
        ?(Z.abs_eq (y1 - y0)), ?(Z.abs_neq (y1 - y0)) in * by lia;
      lia.
Qed.

(** X1: for endpoints of at most 27 bits in magnitude, where no value of
    the loop leaves the range of [int], the sub-pixels [draw_line] hands to
    [fb_set] form a gap-free path: there are
    [max (|x1 - x0|) (|y1 - y0|) + 1] of them, one per step along the axis
    with the larger span, each touches the next one (it differs by at most
    one in each coordinate) and none is visited twice. *)
Theorem draw_line_path g fb x0 y0 x1 y1 :
  - 2 ^ 27 <= x0 <= 2 ^ 27 -> - 2 ^ 27 <= y0 <= 2 ^ 27 ->
  - 2 ^ 27 <= x1 <= 2 ^ 27 -> - 2 ^ 27 <= y1 <= 2 ^ 27 ->
  exists pts,
    line_points (line_fuel x0 y0 x1 y1) x0 y0 x1 y1 = Some pts /\
    line_in_int (line_fuel x0 y0 x1 y1) x0 y0 x1 y1 = true /\
    line_points32 (line_fuel x0 y0 x1 y1) x0 y0 x1 y1 = (pts, true) /\
    draw_line (line_fuel x0 y0 x1 y1) g fb x0 y0 x1 y1 = set_points g fb pts /\
    length pts = S (Z.to_nat (Z.max (Z.abs (x1 - x0)) (Z.abs (y1 - y0)))) /\
    connected pts = true /\
    NoDup pts.
Proof.
  intros Hx0 Hy0 Hx1 Hy1.
  destruct (line_run_in_range _ x0 y0 x1 y1 Hx0 Hy0 Hx1 Hy1 (Nat.le_refl _))
    as (pts & Hp & Hint & H32).
  destruct (line_points_shape _ _ _ _ _ _ Hp) as (Hlen & Hconn & Hnd & _).
  exists pts. split; [exact Hp|]. split; [exact Hint|]. split; [exact H32|].
  split; [now apply draw_line_trace|]. auto.
Qed.

Lemma draw_line_path_witness :
  exists pts,
    line_points (line_fuel 3 1 (-2) 4) 3 1 (-2) 4 = Some pts /\
    line_in_int (line_fuel 3 1 (-2) 4) 3 1 (-2) 4 = true /\
    line_points32 (line_fuel 3 1 (-2) 4) 3 1 (-2) 4 = (pts, true) /\
    draw_line (line_fuel 3 1 (-2) 4) (mk_geom 4 2) (replicate 8 0) 3 1 (-2) 4 =
      set_points (mk_geom 4 2) (replicate 8 0) pts /\
    length pts = S (Z.to_nat (Z.max (Z.abs (-2 - 3)) (Z.abs (4 - 1)))) /\
    connected pts = true /\
    NoDup pts.
Proof.
  apply (draw_line_path (mk_geom 4 2) (replicate 8 0) 3 1 (-2) 4);
    change (2 ^ 27) with 134217728; lia.
Defined.

(** X2: for endpoints of at most 27 bits in magnitude, where no value of
    the loop leaves the range of [int], every sub-pixel [draw_line] visits
    lies within half a step of the ideal segment, measured along the axis
    with the smaller span: for a visited [(x, y)],
    [2 * |(x1 - x0) * (y - y0) - (y1 - y0) * (x - x0)|] is at most
    [max (|x1 - x0|) (|y1 - y0|)]. *)
Theorem draw_line_follows_segment g fb x0 y0 x1 y1 :
  - 2 ^ 27 <= x0 <= 2 ^ 27 -> - 2 ^ 27 <= y0 <= 2 ^ 27 ->
  - 2 ^ 27 <= x1 <= 2 ^ 27 -> - 2 ^ 27 <= y1 <= 2 ^ 27 ->
  exists pts,
    line_points (line_fuel x0 y0 x1 y1) x0 y0 x1 y1 = Some pts /\
    line_in_int (line_fuel x0 y0 x1 y1) x0 y0 x1 y1 = true /\
    line_points32 (line_fuel x0 y0 x1 y1) x0 y0 x1 y1 = (pts, true) /\
    draw_line (line_fuel x0 y0 x1 y1) g fb x0 y0 x1 y1 = set_points g fb pts /\
    forall x y, In (x, y) pts ->
      2 * Z.abs ((x1 - x0) * (y - y0) - (y1 - y0) * (x - x0))
      <= Z.max (Z.abs (x1 - x0)) (Z.abs (y1 - y0)).
Proof.
  intros Hx0 Hy0 Hx1 Hy1.
  destruct (line_run_in_range _ x0 y0 x1 y1 Hx0 Hy0 Hx1 Hy1 (Nat.le_refl _))
    as (pts & Hp & Hint & H32).
  destruct (line_points_shape _ _ _ _ _ _ Hp) as (_ & _ & _ & Hall).
  exists pts. split; [exact Hp|]. split; [exact Hint|]. split; [exact H32|].
  split; [now apply draw_line_trace|].
  intros x y Hin. rewrite Forall_forall in Hall.
  apply (Hall (x, y)). now apply list_elem_of_In.
Qed.

Lemma draw_line_follows_segment_witness :
  exists pts,
    line_points (line_fuel (-40) 95 159 (-7)) (-40) 95 159 (-7) = Some pts /\
    line_in_int (line_fuel (-40) 95 159 (-7)) (-40) 95 159 (-7) = true /\
    line_points32 (line_fuel (-40) 95 159 (-7)) (-40) 95 159 (-7) = (pts, true) /\
    draw_line (line_fuel (-40) 95 159 (-7)) (mk_geom 80 24) (replicate 1920 0)
              (-40) 95 159 (-7) =
      set_points (mk_geom 80 24) (replicate 1920 0) pts /\
    forall x y, In (x, y) pts ->
      2 * Z.abs ((159 - -40) * (y - 95) - (-7 - 95) * (x - -40))
      <= Z.max (Z.abs (159 - -40)) (Z.abs (-7 - 95)).
Proof.
  apply (draw_line_follows_segment (mk_geom 80 24) (replicate 1920 0) (-40) 95 159 (-7));
    change (2 ^ 27) with 134217728; lia.
Defined.

(** X3: a segment with both endpoints on the screen, drawn into a cleared
    framebuffer, occupies exactly [max (|x1 - x0|) (|y1 - y0|) + 1]
    sub-pixels. *)
Theorem draw_line_dot_count g fb x0 y0 x1 y1 :
  geom_ok g -> fb_sized g fb ->
  in_bounds g (x0, y0) = true -> in_bounds g (x1, y1) = true ->
  exists fb',
    draw_line (line_fuel x0 y0 x1 y1) g (fb_clear g fb) x0 y0 x1 y1 = Ok fb' /\
    count_dots g fb' = S (Z.to_nat (Z.max (Z.abs (x1 - x0)) (Z.abs (y1 - y0)))).
Proof.
  intros Hg Hsz H0 H1. rewrite (fb_clear_sized g fb Hg Hsz).
  set (fb0 := replicate (Z.to_nat (cw g * ch g)) 0).
  assert (Hsz0 : fb_sized g fb0).
  { unfold fb_sized, fb0. rewrite length_replicate. destruct Hg as (? & ? & _). nia. }
  destruct (line_points_total (line_fuel x0 y0 x1 y1) x0 y0 x1 y1 ltac:(lia))
    as (pts & Hp & _ & _ & Hbox & _).
  destruct (line_points_shape _ _ _ _ _ _ Hp) as (Hlen & _ & Hnd & _).
  rewrite (draw_line_trace _ g fb0 _ _ _ _ _ Hp).
  destruct (set_points_ok g pts Hg fb0 Hsz0) as (fb' & Hset & _).
  exists fb'. split; [exact Hset|].
  rewrite <- Hlen. apply count_dots_eq; [exact Hnd | |].
  - intros [x y] Hin. rewrite Forall_forall in Hbox. apply Hbox in Hin.
    apply in_bounds_true in H0, H1. apply in_bounds_true.
    cbn [fst snd] in *. lia.
  - intros x y Hb. rewrite (set_points_dot g _ Hg fb0 fb' x y Hsz0 Hset Hb).
    unfold fb0. now rewrite dot_clear.
Qed.

Lemma draw_line_dot_count_witness :
  exists fb',
    draw_line (line_fuel 1 6 7 2) (mk_geom 4 2)
              (fb_clear (mk_geom 4 2) [0x41; 0; 3; 0; 0; 0x80; 0; 0]) 1 6 7 2 = Ok fb' /\
    count_dots (mk_geom 4 2) fb' = S (Z.to_nat (Z.max (Z.abs (7 - 1)) (Z.abs (2 - 6)))).
Proof.
  apply (draw_line_dot_count (mk_geom 4 2) [0x41; 0; 3; 0; 0; 0x80; 0; 0] 1 6 7 2).
  - unfold geom_ok; simpl; lia.
  - reflexivity.
  - reflexivity.
  - reflexivity.
Defined.

Example draw_line_dot_count_example :
  line_points (line_fuel 1 6 7 2) 1 6 7 2 =
    Some [(1, 6); (2, 5); (3, 5); (4, 4); (5, 3); (6, 3); (7, 2)].
Proof. reflexivity. Qed.

(** The framebuffer after a run of [fb_set] calls depends only on which
    on-screen sub-pixels were addressed. *)
Lemma set_points_same_dots g fb pts pts' :
  geom_ok g -> fb_sized g fb -> Forall is_byte fb ->
  (forall p, in_bounds g p = true -> In p pts <-> In p pts') ->
  set_points g fb pts = set_points g fb pts'.
Proof.
  intros Hg Hsz Hby Hsame.
  destruct (set_points_ok g pts Hg fb Hsz) as (fb1 & Hs1 & Hsz1).
  destruct (set_points_ok g pts' Hg fb Hsz) as (fb2 & Hs2 & Hsz2).
  rewrite Hs1, Hs2. f_equal.
  destruct (set_points_bytes g pts Hg fb fb1 Hsz Hby Hs1) as [_ Hu1].
  destruct (set_points_bytes g pts' Hg fb fb2 Hsz Hby Hs2) as [_ Hu2].
  assert (Hlen1 : length fb1 = length fb) by (unfold fb_sized in *; lia).
  assert (Hlen2 : length fb2 = length fb) by (unfold fb_sized in *; lia).
  apply list_eq_same_length with (length fb); [lia | lia |].
  intros k a b Hk Ha Hb.
  apply list_lookup_total_correct in Ha, Hb. subst a b.
  rewrite Hu1, Hu2 by exact Hk.
  apply Z.bits_inj'. intros n Hn. rewrite !cell_union_testbit by exact Hn.
  f_equal. apply eq_true_iff_eq. rewrite !existsb_exists.
  split; intros (p & Hin & Hh); exists p; (split; [|exact Hh]);
    apply (Hsame p); auto;
    unfold hits in Hh; apply andb_true_iff in Hh; destruct Hh as [Hh _];
    apply andb_true_iff in Hh; now destruct Hh.
Qed.

Lemma segs_points_In segs p :
  In p (segs_points segs) <->
  exists s, In s segs /\
    In p (default [] (line_points (line_fuel s.1.1 s.1.2 s.2.1 s.2.2)
                                  s.1.1 s.1.2 s.2.1 s.2.2)).
Proof.
  unfold segs_points. rewrite <- list_elem_of_In, list_elem_of_bind. split.
  - intros ([[x0 y0] [x1 y1]] & Hp & Hs). exists (x0, y0, (x1, y1)).
    split; [now apply list_elem_of_In | now apply list_elem_of_In].
  - intros ([[x0 y0] [x1 y1]] & Hs & Hp). exists (x0, y0, (x1, y1)).
    split; [now apply list_elem_of_In in Hp | now apply list_elem_of_In].
Qed.

(** X4: the framebuffer left by a batch of segments does not depend on the
    order in which they are drawn, and drawing a segment again changes
    nothing: two batches with the same segments give the same bytes. *)
Theorem draw_lines_order_irrelevant g fb segs segs' :
  geom_ok g -> fb_sized g fb -> Forall is_byte fb ->
  (forall s, In s segs <-> In s segs') ->
  draw_lines g fb segs = draw_lines g fb segs'.
Proof.
  intros Hg Hsz Hby Hsame. rewrite !draw_lines_trace.
  apply set_points_same_dots; try assumption.
  intros p _. rewrite !segs_points_In.
  split; intros (s & Hs & Hp); exists s; (split; [apply Hsame, Hs | exact Hp]).
Qed.

Lemma draw_lines_order_irrelevant_witness :
  draw_lines (mk_geom 4 2) [0x41; 0; 3; 0; 0; 0x80; 0; 0]
             [(0, 0, (7, 7)); (-3, 2, (9, 2)); (1, 6, (1, 0))] =
  draw_lines (mk_geom 4 2) [0x41; 0; 3; 0; 0; 0x80; 0; 0]
             [(1, 6, (1, 0)); (0, 0, (7, 7)); (1, 6, (1, 0)); (-3, 2, (9, 2))].
Proof.
  apply (draw_lines_order_irrelevant (mk_geom 4 2) [0x41; 0; 3; 0; 0; 0x80; 0; 0]).
  - unfold geom_ok; simpl; lia.
  - reflexivity.
  - repeat constructor; unfold is_byte; lia.
  - intros s. simpl. tauto.
Defined.

(** X5: [fb_set] never fails on a framebuffer of the right size, whatever
    the coordinates, keeps its size, and changes exactly one thing: the
    addressed sub-pixel, when it is on the screen, is occupied afterwards;
    every other on-screen sub-pixel is as before. *)
Theorem fb_set_marks_one_dot g fb x y :
  geom_ok g -> fb_sized g fb ->
  exists fb',
    fb_set g fb x y = Ok fb' /\ fb_sized g fb' /\
    (out_of_bounds g x y = true -> fb' = fb) /\
    (forall x' y', out_of_bounds g x' y' = false ->
       dot g fb' x' y' =
         dot g fb x' y' || (in_bounds g (x, y) && point_eqb (x, y) (x', y'))).
Proof.
  intros Hg Hsz.
  destruct (fb_set_spec g fb x y Hg Hsz) as (fb' & Hset & Hsz' & _).
  exists fb'. split; [exact Hset|]. split; [exact Hsz'|]. split.
  - intros Hout. rewrite (fb_set_out g fb x y Hout) in Hset. congruence.
  - intros x' y' Hb. now apply fb_set_dot.
Qed.

Lemma fb_set_marks_one_dot_witness :
  exists fb',
    fb_set (mk_geom 4 2) [0x41; 0; 3; 0; 0; 0x80; 0; 0] 3 5 = Ok fb' /\
    fb_sized (mk_geom 4 2) fb' /\
    (out_of_bounds (mk_geom 4 2) 3 5 = true -> fb' = [0x41; 0; 3; 0; 0; 0x80; 0; 0]) /\
    (forall x' y', out_of_bounds (mk_geom 4 2) x' y' = false ->
       dot (mk_geom 4 2) fb' x' y' =
         dot (mk_geom 4 2) [0x41; 0; 3; 0; 0; 0x80; 0; 0] x' y'
         || (in_bounds (mk_geom 4 2) (3, 5) && point_eqb (3, 5) (x', y'))).
Proof.
  apply (fb_set_marks_one_dot (mk_geom 4 2) [0x41; 0; 3; 0; 0; 0x80; 0; 0] 3 5).
  - unfold geom_ok; simpl; lia.
  - reflexivity.
Defined.

Lemma cell_glyph_eq g fb y x :
  cell_glyph g fb y x =
    if negb (fb !!! Z.to_nat (y * cw g + x) =? 0)
    then glyph_bytes (fb !!! Z.to_nat (y * cw g + x)) else [32].
Proof. reflexivity. Qed.

Lemma glyph_bytes_check :
  forallb (fun b =>
             match glyph_bytes b with
             | [b0; b1; b2] =>
                 (b0 =? 0xE2) && (b1 =? 0xA0 + b / 64) && (b2 =? 0x80 + b mod 64) &&
                 match utf8_decode3 [b0; b1; b2] with
                 | Some cp => cp =? 0x2800 + b
                 | None => false
                 end
             | _ => false
             end) (seqZ 0 256) = true.
Proof. vm_compute. reflexivity. Qed.

Lemma glyph_bytes_spec b :
  is_byte b ->
  glyph_bytes b = [0xE2; 0xA0 + b / 64; 0x80 + b mod 64] /\
  utf8_decode3 (glyph_bytes b) = Some (0x2800 + b).
Proof.
  intros Hb. pose proof glyph_bytes_check as H.
  rewrite forallb_forall in H. specialize (H b).
  assert (Hin : In b (seqZ 0 256)).
  { apply list_elem_of_In, elem_of_seqZ. unfold is_byte in Hb. lia. }
  apply H in Hin. clear H.
  destruct (glyph_bytes b) as [|b0 [|b1 [|b2 [|]]]]; try discriminate.
  apply andb_true_iff in Hin. destruct Hin as [Hin Hdec].
  apply andb_true_iff in Hin. destruct Hin as [Hin H2].
  apply andb_true_iff in Hin. destruct Hin as [H0 H1].
  apply Z.eqb_eq in H0, H1, H2. subst b0 b1 b2.
  split; [reflexivity|].
  destruct (utf8_decode3 _) as [cp|]; [|discriminate].
  apply Z.eqb_eq in Hdec. now subst cp.
Qed.

(** X6: what the inner loop of [render] appends for a cell is an optional
    style sequence followed by the glyph: a blank when the cell's byte is 0,
    otherwise the three-byte UTF-8 encoding of the braille character
    [U+2800 + byte], whose dot pattern has dot [mask_bit x y + 1] raised
    exactly for the occupied sub-pixels [(x, y)] of the cell.  The three
    bytes are [0xE2], [0xA0 + byte / 64] and [0x80 + byte mod 64], so no
    byte of a glyph is an ASCII or control character. *)
Theorem render_cell_glyph g fb fm y x p prev :
  is_byte (fb !!! Z.to_nat (y * cw g + x)) ->
  let b := fb !!! Z.to_nat (y * cw g + x) in
  let glyph := cell_glyph g fb y x in
  (exists style,
     fst (render_cell g fb fm y (p, prev) x) = p ++ style ++ glyph /\
     (style = [] \/ style = style_seq (cell_mode g fb fm y x))) /\
  (b = 0 -> glyph = [32]) /\
  (b <> 0 ->
     glyph = [0xE2; 0xA0 + b / 64; 0x80 + b mod 64] /\
     utf8_decode3 glyph = Some (0x2800 + b) /\
     Forall (fun c => 128 <= c < 256) glyph) /\
  (forall px py, Z.to_nat (cell_index g px py) = Z.to_nat (y * cw g + x) ->
     dot g fb px py = Z.testbit b (mask_bit px py)).
Proof.
  intros Hb b glyph. split; [|split; [|split]].
  - rewrite render_cell_eq. cbn [fst].
    destruct (negb _); eexists; split; try reflexivity; auto.
  - intros H0. unfold glyph. rewrite cell_glyph_eq. fold b. now rewrite H0.
  - intros Hnz. unfold glyph. rewrite cell_glyph_eq. fold b.
    replace (b =? 0) with false by (symmetry; now apply Z.eqb_neq).
    cbn [negb]. destruct (glyph_bytes_spec b Hb) as [Hg Hd].
    split; [exact Hg|]. split; [exact Hd|]. rewrite Hg.
    unfold is_byte in Hb.
    assert (0 <= b / 64 < 4)
      by (split; [apply Z.div_pos | apply Z.div_lt_upper_bound]; lia).
    pose proof (Z.mod_pos_bound b 64 ltac:(lia)).
    repeat constructor; lia.
  - intros px py Hc. rewrite dot_testbit. unfold b. now rewrite Hc.
Qed.

Lemma render_cell_glyph_witness :
  let g := mk_geom 3 2 in
  let fb := [0; 0x41; 0; 0; 0; 0x80] in
  let fm := [0; 0; 0; 1; 1; 2] in
  let b := fb !!! Z.to_nat (0 * cw g + 1) in
  let glyph := cell_glyph g fb 0 1 in
  (exists style,
     fst (render_cell g fb fm 0 ([], 0) 1) = [] ++ style ++ glyph /\
     (style = [] \/ style = style_seq (cell_mode g fb fm 0 1))) /\
  (b = 0 -> glyph = [32]) /\
  (b <> 0 ->
     glyph = [0xE2; 0xA0 + b / 64; 0x80 + b mod 64] /\
     utf8_decode3 glyph = Some (0x2800 + b) /\
     Forall (fun c => 128 <= c < 256) glyph) /\
  (forall px py, Z.to_nat (cell_index g px py) = Z.to_nat (0 * cw g + 1) ->
     dot g fb px py = Z.testbit b (mask_bit px py)).
Proof.
  apply (render_cell_glyph (mk_geom 3 2) [0; 0x41; 0; 0; 0; 0x80] [0; 0; 0; 1; 1; 2]
           0 1 [] 0).
  unfold is_byte. simpl. lia.
Defined.

Lemma draw_line_ok g fb x0 y0 x1 y1 :
  geom_ok g -> fb_sized g fb ->
  exists fb',
    draw_line (line_fuel x0 y0 x1 y1) g fb x0 y0 x1 y1 = Ok fb' /\ fb_sized g fb'.
Proof.
  intros Hg Hsz.
  destruct (line_points_total (line_fuel x0 y0 x1 y1) x0 y0 x1 y1 ltac:(lia))
    as (pts & Hp & _).
  rewrite (draw_line_trace _ g fb _ _ _ _ _ Hp). now apply set_points_ok.
Qed.

Lemma draw_edges_ok g proj es :
  geom_ok g ->
  forall fb, fb_sized g fb ->
    exists fb', draw_edges g fb proj es = Ok fb' /\ fb_sized g fb'.
Proof.
  intros Hg. induction es as [|[a b] es IH]; intros fb Hsz.
  - now exists fb.
  - cbn [draw_edges]. cbv zeta.
    match goal with
    | |- context [draw_line ?f g fb ?a0 ?b0 ?a1 ?b1] =>
        destruct (draw_line_ok g fb a0 b0 a1 b1 Hg Hsz) as (fb1 & -> & Hsz1)
    end.
    simpl. now apply IH.
Qed.

Lemma render_length g fb fm :
  geom_ok g -> fb_sized g fm -> Forall is_byte fm ->
  Z.of_nat (length (render g fb fm)) <= rbuf_size g.
Proof.
  intros Hg Hsz Hby. pose proof (render_length_le g fb fm Hg Hsz Hby) as H.
  unfold rbuf_size. destruct Hg as (Hcw & Hch & _). nia.
Qed.

Lemma floor_cell_byte g hz row col : floor_cell g hz row col = 1 \/ floor_cell g hz row col = 2.
Proof. unfold floor_cell. destruct (negb _); [left | right]; reflexivity. Qed.

Lemma compute_floor_bytes g :
  geom_ok g ->
  exists fm,
    compute_floor g = Ok (fm, horizon_of g) /\ fb_sized g fm /\ Forall is_byte fm.
Proof.
  intros Hg. destruct (compute_floor_spec g Hg) as (fm & Hc & Hsz & Hcell).
  exists fm. split.
  - rewrite Hc. unfold horizon_of. destruct Hg as (? & ? & _).
    now rewrite Z.quot_div_nonneg by lia.
  - split; [exact Hsz|]. apply Forall_lookup. intros i b Hb.
    assert (Hi : Z.of_nat i < cw g * ch g).
    { apply lookup_lt_Some in Hb. unfold fb_sized in Hsz. lia. }
    apply list_lookup_total_correct in Hb. subst b. rewrite (Hcell i Hi).
    unfold is_byte. destruct (_ <=? _); [|lia].
    destruct (floor_cell_byte g (ch g * 55 / 100) (Z.of_nat i / cw g) (Z.of_nat i mod cw g))
      as [-> | ->]; lia.
Qed.

Lemma reachable_bounce_at P k : reachable P (bounce_at P k).
Proof.
  induction k as [|k IH]; [apply reach_init|].
  unfold bounce_at. rewrite Nat.iter_succ. now apply reach_step.
Qed.

Section FrameLoop.

Variables sinf cosf : float -> float.
Variables (g : geom) (P : physics) (fm : list Z).
Hypothesis Hg : geom_ok g.

Lemma frame_eq fb k :
  fb_sized g fb ->
  exists fb' bytes,
    frame sinf cosf g P fm fb (bounce_at P k) (pose_at k) =
      Ok (fb', bytes, bounce_at P (S k), pose_at (S k)) /\
    fb_sized g fb' /\
    frame_image sinf cosf g P fm k = Ok bytes.
Proof using Hg.
  intros Hsz. unfold frame, frame_image.
  rewrite (fb_clear_sized g fb Hg Hsz).
  set (fb0 := replicate (Z.to_nat (cw g * ch g)) 0).
  assert (Hsz0 : fb_sized g fb0).
  { unfold fb_sized, fb0. rewrite length_replicate. destruct Hg as (? & ? & _). nia. }
  cbv zeta.
  change (physics_step P (bounce_at P k)) with (bounce_at P (S k)).
  match goal with
  | |- context [draw_edges g fb0 ?proj edges] =>
      destruct (draw_edges_ok g proj edges Hg fb0 Hsz0) as (fb' & -> & Hsz')
  end.
  exists fb', (render g fb' fm). simpl. auto.
Qed.

Lemma main_loop_frames (n : nat) :
  forall polls fb k out,
    (length polls <= n)%nat -> fb_sized g fb ->
    exists imgs,
      main_loop sinf cosf g P fm polls fb (bounce_at P k) (pose_at k) out =
        Ok (out ++ imgs) /\
      length imgs = Nat.div2 (S (quiet polls)) /\
      forall j, (j < length imgs)%nat ->
        frame_image sinf cosf g P fm (k + j) = Ok (imgs !!! j).
Proof using Hg.
  induction n as [|n IH]; intros polls fb k out Hn Hsz.
  - destruct polls; [|simpl in Hn; lia].
    exists []. simpl. rewrite app_nil_r. split; [reflexivity|]. split; [reflexivity|].
    intros j Hj. lia.
  - destruct polls as [|[] polls'].
    + exists []. simpl. rewrite app_nil_r. repeat split. intros j Hj. inversion Hj.
    + exists []. simpl. rewrite app_nil_r. repeat split. intros j Hj. inversion Hj.
    + destruct (frame_eq fb k Hsz) as (fb' & bytes & Hf & Hsz' & Himg).
      cbn [main_loop]. rewrite Hf. cbn [mbind result_bind rbind].
      destruct polls' as [|[] polls''].
      * exists [bytes]. repeat split.
        intros [|j] Hj; [|simpl in Hj; lia]. now rewrite Nat.add_0_r.
      * exists [bytes]. repeat split.
        intros [|j] Hj; [|simpl in Hj; lia]. now rewrite Nat.add_0_r.
      * destruct (IH polls'' fb' (S k) (out ++ [bytes])) as (imgs & Hm & Hlen & Hk);
          [simpl in Hn; lia | exact Hsz' |].
        exists (bytes :: imgs). split; [|split].
        -- rewrite Hm. now rewrite <- app_assoc.
        -- cbn [length quiet]. rewrite Hlen. reflexivity.
        -- intros [|j] Hj.
           ++ now rewrite Nat.add_0_r.
           ++ replace (k + S j)%nat with (S k + j)%nat by lia.
              apply Hk. simpl in Hj. lia.
Qed.

End FrameLoop.

(** A run of [main] on a display it accepts. *)
Lemma main_run sinf cosf e cols rows :
  argv e = [] -> winsize e = Some (cols, rows) -> alloc_ok e = true ->
  20 <= cols -> 10 <= rows ->
  let g := mk_geom cols rows in
  exists fm frames,
    compute_floor g = Ok (fm, horizon_of g) /\
    fb_sized g fm /\ Forall is_byte fm /\
    main sinf cosf e = Ok (0, frames) /\
    length frames = Nat.div2 (S (quiet (polls e))) /\
    forall k, (k < length frames)%nat ->
      frame_image sinf cosf g (physics_init g) fm k = Ok (frames !!! k).
Proof.
  intros Hargs Hws Halloc Hc Hr g.
  assert (Hg : geom_ok g) by (unfold geom_ok, g; simpl; lia).
  destruct (compute_floor_bytes g Hg) as (fm & Hfloor & Hsz & Hby).
  set (fb0 := replicate (Z.to_nat (cw g * ch g)) 0).
  assert (Hsz0 : fb_sized g fb0).
  { unfold fb_sized, fb0. rewrite length_replicate. destruct Hg as (? & ? & _). nia. }
  destruct (main_loop_frames sinf cosf g (physics_init g) fm Hg (length (polls e))
              (polls e) fb0 0%nat [] (Nat.le_refl _) Hsz0) as (imgs & Hm & Hlen & Hk).
  exists fm, imgs. split; [exact Hfloor|]. split; [exact Hsz|]. split; [exact Hby|].
  split; [|split; [exact Hlen | exact Hk]].
  unfold main. rewrite Hargs, Hws.
  replace ((cols <? 20) || (rows <? 10)) with false
    by (symmetry; apply orb_false_iff; lia).
  rewrite Halloc. cbn [negb]. fold g. rewrite Hfloor.
  cbn [mbind result_bind rbind].
  change (bounce_init (physics_init g)) with (bounce_at (physics_init g) 0).
  change {| ax := of_int 0; ay := of_int 0; az := of_int 0 |} with (pose_at 0).
  fold fb0. rewrite Hm. reflexivity.
Qed.





Lemma final_attr_app t tr1 tr2 :
  final_attr t (tr1 ++ tr2) = final_attr (final_attr t tr1) tr2.
Proof. unfold final_attr. apply foldl_app. Qed.

Lemma final_attr_frames t frames : final_attr t (Stdout <$> frames) = t.
Proof.
  unfold final_attr. induction frames as [|f frames IH]; [reflexivity|]. exact IH.
Qed.

Lemma frame_image_home sinf cosf g P fm k f :
  geom_ok g -> fb_sized g fm -> Forall is_byte fm ->
  frame_image sinf cosf g P fm k = Ok f ->
  exists rest, f = (ESC :: str "[H") ++ rest.
Proof.
  intros Hg Hsz Hby. unfold frame_image. cbv zeta.
  destruct (draw_edges _ _ _ _) as [fb'| |]; try discriminate.
  simpl. intros [= <-]. rewrite render_rows by assumption. now eexists.
Qed.

Lemma stdout_of_silent tr :
  Forall (fun ev => touches_terminal ev = false) tr -> stdout_of tr = [].
Proof.
  induction 1 as [|ev tr Hev _ IH]; [reflexivity|].
  destruct ev; try discriminate Hev. exact IH.
Qed.

Section TerminalFacts.

Variables ICANON ECHO ISIG : Z.
Variables VMIN VTIME : nat.
Variables sinf cosf : float -> float.

Lemma main_io_run e tios cols rows :
  argv e = [] -> winsize e = Some (cols, rows) -> alloc_ok e = true ->
  20 <= cols -> 10 <= rows ->
  exists frames,
    main sinf cosf e = Ok (0, frames) /\
    main_io ICANON ECHO ISIG VMIN VTIME sinf cosf e tios =
      Ok (0, [SetAttr (make_raw ICANON ECHO ISIG VMIN VTIME tios); Stdout enter_seq]
             ++ (Stdout <$> frames) ++ cleanup_terminal tios) /\
    Forall (fun f => exists rest, f = (ESC :: str "[H") ++ rest) frames.
Proof.
  intros Hargs Hws Halloc Hc Hr.
  destruct (main_run sinf cosf e cols rows Hargs Hws Halloc Hc Hr)
    as (fm & frames & Hfloor & Hsz & Hby & Hm & _ & Hk).
  exists frames. split; [exact Hm|]. split.
  - revert Hm. unfold main, main_io. rewrite Hargs, Hws.
    replace ((cols <? 20) || (rows <? 10)) with false
      by (symmetry; apply orb_false_iff; lia).
    rewrite Halloc. cbn [negb]. rewrite Hfloor. cbn [mbind result_bind rbind].
    destruct (main_loop _ _ _ _ _ _ _ _ _ _) as [fs| |]; try discriminate.
    now intros [= ->].
  - apply Forall_lookup. intros k f Hf.
    assert (Hlt : (k < length frames)%nat) by (eapply lookup_lt_Some; eassumption).
    apply list_lookup_total_correct in Hf. subst f.
    apply (frame_image_home sinf cosf (mk_geom cols rows)
             (physics_init (mk_geom cols rows)) fm k);
      [unfold geom_ok; simpl; lia | exact Hsz | exact Hby | now apply Hk].
Qed.

(** The outcomes of [main_io]. *)
Lemma main_io_cases e tios :
  exists st tr,
    main_io ICANON ECHO ISIG VMIN VTIME sinf cosf e tios = Ok (st, tr) /\
    (st = 0 \/ st = 1) /\
    (st = 1 -> Forall (fun ev => touches_terminal ev = false) tr) /\
    (forall arg rest, argv e = arg :: rest ->
       (st = 0 <-> arg = "-h"%string \/ arg = "--help"%string) /\
       stdout_of tr = (if st =? 0 then usage else [])) /\
    final_attr tios tr = tios.
Proof.
  destruct (argv e) as [|arg rest] eqn:Hargs.
  - assert (Hno : forall st tr,
              main_io ICANON ECHO ISIG VMIN VTIME sinf cosf e tios = Ok (st, tr) ->
              st = 1 -> tr = [] ->
              exists st tr,
                main_io ICANON ECHO ISIG VMIN VTIME sinf cosf e tios = Ok (st, tr) /\
                (st = 0 \/ st = 1) /\
                (st = 1 -> Forall (fun ev => touches_terminal ev = false) tr) /\
                (forall arg rest, @nil string = arg :: rest ->
                   (st = 0 <-> arg = "-h"%string \/ arg = "--help"%string) /\
                   stdout_of tr = (if st =? 0 then usage else [])) /\
                final_attr tios tr = tios).
    { intros st tr H -> ->. exists 1, []. split; [exact H|].
      split; [now right|]. split; [constructor|]. split; [discriminate | reflexivity]. }
    destruct (winsize e) as [[cols rows]|] eqn:Hws.
    + destruct ((cols <? 20) || (rows <? 10)) eqn:Hsmall.
      * apply (Hno 1 []); try reflexivity.
        unfold main_io. now rewrite Hargs, Hws, Hsmall.
      * destruct (alloc_ok e) eqn:Halloc.
        -- apply orb_false_iff in Hsmall. destruct Hsmall as [Hc Hr].
           apply Z.ltb_ge in Hc, Hr.
           destruct (main_io_run e tios cols rows Hargs Hws Halloc Hc Hr)
             as (frames & _ & Hio & _).
           eexists _, _. split; [exact Hio|]. split; [now left|].
           split; [discriminate|]. split; [discriminate|].
           rewrite !final_attr_app, final_attr_frames. reflexivity.
        -- apply (Hno 1 []); try reflexivity.
           unfold main_io. now rewrite Hargs, Hws, Hsmall, Halloc.
    + apply (Hno 1 []); try reflexivity.
      unfold main_io. now rewrite Hargs, Hws.
  - unfold main_io. rewrite Hargs.
    destruct ((arg =? "-h")%string || (arg =? "--help")%string) eqn:Hh.
    + eexists _, _. split; [reflexivity|]. split; [now left|].
      split; [discriminate|]. split; [|reflexivity].
      intros arg' rest' [= <- <-]. split; [|reflexivity].
      split; [intros _|reflexivity].
      apply orb_true_iff in Hh. rewrite !String.eqb_eq in Hh. exact Hh.
    + eexists _, _. split; [reflexivity|]. split; [now right|].
      split; [repeat constructor|]. split; [|reflexivity].
      intros arg' rest' [= <- <-]. split; [|reflexivity].
      split; [discriminate|]. intros H.
      apply orb_false_iff in Hh. rewrite !String.eqb_neq in Hh. tauto.
Qed.

(** X9: whenever [main] returns, its status is 0 or 1.  When it returns
    1 (unknown option, failed or too small display, failed allocation of
    the framebuffer or of the output buffer) it has written nothing to
    standard output and has not touched the terminal attributes: at most a
    message went to standard error.  With an argument only the first one is
    looked at: the status is 0 exactly when it is [-h] or [--help], and
    standard output then holds the usage text.  The terminal attributes in
    force when [main] returns are the ones it found. *)
Theorem main_io_failure_is_silent e tios st tr :
  main_io ICANON ECHO ISIG VMIN VTIME sinf cosf e tios = Ok (st, tr) ->
  (st = 0 \/ st = 1) /\
  (st = 1 ->
     Forall (fun ev => touches_terminal ev = false) tr /\ stdout_of tr = [] /\
     omap (fun ev => match ev with SetAttr t => Some t | _ => None end) tr = []) /\
  (forall arg rest, argv e = arg :: rest ->
     (st = 0 <-> arg = "-h"%string \/ arg = "--help"%string) /\
     stdout_of tr = (if st =? 0 then usage else [])) /\
  final_attr tios tr = tios.
Proof.
  intros Hrun.
  destruct (main_io_cases e tios) as (st' & tr' & Hrun' & Hst & Hone & Hargs & Hattr).
  rewrite Hrun in Hrun'. injection Hrun' as <- <-.
  split; [exact Hst|]. split; [|split; [exact Hargs | exact Hattr]].
  intros H1. specialize (Hone H1). split; [exact Hone|].
  split; [now apply stdout_of_silent|].
  clear -Hone. induction Hone as [|ev tr Hev _ IH]; [reflexivity|].
  destruct ev; try discriminate Hev. exact IH.
Qed.


End TerminalFacts.


Lemma main_io_failure_is_silent_witness :
  let e := {| argv := ["-x"%string; "-h"%string]; winsize := Some (80, 24);
              alloc_ok := true; polls := [] |} in
  let tios := {| c_iflag := 0x500; c_oflag := 5; c_cflag := 0xBF; c_lflag := 0x8A3B;
                 c_cc := [3; 28; 127; 21; 4; 0; 1; 0] |} in
  let tr := [Stderr (str "icosa: unknown option '-x'" ++ [10])] in
  (1 = 0 \/ 1 = 1) /\
  (1 = 1 ->
     Forall (fun ev => touches_terminal ev = false) tr /\ stdout_of tr = [] /\
     omap (fun ev => match ev with SetAttr t => Some t | _ => None end) tr = []) /\
  (forall arg rest, argv e = arg :: rest ->
     (1 = 0 <-> arg = "-h"%string \/ arg = "--help"%string) /\
     stdout_of tr = (if 1 =? 0 then usage else [])) /\
  final_attr tios tr = tios.
Proof.
  apply (main_io_failure_is_silent 2 8 1 6 5 (fun _ => of_int 0) (fun _ => of_int 1)
           {| argv := ["-x"%string; "-h"%string]; winsize := Some (80, 24);
              alloc_ok := true; polls := [] |}
           {| c_iflag := 0x500; c_oflag := 5; c_cflag := 0xBF; c_lflag := 0x8A3B;
              c_cc := [3; 28; 127; 21; 4; 0; 1; 0] |}
           1 [Stderr (str "icosa: unknown option '-x'" ++ [10])]).
  reflexivity.
Defined.

Example usage_length : length usage = 474%nat.
Proof. reflexivity. Qed.

Lemma draw_line_no_overflow_witness :
  line_in_int (line_fuel (-40) 95 159 (-7)) (-40) 95 159 (-7) = true.
Proof.
  apply (draw_line_no_overflow (-40) 95 159 (-7));
    change (2 ^ 27) with 134217728; lia.
Defined.

(** X12: [render] never writes past the end of [rbuf]: whatever the
    framebuffer holds, a frame takes at most 14 bytes per cell, 5 per row
    and 3 more, which is within the [ch * (cw * 20 + 16) + 64] bytes
    [main] allocates. *)
Theorem render_fits_rbuf g fb fm :
  geom_ok g -> fb_sized g fm -> Forall is_byte fm ->
  Z.of_nat (length (render g fb fm)) <= 3 + ch g * (14 * cw g + 5) /\
  3 + ch g * (14 * cw g + 5) <= rbuf_size g.
Proof.
  intros Hg Hsz Hby. split; [now apply render_length_le|].
  unfold rbuf_size. destruct Hg as (Hcw & Hch & _). nia.
Qed.

Lemma render_fits_rbuf_witness :
  Z.of_nat (length (render (mk_geom 3 2) [0; 0x41; 0; 0; 0; 0x80] [0; 0; 0; 1; 1; 2]))
    <= 3 + ch (mk_geom 3 2) * (14 * cw (mk_geom 3 2) + 5) /\
  3 + ch (mk_geom 3 2) * (14 * cw (mk_geom 3 2) + 5) <= rbuf_size (mk_geom 3 2).
Proof.
  apply (render_fits_rbuf (mk_geom 3 2) [0; 0x41; 0; 0; 0; 0x80] [0; 0; 0; 1; 1; 2]).
  - unfold geom_ok; simpl; lia.
  - reflexivity.
  - repeat constructor; unfold is_byte; lia.
Defined.

(** X13: the edge loop reads only projected vertices: [project] yields one
    point per vertex of [base_verts], 14 of them, every index in [edges] is
    below 14, and no edge joins a vertex to itself or is listed twice, in
    either direction. *)
Theorem draw_edges_reads_projected v t :
  length (project v t) = length base_verts /\
  (forall a b, In (a, b) edges ->
     (a < length (project v t))%nat /\ (b < length (project v t))%nat /\ a <> b) /\
  NoDup ((fun e => (Nat.min e.1 e.2, Nat.max e.1 e.2)) <$> edges).
Proof.
  split; [apply length_fmap|]. split.
  - intros a b Hin. unfold project. rewrite length_fmap.
    assert (H : forallb (fun e => (e.1 <? 14)%nat && (e.2 <? 14)%nat &&
                                  negb (e.1 =? e.2)%nat) edges = true)
      by (vm_compute; reflexivity).
    rewrite forallb_forall in H. apply H in Hin. cbn [fst snd] in Hin.
    apply andb_true_iff in Hin. destruct Hin as [Hin Hne].
    apply andb_true_iff in Hin. destruct Hin as [Ha Hb].
    apply Nat.ltb_lt in Ha, Hb. apply negb_true_iff, Nat.eqb_neq in Hne.
    change (length base_verts) with 14%nat. auto.
  - apply (bool_decide_unpack _). vm_compute. exact I.
Qed.

(** The square root of a positive normal float. *)
Lemma fsqrt_range a b x :
  frange a b x -> fsign x = Some false ->
  -120 <= a -> b <= 120 ->
  frange ((a + 1) / 2) ((b + 1) / 2 + 1) (fsqrt x).
Proof.
  destruct x as [| | |sx mx ex]; try contradiction.
  intros Hx Hs Ha Hb. simpl in Hs. injection Hs as ->.
  pose proof (frange_digits _ _ _ _ _ Hx) as Hd. destruct Hx as [Hmx Hex].
  unfold fsqrt, SFsqrt, SFsqrt_core_binary. rewrite Hd, fexp_eq, !Z.div2_div.
  set (h := (24 + ex + 1) / 2).
  assert (Hh : 2 * h <= 24 + ex + 1 <= 2 * h + 1).
  { unfold h. pose proof (Z.div_mod (24 + ex + 1) 2 ltac:(lia)).
    pose proof (Z.mod_pos_bound (24 + ex + 1) 2 ltac:(lia)). lia. }
  assert (He2 : 2 * (ex / 2) <= ex <= 2 * (ex / 2) + 1).
  { pose proof (Z.div_mod ex 2 ltac:(lia)).
    pose proof (Z.mod_pos_bound ex 2 ltac:(lia)). lia. }
  replace (Z.min (Z.max (h - 24) (-149)) (ex / 2)) with (h - 24) by lia.
  assert (Hs : ex - 2 * (h - 24) = 23 \/ ex - 2 * (h - 24) = 24) by lia.
  change (2 ^ 23) with 8388608 in *. change (2 ^ 24) with 16777216 in *.
  assert (Hq : forall m', 2 ^ 46 <= m' < 2 ^ 48 ->
            let '(q, r) := Z.sqrtrem m' in
            frange (h) (h + 1)
              (binary_round_aux prec emax false q (h - 24)
                 (if r =? 0 then loc_Exact
                  else loc_Inexact (if r <=? q then Lt else Gt)))).
  { intros m' Hm'. pose proof (Z.sqrtrem_spec m' ltac:(lia)) as Hsq.
    destruct (Z.sqrtrem m') as [q r]. destruct Hsq as [Hsq Hr].
    change (2 ^ 46) with (8388608 * 8388608) in Hm'.
    change (2 ^ 48) with (16777216 * 16777216) in Hm'.
    assert (Hqb : 2 ^ (24 - 1) <= q < 2 ^ 24).
    { change (2 ^ (24 - 1)) with 8388608. change (2 ^ 24) with 16777216. nia. }
    pose proof (Zdigits2_eq q 24 ltac:(lia) Hqb) as Hdq.
    eapply frange_weaken; [apply binary_round_aux_range | |]; rewrite ?Hdq; lia. }
  assert (Hlo : (a + 1) / 2 <= h).
  { unfold h. apply Z.div_le_mono; lia. }
  assert (Hhi : h <= (b + 1) / 2).
  { unfold h. apply Z.div_le_mono; lia. }
  destruct Hs as [E | E]; rewrite E; rewrite Z.shiftl_mul_pow2 by lia.
  - specialize (Hq (Z.pos mx * 2 ^ 23)).
    destruct (Z.sqrtrem (Z.pos mx * 2 ^ 23)) as [q r].
    eapply frange_weaken; [apply Hq | |]; lia.
  - specialize (Hq (Z.pos mx * 2 ^ 24)).
    destruct (Z.sqrtrem (Z.pos mx * 2 ^ 24)) as [q r].
    eapply frange_weaken; [apply Hq | |]; lia.
Qed.

Lemma positive_normal_intro lo hi x :
  frange lo hi x -> fsign x <> Some true -> -125 <= lo -> hi <= 128 ->
  positive_normal x = true.
Proof.
  destruct x as [| | |s m e]; try contradiction.
  intros [Hm He] Hs Hlo Hhi. destruct s; [simpl in Hs; congruence|].
  cbn [positive_normal].
  repeat (apply andb_true_iff; split); lia.
Qed.

Lemma positive_normal_flt x :
  positive_normal x = true -> flt (of_int 0) x = true /\ is_nan x = false.
Proof. destruct x as [| | |[] m e]; try discriminate. intros _. split; reflexivity. Qed.

Lemma frange_const lo hi x :
  (match x with
   | S754_finite _ m e =>
       (2 ^ 23 <=? Z.pos m) && (Z.pos m <? 2 ^ 24) && (lo <=? e + 24) && (e + 24 <=? hi)
   | _ => false
   end) = true ->
  frange lo hi x.
Proof.
  destruct x as [| | |s m e]; try discriminate. intros H.
  apply andb_true_iff in H. destruct H as [H H4].
  apply andb_true_iff in H. destruct H as [H H3].
  apply andb_true_iff in H. destruct H as [H1 H2].
  cbn [frange]. lia.
Qed.

(** X14: on every display of 10 to 65535 rows the constants of the
    integrator are positive normal numbers: the floor line, the maximal
    bounce height, the gravity, the restart velocity and the restart
    threshold [grav * 8] are neither zero, subnormal, infinite nor NaN.  In
    particular the division by [restart_vel] in the squash computation is
    never a division by zero. *)
Theorem physics_init_positive cols rows :
  10 <= rows <= 65535 ->
  let P := physics_init (mk_geom cols rows) in
  positive_normal (floor_py P) = true /\
  positive_normal (max_bounce P) = true /\
  positive_normal (grav P) = true /\
  positive_normal (restart_vel P) = true /\
  positive_normal (fmul (grav P) (of_int 8)) = true.
Proof.
  intros Hr P. unfold P, physics_init, horizon_of. cbn [ch mk_geom floor_py max_bounce grav restart_vel].
  rewrite Z.quot_div_nonneg by lia.
  set (hz := rows * 55 / 100).
  assert (Hhz : 5 <= hz <= 36044).
  { unfold hz. split; [apply Z.div_le_lower_bound; lia|].
    assert (rows * 55 / 100 < 36045) by (apply Z.div_lt_upper_bound; lia). lia. }
  set (fp := of_int (hz * 4)).
  assert (Rfp : frange 1 19 fp)
    by (apply (of_int_range (hz * 4) 18); [change (2 ^ 18) with 262144; lia | lia]).
  assert (Sfp : fsign fp <> Some true) by (apply fsign_of_int; lia).
  set (mb := fmul fp (lit 55 100)).
  assert (Rmb : frange 0 20 mb).
  { eapply frange_weaken;
      [apply (fmul_range 1 19 0 0); [exact Rfp | apply frange_const; reflexivity | lia | lia]
      | lia | lia]. }
  assert (Smb : fsign mb <> Some true)
    by (apply fsign_fmul_pos; [exact Sfp | vm_compute; congruence]).
  set (mb2 := fmul (of_int 2) mb).
  assert (Rmb2 : frange 1 23 mb2).
  { eapply frange_weaken;
      [apply (fmul_range 2 2 0 20); [apply frange_const; reflexivity | exact Rmb | lia | lia]
      | lia | lia]. }
  assert (Smb2 : fsign mb2 <> Some true)
    by (apply fsign_fmul_pos; [vm_compute; congruence | exact Smb]).
  set (gr := fdiv mb2 (fmul (of_int 22) (of_int 22))).
  assert (Rgr : frange (-8) 16 gr).
  { eapply frange_weaken;
      [apply (fdiv_range 1 23 9 9); [exact Rmb2 | apply frange_const; reflexivity | lia | lia]
      | lia | lia]. }
  assert (Sgr : fsign gr <> Some true)
    by (apply fsign_fdiv_pos; [exact Smb2 | vm_compute; congruence]).
  set (pr := fmul mb2 gr).
  assert (Rpr : frange (-8) 40 pr).
  { eapply frange_weaken;
      [apply (fmul_range 1 23 (-8) 16); [exact Rmb2 | exact Rgr | lia | lia]
      | lia | lia]. }
  assert (Spr : fsign pr = Some false).
  { pose proof (fsign_fmul_pos mb2 gr Smb2 Sgr) as H. fold pr in H.
    destruct pr as [| | |[] m e]; try contradiction; simpl in *; congruence. }
  assert (Rrv : frange (-4) 21 (fsqrt pr)).
  { eapply frange_weaken; [apply (fsqrt_range (-8) 40); [exact Rpr | exact Spr | lia | lia] | |].
    - change ((-8 + 1) / 2) with (-4). lia.
    - change ((40 + 1) / 2) with 20. lia. }
  assert (Srv : fsign (fsqrt pr) <> Some true) by (apply fsign_fsqrt; congruence).
  assert (Rth : frange (-6) 21 (fmul gr (of_int 8))).
  { eapply frange_weaken;
      [apply (fmul_range (-8) 16 4 4); [exact Rgr | apply frange_const; reflexivity | lia | lia]
      | lia | lia]. }
  assert (Sth : fsign (fmul gr (of_int 8)) <> Some true)
    by (apply fsign_fmul_pos; [exact Sgr | vm_compute; congruence]).
  repeat split; eapply positive_normal_intro; eauto; lia.
Qed.

Lemma physics_init_positive_witness :
  let P := physics_init (mk_geom 80 24) in
  positive_normal (floor_py P) = true /\
  positive_normal (max_bounce P) = true /\
  positive_normal (grav P) = true /\
  positive_normal (restart_vel P) = true /\
  positive_normal (fmul (grav P) (of_int 8)) = true.
Proof. apply (physics_init_positive 80 24). lia. Defined.

(** ** Floating point: rounding and magnitude bounds *)

Lemma shr_1_exact m :
  0 <= m -> m mod 2 = 0 ->
  shr_1 {| shr_m := m; shr_r := false; shr_s := false |} =
    {| shr_m := m / 2; shr_r := false; shr_s := false |}.
Proof.
  intros Hm He. destruct m as [|[p|p|]|p]; try lia; cbn [shr_1 orb].
  - reflexivity.
  - exfalso. rewrite Pos2Z.inj_xI in He. rewrite Z.add_comm, Z.mul_comm, Z.mod_add in He by lia.
    discriminate.
  - f_equal. rewrite Pos2Z.inj_xO. rewrite Z.mul_comm, Z.div_mul by lia. reflexivity.
  - discriminate.
Qed.

Lemma shr_iter_exact (n : nat) m :
  0 <= m -> m mod 2 ^ Z.of_nat n = 0 ->
  Nat.iter n shr_1 {| shr_m := m; shr_r := false; shr_s := false |} =
    {| shr_m := m / 2 ^ Z.of_nat n; shr_r := false; shr_s := false |}.
Proof.
  intros Hm. induction n as [|n IH]; intros Hd.
  - simpl. now rewrite Z.div_1_r.
  - rewrite Nat2Z.inj_succ, Z.pow_succ_r in * by lia.
    pose proof (Z.pow_pos_nonneg 2 (Z.of_nat n) ltac:(lia) ltac:(lia)) as Hp.
    assert (Hq : m = 2 * 2 ^ Z.of_nat n * (m / (2 * 2 ^ Z.of_nat n)))
      by (apply Z.div_exact; lia).
    set (q := m / (2 * 2 ^ Z.of_nat n)) in *.
    assert (Hdn : m / 2 ^ Z.of_nat n = 2 * q).
    { rewrite Hq. replace (2 * 2 ^ Z.of_nat n * q) with (2 * q * 2 ^ Z.of_nat n) by lia.
      apply Z.div_mul. lia. }
    rewrite Nat.iter_succ, IH.
    + rewrite Hdn, shr_1_exact.
      * f_equal. rewrite Z.mul_comm. apply Z.div_mul. lia.
      * apply Z.mul_nonneg_nonneg; [lia|]. unfold q. apply Z.div_pos; lia.
      * rewrite Z.mul_comm. apply Z.mod_mul. lia.
    + rewrite Hq. replace (2 * 2 ^ Z.of_nat n * q) with (2 * q * 2 ^ Z.of_nat n) by lia.
      apply Z.mod_mul. lia.
Qed.

Lemma shr_exact m e n :
  0 <= m -> 0 <= n -> m mod 2 ^ n = 0 ->
  shr {| shr_m := m; shr_r := false; shr_s := false |} e n =
    ({| shr_m := m / 2 ^ n; shr_r := false; shr_s := false |}, e + n).
Proof.
  intros Hm Hn Hd. unfold shr. destruct n as [|p|p]; try lia.
  - now rewrite Z.div_1_r, Z.add_0_r.
  - rewrite iter_pos_nat. rewrite shr_iter_exact; rewrite ?positive_nat_Z; auto.
Qed.

(** When the mantissa is a multiple of the power of two it is shifted by,
    [binary_round_aux] is exact. *)
Lemma binary_round_aux_exact_shift sx mx ex :
  0 < mx -> ex <= fexp prec emax (Zdigits2 mx + ex) ->
  let e1 := fexp prec emax (Zdigits2 mx + ex) in
  mx mod 2 ^ (e1 - ex) = 0 ->
  binary_round_aux prec emax sx mx ex loc_Exact = pack sx (mx / 2 ^ (e1 - ex)) e1.
Proof.
  intros Hm He e1 Hd.
  assert (He1 : -149 <= e1) by (unfold e1; rewrite fexp_eq; lia).
  assert (Hdg : Zdigits2 mx + ex - 24 <= e1) by (unfold e1; rewrite fexp_eq; lia).
  set (m1 := mx / 2 ^ (e1 - ex)).
  assert (Hm1 : 0 <= m1 < 2 ^ 24).
  { unfold m1. split; [apply Z.div_pos; [lia | apply Z.pow_pos_nonneg; lia]|].
    apply Z.div_lt_upper_bound; [apply Z.pow_pos_nonneg; lia|].
    rewrite <- Z.pow_add_r by lia.
    pose proof (Zdigits2_bounds mx Hm) as [_ Hhi].
    eapply Z.lt_le_trans; [exact Hhi|]. apply Z.pow_le_mono_r; lia. }
  unfold binary_round_aux, shr_fexp. fold e1. cbn [shr_record_of_loc].
  rewrite shr_exact by lia. fold m1.
  replace (ex + (e1 - ex)) with e1 by lia.
  cbn [shr_m loc_of_shr_record round_nearest_even].
  assert (Hn : fexp prec emax (Zdigits2 m1 + e1) - e1 <= 0).
  { rewrite fexp_eq. destruct (Z.eq_dec m1 0) as [-> | Hnz]; [simpl; lia|].
    pose proof (Zdigits2_le m1 24 ltac:(lia) ltac:(lia)). lia. }
  rewrite shr_nonpos by exact Hn. cbn [shr_m].
  unfold pack. destruct m1; reflexivity.
Qed.

Lemma Zdigits2_pow2 k : 0 <= k -> Zdigits2 (2 ^ k) = k + 1.
Proof.
  intros Hk. apply Zdigits2_eq; [lia|].
  replace (k + 1 - 1) with k by lia. split; [lia|].
  apply Z.pow_lt_mono_r; lia.
Qed.

Lemma within_pack s m e k :
  0 <= m < 2 ^ 24 -> -149 <= e <= 104 ->
  (m = 0 \/ fexp prec emax (Zdigits2 m + e) = e) ->
  m * 2 ^ (e + 149) <= 2 ^ (k + 149) ->
  within k (pack s m e) = true.
Proof.
  intros Hm He Hc Hv. unfold pack. destruct m as [|p|p]; try lia; [reflexivity|].
  change (emax - prec) with 104.
  replace (e <=? 104) with true by (symmetry; apply Z.leb_le; lia).
  unfold within, valid_binary, bounded, canonical_mantissa.
  destruct Hc as [Hc | Hc]; [discriminate|].
  change (Z.pos (digits2_pos p)) with (Zdigits2 (Z.pos p)). rewrite Hc.
  rewrite Z.eqb_refl. cbn [andb].
  change (emax - prec) with 104.
  apply andb_true_iff. split; apply Z.leb_le; [lia | exact Hv].
Qed.

(** Rounding does not cross a power of two: a value of at most [2 ^ k]
    rounds to a float of at most [2 ^ k].  The value is the mantissa [mx],
    or lies strictly between [mx] and [mx + 1] when the location is not
    exact. *)
Lemma binary_round_aux_within_loc s mx ex lx k :
  0 < mx -> ex <= fexp prec emax (Zdigits2 mx + ex) ->
  -298 <= ex -> -149 <= k <= 127 ->
  (mx + match lx with loc_Exact => 0 | _ => 1 end) * 2 ^ (ex + 298) <= 2 ^ (k + 298) ->
  within k (binary_round_aux prec emax s mx ex lx) = true.
Proof.
  intros Hm He Hex Hk Hvl.
  set (dl := match lx with loc_Exact => 0 | _ => 1 end) in *.
  assert (Hdl : 0 <= dl) by (unfold dl; destruct lx; lia).
  assert (Hv : mx * 2 ^ (ex + 298) <= 2 ^ (k + 298)).
  { eapply Z.le_trans; [|exact Hvl].
    apply Z.mul_le_mono_nonneg_r; [apply Z.pow_nonneg; lia | lia]. }
  set (d := Zdigits2 mx) in *.
  pose proof (Zdigits2_bounds mx Hm) as [Hlo Hhi]. fold d in Hlo, Hhi.
  assert (Hd : 0 < d) by (apply Zdigits2_pos; exact Hm).
  rewrite fexp_eq in He.
  set (e1 := Z.max (d + ex - 24) (-149)) in *.
  assert (Hdk : d + ex <= k + 1).
  { assert (H : 2 ^ (d - 1 + (ex + 298)) <= 2 ^ (k + 298)).
    { rewrite pow2_split by lia. eapply Z.le_trans; [|exact Hv].
      apply Z.mul_le_mono_nonneg_r; [apply Z.pow_nonneg; lia | exact Hlo]. }
    apply Z.pow_le_mono_r_iff in H; lia. }
  assert (He1k : e1 <= k) by lia.
  set (P := 2 ^ (e1 - ex)).
  assert (HP : 0 < P) by (apply Z.pow_pos_nonneg; lia).
  set (m1 := mx / P).
  pose proof (Z.div_mod mx P ltac:(lia)) as Hdm. fold m1 in Hdm.
  pose proof (Z.mod_pos_bound mx P HP) as Hrb.
  set (U := 2 ^ (k - e1)).
  assert (HU : 0 < U) by (apply Z.pow_pos_nonneg; lia).
  set (Q := 2 ^ (ex + 298)).
  assert (HQ : 0 < Q) by (apply Z.pow_pos_nonneg; lia).
  assert (HUPQ : 2 ^ (k + 298) = U * P * Q).
  { unfold U, P, Q. rewrite <- !pow2_split by lia. f_equal. lia. }
  assert (Hmx : mx <= U * P).
  { rewrite HUPQ in Hv. apply Z.mul_le_mono_pos_r in Hv; assumption. }
  assert (Hm1U : m1 <= U) by nia.
  assert (Hm1nn : 0 <= m1) by (apply Z.div_pos; lia).
  assert (Hm1lo : -149 < d + ex - 24 -> 2 ^ 23 <= m1).
  { intros Hn. unfold m1, P. replace (e1 - ex) with (d - 24) by lia.
    apply Z.div_le_lower_bound; [apply Z.pow_pos_nonneg; lia|].
    rewrite Z.mul_comm, <- pow2_split by lia.
    now replace (23 + (d - 24)) with (d - 1) by lia. }
  assert (Hm1hi : m1 < 2 ^ 24).
  { unfold m1, P. apply Z.div_lt_upper_bound; [apply Z.pow_pos_nonneg; lia|].
    rewrite <- Z.pow_add_r by lia.
    eapply Z.lt_le_trans; [exact Hhi|]. apply Z.pow_le_mono_r; lia. }
  assert (Hmxl : mx + dl <= U * P).
  { rewrite HUPQ in Hvl. apply Z.mul_le_mono_pos_r in Hvl; assumption. }
  assert (Hres : exists m2,
            m1 <= m2 <= U /\ m2 <= 2 ^ 24 /\
            binary_round_aux prec emax s mx ex lx =
              if m2 =? 2 ^ 24 then pack s (2 ^ 23) (e1 + 1) else pack s m2 e1).
  { destruct (binary_round_aux_spec s mx ex lx Hm) as (m2 & Hm2 & _ & Hle & Heq);
      [rewrite fexp_eq; exact He|].
    rewrite fexp_eq in Hm2, Heq. fold d e1 P m1 in Hm2, Heq.
    destruct (Z.eq_dec m1 U) as [E | NE].
    - assert (Hr0 : mx mod P = 0) by nia.
      assert (Hl : lx = loc_Exact).
      { destruct lx; [reflexivity|]. exfalso. unfold dl in Hmxl. nia. }
      subst lx.
      pose proof (binary_round_aux_exact_shift s mx ex Hm) as Hex'.
      rewrite fexp_eq in Hex'. fold d e1 P m1 in Hex'.
      specialize (Hex' He Hr0).
      exists m1. split; [lia|]. split; [lia|].
      rewrite Hex'.
      now replace (m1 =? 2 ^ 24) with false by (symmetry; apply Z.eqb_neq; lia).
    - exists m2. split; [lia|]. split; [exact Hle | exact Heq]. }
  destruct Hres as (m2 & Hm2 & Hle & ->).
  assert (HUe : 2 ^ (k + 149) = U * 2 ^ (e1 + 149)).
  { unfold U. rewrite <- pow2_split by lia. f_equal. lia. }
  destruct (Z.eqb_spec m2 (2 ^ 24)) as [E | NE].
  - assert (H24 : 24 <= k - e1).
    { assert (H : 2 ^ 24 <= 2 ^ (k - e1)) by (fold U; lia).
      apply Z.pow_le_mono_r_iff in H; lia. }
    apply within_pack; [split; [lia | reflexivity] | lia | |].
    + right. change (Zdigits2 (2 ^ 23)) with 24. rewrite fexp_eq. lia.
    + rewrite HUe. replace (e1 + 1 + 149) with (1 + (e1 + 149)) by lia.
      rewrite (pow2_split 1) by lia. change (2 ^ 1) with 2. change (2 ^ 23) with 8388608.
      change (2 ^ 24) with 16777216 in *.
      pose proof (Z.pow_pos_nonneg 2 (e1 + 149) ltac:(lia) ltac:(lia)). nia.
  - assert (He104 : e1 <= 104).
    { destruct (Z_le_gt_dec (d + ex - 24) (-149)); lia. }
    apply within_pack; [lia | lia | |].
    + destruct (Z.eq_dec m2 0) as [-> | Hnz]; [now left | right].
      rewrite fexp_eq.
      pose proof (Zdigits2_le m2 24 ltac:(lia) ltac:(lia)) as Hd2.
      destruct (Z_le_gt_dec (d + ex - 24) (-149)) as [Hs | Hn]; [lia|].
      pose proof (Hm1lo ltac:(lia)) as H23.
      pose proof (Zdigits2_ge m2 24 ltac:(lia) ltac:(change (2 ^ (24 - 1)) with (2 ^ 23); lia)).
      lia.
    + rewrite HUe.
      pose proof (Z.pow_pos_nonneg 2 (e1 + 149) ltac:(lia) ltac:(lia)). nia.
Qed.

Lemma binary_round_aux_within s mx ex k :
  0 < mx -> ex <= fexp prec emax (Zdigits2 mx + ex) ->
  -298 <= ex -> -149 <= k <= 127 ->
  mx * 2 ^ (ex + 298) <= 2 ^ (k + 298) ->
  within k (binary_round_aux prec emax s mx ex loc_Exact) = true.
Proof.
  intros Hm He Hex Hk Hv. apply binary_round_aux_within_loc; auto.
  now rewrite Z.add_0_r.
Qed.

Lemma within_inv k x :
  within k x = true ->
  is_zero x \/
  exists s m e,
    x = S754_finite s m e /\
    -149 <= e <= 104 /\ Zdigits2 (Z.pos m) <= 24 /\
    (Zdigits2 (Z.pos m) = 24 \/ e = -149) /\
    Z.pos m * 2 ^ (e + 149) <= 2 ^ (k + 149).
Proof.
  unfold within. destruct x as [s| | |s m e]; try (rewrite andb_false_r; discriminate).
  - intros _. now left.
  - intros H. right. exists s, m, e. split; [reflexivity|].
    apply andb_true_iff in H. destruct H as [Hv Hb].
    unfold valid_binary, bounded, canonical_mantissa in Hv.
    apply andb_true_iff in Hv. destruct Hv as [Hc He].
    apply Z.eqb_eq in Hc. apply Z.leb_le in He, Hb.
    change (Z.pos (digits2_pos m)) with (Zdigits2 (Z.pos m)) in Hc.
    rewrite fexp_eq in Hc. change (emax - prec) with 104 in He.
    repeat split; lia.
Qed.

Lemma within_weaken j k x : within j x = true -> j <= k -> within k x = true.
Proof.
  unfold within. intros H Hjk. apply andb_true_iff in H. destruct H as [Hv Hb].
  rewrite Hv. cbn [andb]. destruct x as [s| | |s m e]; try discriminate; [reflexivity|].
  apply Z.leb_le in Hb. apply Z.leb_le. eapply Z.le_trans; [exact Hb|].
  destruct (Z_le_gt_dec 0 (j + 149)).
  - apply Z.pow_le_mono_r; lia.
  - rewrite (Z.pow_neg_r 2 (j + 149)) by lia. apply Z.pow_nonneg. lia.
Qed.

Lemma Zdigits2_mul_ge a b :
  0 < a -> 0 < b -> Zdigits2 a + Zdigits2 b - 1 <= Zdigits2 (a * b).
Proof.
  intros Ha Hb.
  pose proof (Zdigits2_bounds a Ha) as [Hla _].
  pose proof (Zdigits2_bounds b Hb) as [Hlb _].
  pose proof (Zdigits2_pos a Ha). pose proof (Zdigits2_pos b Hb).
  apply Zdigits2_ge; [nia|].
  replace (Zdigits2 a + Zdigits2 b - 1 - 1) with ((Zdigits2 a - 1) + (Zdigits2 b - 1)) by lia.
  rewrite pow2_split by lia.
  apply Z.mul_le_mono_nonneg; try assumption; apply Z.pow_nonneg; lia.
Qed.

(** The product of two floats of magnitude at most [2 ^ j] and [2 ^ k]. *)
Lemma fmul_within j k x y :
  within j x = true -> within k y = true ->
  -149 <= j + k <= 127 ->
  within (j + k) (fmul x y) = true.
Proof.
  intros Hx Hy Hjk.
  destruct (within_inv j x Hx) as [Zx | (sx & mx & ex & -> & Hex & Hdx & Hcx & Hvx)];
  destruct (within_inv k y Hy) as [Zy | (sy & my & ey & -> & Hey & Hdy & Hcy & Hvy)].
  - destruct x, y; try contradiction. reflexivity.
  - destruct x; try contradiction. reflexivity.
  - destruct y; try contradiction. reflexivity.
  - unfold fmul, SFmul. rewrite Pos2Z.inj_mul.
    pose proof (Zdigits2_mul_ge (Z.pos mx) (Z.pos my) ltac:(lia) ltac:(lia)) as Hdp.
    pose proof (Zdigits2_pos (Z.pos mx) ltac:(lia)).
    pose proof (Zdigits2_pos (Z.pos my) ltac:(lia)).
    apply binary_round_aux_within; try lia.
    + rewrite fexp_eq. lia.
    + replace (ex + ey + 298) with ((ex + 149) + (ey + 149)) by lia.
      replace (j + k + 298) with ((j + 149) + (k + 149)) by lia.
      assert (0 <= j + 149 \/ j + 149 < 0) as [Hj | Hj] by lia;
      assert (0 <= k + 149 \/ k + 149 < 0) as [Hk | Hk] by lia.
      * rewrite (pow2_split (ex + 149) (ey + 149)), (pow2_split (j + 149) (k + 149)) by lia.
        pose proof (Z.pow_pos_nonneg 2 (ex + 149) ltac:(lia) ltac:(lia)).
        pose proof (Z.pow_pos_nonneg 2 (ey + 149) ltac:(lia) ltac:(lia)).
        replace (Z.pos mx * Z.pos my * (2 ^ (ex + 149) * 2 ^ (ey + 149)))
          with ((Z.pos mx * 2 ^ (ex + 149)) * (Z.pos my * 2 ^ (ey + 149))) by ring.
        apply Z.mul_le_mono_nonneg; lia.
      * exfalso. rewrite (Z.pow_neg_r 2 (k + 149)) in Hvy by lia.
        pose proof (Z.pow_pos_nonneg 2 (ey + 149) ltac:(lia) ltac:(lia)). nia.
      * exfalso. rewrite (Z.pow_neg_r 2 (j + 149)) in Hvx by lia.
        pose proof (Z.pow_pos_nonneg 2 (ex + 149) ltac:(lia) ltac:(lia)). nia.
      * exfalso. rewrite (Z.pow_neg_r 2 (j + 149)) in Hvx by lia.
        pose proof (Z.pow_pos_nonneg 2 (ex + 149) ltac:(lia) ltac:(lia)). nia.
Qed.

Lemma Zdigits2_mul_pow2 m j :
  0 < m -> 0 <= j -> Zdigits2 (m * 2 ^ j) = Zdigits2 m + j.
Proof.
  intros Hm Hj.
  pose proof (Zdigits2_bounds m Hm) as [Hlo Hhi].
  pose proof (Zdigits2_pos m Hm) as Hd.
  pose proof (Z.pow_pos_nonneg 2 j ltac:(lia) Hj) as Hp.
  apply Zdigits2_eq; [lia|].
  replace (Zdigits2 m + j - 1) with ((Zdigits2 m - 1) + j) by lia.
  rewrite !pow2_split by lia. split.
  - apply Z.mul_le_mono_nonneg_r; lia.
  - apply Z.mul_lt_mono_pos_r; lia.
Qed.

Lemma binary_round_within s p ez k :
  -149 <= ez -> -149 <= k <= 127 ->
  Z.pos p * 2 ^ (ez + 149) <= 2 ^ (k + 149) ->
  within k (binary_round prec emax s p ez) = true.
Proof.
  intros Hez Hk Hv. unfold binary_round.
  change (Z.pos (digits2_pos p)) with (Zdigits2 (Z.pos p)).
  set (fe := fexp prec emax (Zdigits2 (Z.pos p) + ez)).
  assert (Hfe : -149 <= fe) by (unfold fe; rewrite fexp_eq; lia).
  pose proof (shl_align_spec p ez fe) as Hal.
  destruct (shl_align p ez fe) as [mz ez']. destruct Hal as [Hez' Hmz].
  assert (Hdz : Zdigits2 (Z.pos mz) + ez' = Zdigits2 (Z.pos p) + ez).
  { rewrite Hmz, Zdigits2_mul_pow2 by lia. lia. }
  apply binary_round_aux_within; try lia.
  - rewrite Hdz. fold fe. lia.
  - rewrite Hmz.
    replace (Z.pos p * 2 ^ (ez - ez') * 2 ^ (ez' + 298))
      with (Z.pos p * (2 ^ (ez - ez') * 2 ^ (ez' + 298))) by ring.
    rewrite <- pow2_split by lia.
    replace (ez - ez' + (ez' + 298)) with ((ez + 149) + 149) by lia.
    replace (k + 298) with ((k + 149) + 149) by lia.
    rewrite (pow2_split (ez + 149) 149), (pow2_split (k + 149) 149) by lia.
    rewrite Z.mul_assoc. apply Z.mul_le_mono_nonneg_r; [apply Z.pow_nonneg; lia | exact Hv].
Qed.

Lemma binary_normalize_within M ez k :
  -149 <= ez -> -149 <= k <= 127 ->
  Z.abs M * 2 ^ (ez + 149) <= 2 ^ (k + 149) ->
  within k (binary_normalize prec emax M ez false) = true.
Proof.
  intros Hez Hk Hv. unfold binary_normalize.
  destruct M as [|p|p]; [reflexivity | |]; apply binary_round_within; auto.
Qed.

(** Aligned mantissas of two floats of the format. *)
Lemma aligned_sum_bound j k mx ex my ey :
  -149 <= ex -> -149 <= ey -> -149 <= j -> -149 <= k ->
  Z.pos mx * 2 ^ (ex + 149) <= 2 ^ (j + 149) ->
  Z.pos my * 2 ^ (ey + 149) <= 2 ^ (k + 149) ->
  let ez := Z.min ex ey in
  (Z.pos (fst (shl_align mx ex ez)) + Z.pos (fst (shl_align my ey ez)))
    * 2 ^ (ez + 149) <= 2 ^ (Z.max j k + 1 + 149).
Proof.
  intros Hex Hey Hj Hk Hvx Hvy ez.
  pose proof (shl_align_spec mx ex ez) as Hx.
  pose proof (shl_align_spec my ey ez) as Hy.
  destruct (shl_align mx ex ez) as [X ex'], (shl_align my ey ez) as [Y ey'].
  cbn [fst]. destruct Hx as [Hex' HX], Hy as [Hey' HY].
  assert (EX : Z.pos X * 2 ^ (ez + 149) = Z.pos mx * 2 ^ (ex + 149)).
  { rewrite HX. replace ex' with ez by lia.
    rewrite <- Z.mul_assoc, <- pow2_split by lia. do 2 f_equal. lia. }
  assert (EY : Z.pos Y * 2 ^ (ez + 149) = Z.pos my * 2 ^ (ey + 149)).
  { rewrite HY. replace ey' with ez by lia.
    rewrite <- Z.mul_assoc, <- pow2_split by lia. do 2 f_equal. lia. }
  rewrite Z.mul_add_distr_r, EX, EY.
  replace (Z.max j k + 1 + 149) with (1 + (Z.max j k + 149)) by lia.
  rewrite (pow2_split 1) by lia. change (2 ^ 1) with 2.
  assert (2 ^ (j + 149) <= 2 ^ (Z.max j k + 149)) by (apply Z.pow_le_mono_r; lia).
  assert (2 ^ (k + 149) <= 2 ^ (Z.max j k + 149)) by (apply Z.pow_le_mono_r; lia).
  lia.
Qed.

(** Sum and difference of two floats of magnitude at most [2 ^ j] and
    [2 ^ k]. *)
Lemma fadd_within j k x y :
  within j x = true -> within k y = true ->
  -149 <= j -> -149 <= k -> Z.max j k + 1 <= 127 ->
  within (Z.max j k + 1) (fadd x y) = true.
Proof.
  intros Hx Hy Hj Hk Hm.
  destruct (within_inv j x Hx) as [Zx | (sx & mx & ex & Ex & Hex & Hdx & Hcx & Hvx)];
  destruct (within_inv k y Hy) as [Zy | (sy & my & ey & Ey & Hey & Hdy & Hcy & Hvy)].
  - destruct x as [[]| | |], y as [[]| | |]; try contradiction; reflexivity.
  - destruct x; try contradiction. subst y. cbn [fadd SFadd].
    eapply within_weaken; [exact Hy | lia].
  - destruct y; try contradiction. subst x. cbn [fadd SFadd].
    eapply within_weaken; [exact Hx | lia].
  - subst x y. unfold fadd, SFadd.
    apply binary_normalize_within; try lia.
    eapply Z.le_trans; [|apply (aligned_sum_bound j k mx ex my ey); lia].
    apply Z.mul_le_mono_nonneg_r; [apply Z.pow_nonneg; lia|].
    set (X := fst (shl_align mx ex (Z.min ex ey))).
    set (Y := fst (shl_align my ey (Z.min ex ey))).
    pose proof (Pos2Z.is_pos X). pose proof (Pos2Z.is_pos Y).
    unfold cond_Zopp. destruct sx, sy; lia.
Qed.

Lemma fsub_within j k x y :
  within j x = true -> within k y = true ->
  -149 <= j -> -149 <= k -> Z.max j k + 1 <= 127 ->
  within (Z.max j k + 1) (fsub x y) = true.
Proof.
  intros Hx Hy Hj Hk Hm.
  destruct (within_inv j x Hx) as [Zx | (sx & mx & ex & Ex & Hex & Hdx & Hcx & Hvx)];
  destruct (within_inv k y Hy) as [Zy | (sy & my & ey & Ey & Hey & Hdy & Hcy & Hvy)].
  - destruct x as [[]| | |], y as [[]| | |]; try contradiction; reflexivity.
  - destruct x; try contradiction. subst y. cbn [fsub SFsub].
    apply within_weaken with k; [exact Hy | lia].
  - destruct y; try contradiction. subst x. cbn [fsub SFsub].
    eapply within_weaken; [exact Hx | lia].
  - subst x y. unfold fsub, SFsub.
    apply binary_normalize_within; try lia.
    eapply Z.le_trans; [|apply (aligned_sum_bound j k mx ex my ey); lia].
    apply Z.mul_le_mono_nonneg_r; [apply Z.pow_nonneg; lia|].
    set (X := fst (shl_align mx ex (Z.min ex ey))).
    set (Y := fst (shl_align my ey (Z.min ex ey))).
    pose proof (Pos2Z.is_pos X). pose proof (Pos2Z.is_pos Y).
    unfold cond_Zopp. destruct sx, sy; lia.
Qed.

Lemma fneg_within k x : within k x = true -> within k (fneg x) = true.
Proof. destruct x; auto. Qed.

Lemma fsign_binary_round s p e :
  fsign (binary_round prec emax s p e) = None \/
  fsign (binary_round prec emax s p e) = Some s.
Proof.
  unfold binary_round. destruct (shl_align p e _) as [mz ez].
  apply fsign_binary_round_aux.
Qed.

(** Adding a float of magnitude at most 4 to 5 gives a positive normal
    float between 1 and 16. *)
Lemma five_plus_within w :
  within 2 w = true ->
  frange 1 5 (fadd (of_int 5) w) /\ fsign (fadd (of_int 5) w) = Some false.
Proof.
  intros Hw. change (of_int 5) with (S754_finite false 10485760 (-21)).
  destruct (within_inv 2 w Hw) as [Zw | (sw & mw & ew & -> & Hew & Hdw & Hcw & Hvw)].
  - destruct w; try contradiction. cbn [fadd SFadd]. split; [|reflexivity].
    cbn [frange]. change (2 ^ 23) with 8388608. change (2 ^ 24) with 16777216. lia.
  - unfold fadd, SFadd.
    set (ez := Z.min (-21) ew).
    pose proof (shl_align_spec 10485760 (-21) ez) as Hx.
    pose proof (shl_align_spec mw ew ez) as Hy.
    destruct (shl_align 10485760 (-21) ez) as [X ex'], (shl_align mw ew ez) as [Y ey'].
    cbn [fst]. destruct Hx as [Hex' HX], Hy as [Hey' HY].
    replace ex' with ez in * by lia. replace ey' with ez in * by lia.
    set (T := 2 ^ (- ez)).
    assert (HT : 0 < T) by (apply Z.pow_pos_nonneg; lia).
    assert (EX : Z.pos X = 5 * T).
    { rewrite HX. unfold T. replace (- ez) with (21 + (-21 - ez)) by lia.
      rewrite (pow2_split 21) by lia. change (2 ^ 21) with 2097152. lia. }
    assert (EY : Z.pos Y <= 4 * T).
    { rewrite HY.
      assert (H : Z.pos mw * 2 ^ (ew - ez) * 2 ^ (ez + 149) <= 4 * T * 2 ^ (ez + 149)).
      { rewrite <- Z.mul_assoc, <- pow2_split by lia.
        replace (ew - ez + (ez + 149)) with (ew + 149) by lia.
        unfold T. rewrite <- Z.mul_assoc, <- pow2_split by lia.
        replace (- ez + (ez + 149)) with 149 by lia.
        change (2 + 149) with (2 + 149) in Hvw.
        rewrite (pow2_split 2 149) in Hvw by lia. exact Hvw. }
      apply Z.mul_le_mono_pos_r in H; [exact H | apply Z.pow_pos_nonneg; lia]. }
    set (M := cond_Zopp false (Z.pos X) + cond_Zopp sw (Z.pos Y)).
    assert (HM : T <= M <= 9 * T).
    { unfold M, cond_Zopp. pose proof (Pos2Z.is_pos Y). destruct sw; lia. }
    unfold binary_normalize. destruct M as [|p|p] eqn:EM; try lia.
    assert (Hdp : 1 <= Zdigits2 (Z.pos p) + ez <= 4).
    { split.
      - assert (- ez + 1 <= Zdigits2 (Z.pos p)); [|lia].
        apply Zdigits2_ge; [lia|]. replace (- ez + 1 - 1) with (- ez) by lia.
        fold T. lia.
      - assert (Zdigits2 (Z.pos p) <= 4 - ez); [|lia].
        apply Zdigits2_le; [lia|]. replace (4 - ez) with (4 + - ez) by lia.
        rewrite pow2_split by lia. fold T. change (2 ^ 4) with 16. lia. }
    pose proof (binary_round_range false p ez ltac:(lia)) as Hr.
    split; [eapply frange_weaken; [exact Hr | lia | lia]|].
    destruct (fsign_binary_round false p ez) as [H | H]; [|exact H].
    destruct (binary_round prec emax false p ez); try contradiction; discriminate.
Qed.

Lemma unit_float_within x : unit_float x = true -> within 0 x = true.
Proof.
  unfold unit_float, within. intros H. apply andb_true_iff in H. destruct H as [Hv Hl].
  rewrite Hv. cbn [andb].
  destruct x as [s|s| |s m e]; try reflexivity; try discriminate Hl.
  change (fabs (S754_finite s m e)) with (S754_finite false m e) in Hl.
  change (of_int 1) with (S754_finite false 8388608 (-23)) in Hl.
  apply fle_finite_pos in Hl.
  unfold valid_binary, bounded, canonical_mantissa in Hv.
  apply andb_true_iff in Hv. destruct Hv as [Hc He].
  apply Z.eqb_eq in Hc.
  change (Z.pos (digits2_pos m)) with (Zdigits2 (Z.pos m)) in Hc.
  rewrite fexp_eq in Hc.
  pose proof (Zdigits2_bounds (Z.pos m) ltac:(lia)) as [_ Hhi].
  assert (Hm24 : Z.pos m < 2 ^ 24).
  { eapply Z.lt_le_trans; [exact Hhi|]. apply Z.pow_le_mono_r; lia. }
  apply Z.leb_le. change (0 + 149) with 149.
  destruct Hl as [Hl | [-> Hl]].
  - apply Z.le_trans with (2 ^ 24 * 2 ^ (e + 149)).
    + apply Z.mul_le_mono_nonneg_r; [apply Z.pow_nonneg; lia | lia].
    + rewrite <- pow2_split by lia. apply Z.pow_le_mono_r; lia.
  - change (-23 + 149) with 126. change (2 ^ 149) with (2 ^ 23 * 2 ^ 126).
    apply Z.mul_le_mono_nonneg_r; [apply Z.pow_nonneg; lia|].
    change (2 ^ 23) with 8388608. lia.
Qed.

Lemma base_verts_within p :
  In p base_verts ->
  within 1 p.1.1 = true /\ within 1 p.1.2 = true /\ within 1 p.2 = true.
Proof.
  intros Hin.
  assert (H : forallb (fun q : float * float * float =>
                         within 1 q.1.1 && within 1 q.1.2 && within 1 q.2)
                      base_verts = true) by (vm_compute; reflexivity).
  rewrite forallb_forall in H. apply H in Hin.
  apply andb_true_iff in Hin. destruct Hin as [Hin Hz].
  apply andb_true_iff in Hin. destruct Hin as [Hx Hy]. auto.
Qed.

(** The rotated depth of a vertex is at most 8 in magnitude. *)
Lemma rotate_depth_within t p :
  unit_trig t = true -> In p base_verts ->
  within 3 (snd (rotate t p)) = true.
Proof.
  intros Ht Hp. destruct (base_verts_within p Hp) as (Hx & Hy & Hz).
  destruct p as [[x y] z]. cbn [fst snd] in Hx, Hy, Hz.
  unfold unit_trig in Ht.
  do 5 (apply andb_true_iff in Ht; destruct Ht as [Ht ?]).
  repeat match goal with
         | H : unit_float _ = true |- _ => apply unit_float_within in H
         end.
  unfold rotate. cbn [snd].
  apply (fadd_within 1 2); try lia.
  - apply (fmul_within 1 0); [now apply fneg_within | assumption | lia].
  - apply (fmul_within 2 0); [|assumption | lia].
    apply (fadd_within 1 1); try lia.
    + apply (fmul_within 1 0); [assumption | assumption | lia].
    + apply (fmul_within 1 0); [assumption | assumption | lia].
Qed.

(** X15: the perspective division never divides by zero or by a negative
    number.  When the six sines and cosines are numbers of magnitude at
    most 1, as the C library returns them, the divisor
    [d = 5 + z2 * 0.3] computed for a vertex of the object is a positive
    normal float with [1 <= d]: rounding included, the rotated depth [z2]
    is at most 8 in magnitude and [z2 * 0.3f] at most 4. *)
Theorem perspective_divisor_positive t p :
  unit_trig t = true -> In p base_verts ->
  let d := depth_divisor t p in
  positive_normal d = true /\
  fle (of_int 1) d = true /\
  forall v, exists x3 y3,
    transform_vertex v t p =
      (fadd (obj_cx v) (fmul (fdiv x3 d) (scale v)),
       fadd (obj_cy v) (fmul (fdiv y3 d) (scale v))).
Proof.
  intros Ht Hp d.
  pose proof (rotate_depth_within t p Ht Hp) as Hz.
  assert (Hw : within 2 (fmul (snd (rotate t p)) (lit 3 10)) = true).
  { apply (fmul_within 3 (-1)); [exact Hz | vm_compute; reflexivity | lia]. }
  destruct (five_plus_within _ Hw) as [Hr Hs]. fold (depth_divisor t p) in Hr, Hs.
  fold d in Hr, Hs.
  split; [|split].
  - apply (positive_normal_intro 1 5); [exact Hr | congruence | lia | lia].
  - destruct d as [| | |[] m e]; try contradiction; [discriminate|].
    change (of_int 1) with (S754_finite false 8388608 (-23)).
    apply fle_finite_pos. destruct Hr as [Hm He].
    change (2 ^ 23) with 8388608 in Hm. lia.
  - intros v. destruct p as [[x y] z]. eexists _, _. reflexivity.
Qed.

Lemma perspective_divisor_positive_witness :
  let t := trig_zero in
  let p := (of_int 1, of_int 1, of_int 1) in
  let d := depth_divisor t p in
  positive_normal d = true /\
  fle (of_int 1) d = true /\
  forall v, exists x3 y3,
    transform_vertex v t p =
      (fadd (obj_cx v) (fmul (fdiv x3 d) (scale v)),
       fadd (obj_cy v) (fmul (fdiv y3 d) (scale v))).
Proof.
  apply (perspective_divisor_positive trig_zero (of_int 1, of_int 1, of_int 1)).
  - vm_compute. reflexivity.
  - left. reflexivity.
Defined.

(** ** Floating point: the scale factors of the squash *)

Lemma valid_pack s m e :
  0 <= m -> (m = 0 \/ fexp prec emax (Zdigits2 m + e) = e) ->
  valid_binary prec emax (pack s m e) = true.
Proof.
  intros Hm Hc. unfold pack. destruct m as [|p|p]; try lia; [reflexivity|].
  destruct (Z.leb_spec e (emax - prec)) as [He | He]; [|reflexivity].
  destruct Hc as [Hc | Hc]; [discriminate|].
  unfold valid_binary, bounded, canonical_mantissa.
  change (Z.pos (digits2_pos p)) with (Zdigits2 (Z.pos p)). rewrite Hc, Z.eqb_refl.
  cbn [andb]. now apply Z.leb_le.
Qed.

(** What [binary_round_aux] returns is a number of the format. *)
Lemma binary_round_aux_valid s mx ex lx :
  0 < mx -> ex <= fexp prec emax (Zdigits2 mx + ex) ->
  valid_binary prec emax (binary_round_aux prec emax s mx ex lx) = true.
Proof.
  intros Hm He.
  destruct (binary_round_aux_spec s mx ex lx Hm He) as (m2 & Hm2 & Hm1 & Hle & ->).
  rewrite fexp_eq in *.
  set (d := Zdigits2 mx) in *.
  set (e1 := Z.max (d + ex - 24) (-149)) in *.
  pose proof (Zdigits2_bounds mx Hm) as [Hlo Hhi]. fold d in Hlo, Hhi.
  assert (Hd : 0 < d) by (apply Zdigits2_pos; exact Hm).
  destruct (Z.eqb_spec m2 (2 ^ 24)) as [E | NE].
  - apply valid_pack; [lia|]. right.
    change (Zdigits2 (2 ^ 23)) with 24. rewrite fexp_eq. lia.
  - apply valid_pack; [lia|].
    destruct (Z.eq_dec m2 0) as [-> | Hnz]; [now left | right].
    rewrite fexp_eq.
    pose proof (Zdigits2_le m2 24 ltac:(lia) ltac:(lia)) as Hd2.
    destruct (Z_le_gt_dec (d + ex - 24) (-149)) as [Hs | Hn]; [lia|].
    assert (H23 : 2 ^ 23 <= mx / 2 ^ (e1 - ex)).
    { replace (e1 - ex) with (d - 24) by lia.
      apply Z.div_le_lower_bound; [apply Z.pow_pos_nonneg; lia|].
      rewrite Z.mul_comm, <- pow2_split by lia.
      now replace (23 + (d - 24)) with (d - 1) by lia. }
    pose proof (Zdigits2_ge m2 24 ltac:(lia) ltac:(change (2 ^ (24 - 1)) with (2 ^ 23); lia)).
    lia.
Qed.

Lemma fmul_decay_valid x :
  squash_ok x -> valid_binary prec emax (fmul x squash_decay) = true.
Proof.
  rewrite squash_decay_eq. intros Hx. apply squash_ok_inv in Hx.
  destruct x as [s | [] | | [] m e]; try contradiction; [reflexivity|].
  unfold fmul, SFmul. rewrite Pos2Z.inj_mul.
  pose proof (Zdigits2_mul_ge (Z.pos m) 11744051 ltac:(lia) ltac:(lia)) as Hd.
  change (Zdigits2 11744051) with 24 in Hd.
  pose proof (Zdigits2_pos (Z.pos m) ltac:(lia)).
  apply binary_round_aux_valid; [lia | rewrite fexp_eq; lia].
Qed.

Lemma squash_within x :
  squash_ok x -> valid_binary prec emax x = true ->
  within (-1) x = true /\ (is_zero x \/ fsign x = Some false).
Proof.
  intros Hx Hv. apply squash_ok_inv in Hx. unfold within. rewrite Hv. cbn [andb].
  destruct x as [s | [] | | [] m e]; try contradiction.
  - split; [reflexivity | left; exact I].
  - split; [|right; reflexivity].
    unfold valid_binary, bounded, canonical_mantissa in Hv.
    apply andb_true_iff in Hv. destruct Hv as [Hc _]. apply Z.eqb_eq in Hc.
    change (Z.pos (digits2_pos m)) with (Zdigits2 (Z.pos m)) in Hc.
    rewrite fexp_eq in Hc.
    apply Z.leb_le. change (-1 + 149) with 148. destruct Hx as [Hm [He | [-> He]]].
    + apply Z.le_trans with (2 ^ 24 * 2 ^ (e + 149)).
      * apply Z.mul_le_mono_nonneg_r; [apply Z.pow_nonneg; lia | lia].
      * rewrite <- pow2_split by lia. apply Z.pow_le_mono_r; lia.
    + change (-24 + 149) with 125. change (2 ^ 148) with (2 ^ 23 * 2 ^ 125).
      apply Z.mul_le_mono_nonneg_r; [apply Z.pow_nonneg; lia | exact He].
Qed.

(** The squash factor of a reachable Bounce State is a number of the
    format between 0 and 0.5. *)
Lemma reachable_squash_within g s :
  reachable (physics_init g) s ->
  within (-1) (squash s) = true /\ (is_zero (squash s) \/ fsign (squash s) = Some false).
Proof.
  intros Hr. apply squash_within; [now apply (reachable_squash_ok g)|].
  destruct Hr as [|s0 Hr0]; [reflexivity|].
  set (P := physics_init g).
  destruct (impact P s0) eqn:Hi.
  - rewrite (physics_step_impact P s0 Hi). cbn [squash].
    apply fmul_decay_valid, fminf_half_ok.
    + apply fsign_fmul_pos.
      * apply fsign_fdiv_pos; [apply fsign_fabs | apply restart_vel_sign].
      * rewrite lit_5_10. simpl. congruence.
    + rewrite lit_5_10. apply fmul_const_fits. reflexivity.
  - rewrite (physics_step_flight P s0 Hi). cbn [squash].
    apply fmul_decay_valid. now apply (reachable_squash_ok g).
Qed.

(** A positive normal float in the binade below [2 ^ k], or [2 ^ k]
    itself, lies between the floats [2 ^ (k - 1)] and [2 ^ k]. *)
Lemma binade_fle k y :
  frange k (k + 1) y -> within k y = true -> fsign y = Some false ->
  -125 <= k <= 127 ->
  fle (S754_finite false 8388608 (k - 24)) y = true /\
  fle y (S754_finite false 8388608 (k - 23)) = true.
Proof.
  intros Hr Hw Hs Hk.
  destruct y as [| | |[] m e]; try contradiction; try discriminate.
  destruct Hr as [Hm He]. change (2 ^ 23) with 8388608 in Hm.
  rewrite !fle_finite_pos. split; [lia|].
  destruct (Z.eq_dec e (k - 23)) as [-> | Hne]; [right | left; lia].
  split; [reflexivity|].
  unfold within in Hw. apply andb_true_iff in Hw. destruct Hw as [_ Hb].
  apply Z.leb_le in Hb.
  replace (k + 149) with (23 + (k - 23 + 149)) in Hb by lia.
  rewrite (pow2_split 23) in Hb by lia.
  apply Z.mul_le_mono_pos_r in Hb; [exact Hb | apply Z.pow_pos_nonneg; lia].
Qed.

(** Rounding does not cross a float: if the value is at most [B] units of
    the exponent it is rounded at, so is the result. *)
Lemma binary_round_aux_bound s mx ex B :
  0 < mx -> ex <= fexp prec emax (Zdigits2 mx + ex) ->
  let e1 := fexp prec emax (Zdigits2 mx + ex) in
  mx <= B * 2 ^ (e1 - ex) ->
  exists m2,
    0 <= m2 <= B /\ m2 <= 2 ^ 24 /\
    binary_round_aux prec emax s mx ex loc_Exact =
      if m2 =? 2 ^ 24 then pack s (2 ^ 23) (e1 + 1) else pack s m2 e1.
Proof.
  intros Hm He e1 HB.
  set (P := 2 ^ (e1 - ex)) in *.
  assert (HP : 0 < P) by (apply Z.pow_pos_nonneg; lia).
  pose proof (Z.div_mod mx P ltac:(lia)) as Hdm.
  pose proof (Z.mod_pos_bound mx P HP) as Hrb.
  destruct (binary_round_aux_spec s mx ex loc_Exact Hm He) as (m2 & Hm2 & Hm1 & Hle & Heq).
  fold e1 P in Hm2, Hm1, Heq.
  assert (Hm1B : mx / P <= B) by nia.
  destruct (Z.eq_dec (mx / P) B) as [E | NE].
  - assert (Hr0 : mx mod P = 0) by nia.
    pose proof (binary_round_aux_exact_shift s mx ex Hm He) as Hex.
    fold e1 P in Hex. specialize (Hex Hr0).
    assert (Hhi : mx / P < 2 ^ 24).
    { unfold P. apply Z.div_lt_upper_bound; [apply Z.pow_pos_nonneg; lia|].
      rewrite <- Z.pow_add_r by (unfold e1 in *; rewrite fexp_eq in *; lia).
      pose proof (Zdigits2_bounds mx Hm) as [_ Hh].
      eapply Z.lt_le_trans; [exact Hh|]. apply Z.pow_le_mono_r; [lia|].
      unfold e1. rewrite fexp_eq. lia. }
    exists (mx / P). split; [lia|]. split; [lia|]. rewrite Hex.
    now replace (mx / P =? 2 ^ 24) with false by (symmetry; apply Z.eqb_neq; lia).
  - exists m2. split; [lia|]. split; [exact Hle | exact Heq].
Qed.

(** [1 - s] and [1 + w] for non-negative [s <= 0.5] and [w <= 0.25]. *)
Lemma one_minus_within s :
  within (-1) s = true -> (is_zero s \/ fsign s = Some false) ->
  fle (lit 5 10) (fsub (of_int 1) s) = true /\
  fle (fsub (of_int 1) s) (of_int 1) = true.
Proof.
  intros Hw Hs. rewrite lit_5_10.
  change (of_int 1) with (S754_finite false 8388608 (-23)).
  destruct (within_inv (-1) s Hw) as [Zs | (ss & m & e & -> & He & Hd & Hc & Hv)].
  - destruct s; try contradiction. split; reflexivity.
  - destruct Hs as [[] | Hs]. cbn [fsign] in Hs. injection Hs as ->.
    change (-1 + 149) with 148 in Hv.
    pose proof (Zdigits2_bounds (Z.pos m) ltac:(lia)) as [Hlo _].
    assert (He24 : e <= -24).
    { destruct Hc as [Hc | Hc]; [|lia]. rewrite Hc in Hlo.
      assert (H : 2 ^ (23 + (e + 149)) <= 2 ^ 148).
      { rewrite pow2_split by lia. eapply Z.le_trans; [|exact Hv].
        apply Z.mul_le_mono_nonneg_r; [apply Z.pow_nonneg; lia | exact Hlo]. }
      apply Z.pow_le_mono_r_iff in H; lia. }
    set (T := 2 ^ (- e - 1)).
    assert (HT : 0 < T) by (apply Z.pow_pos_nonneg; lia).
    assert (HmT : Z.pos m <= T).
    { assert (H : Z.pos m * 2 ^ (e + 149) <= T * 2 ^ (e + 149)).
      { unfold T. rewrite <- pow2_split by lia.
        now replace (- e - 1 + (e + 149)) with 148 by lia. }
      apply Z.mul_le_mono_pos_r in H; [exact H | apply Z.pow_pos_nonneg; lia]. }
    unfold fsub, SFsub. replace (Z.min (-23) e) with e by lia.
    pose proof (shl_align_spec 8388608 (-23) e) as Hx.
    pose proof (shl_align_spec m e e) as Hy.
    destruct (shl_align 8388608 (-23) e) as [X ex'], (shl_align m e e) as [Y ey'].
    cbn [fst]. destruct Hx as [Hex' HX], Hy as [Hey' HY].
    replace ex' with e in * by lia. replace ey' with e in * by lia.
    rewrite Z.sub_diag, Z.mul_1_r in HY.
    assert (EX : Z.pos X = 2 * T).
    { rewrite HX. unfold T. change 8388608 with (2 ^ 23).
      rewrite <- pow2_split by lia. change 2 with (2 ^ 1) at 2.
      rewrite <- pow2_split by lia. f_equal. lia. }
    cbn [cond_Zopp]. rewrite HY, EX.
    unfold binary_normalize.
    destruct (2 * T - Z.pos m) as [|p|p] eqn:EM; try lia.
    assert (Hdp : Zdigits2 (Z.pos p) = - e).
    { apply Zdigits2_eq; [lia|]. fold T.
      replace (- e) with (1 + (- e - 1)) by lia.
      rewrite (pow2_split 1) by lia. fold T. change (2 ^ 1) with 2. lia. }
    replace (S754_finite false 8388608 (-24)) with (S754_finite false 8388608 (0 - 24))
      by reflexivity.
    replace (S754_finite false 8388608 (-23)) with (S754_finite false 8388608 (0 - 23))
      by reflexivity.
    apply binade_fle; [| | |lia].
    + pose proof (binary_round_range false p e ltac:(lia)) as Hr.
      rewrite Hdp in Hr. now replace (- e + e) with 0 in Hr by lia.
    + apply binary_round_within; try lia.
      assert (E149 : 2 ^ (0 + 149) = 2 * T * 2 ^ (e + 149)).
      { unfold T. rewrite <- (Z.pow_succ_r 2 (- e - 1)), <- Z.pow_add_r by lia.
        f_equal. lia. }
      rewrite E149. apply Z.mul_le_mono_nonneg_r; [apply Z.pow_nonneg; lia | lia].
    + destruct (fsign_binary_round false p e) as [H | H]; [|exact H].
      pose proof (binary_round_range false p e ltac:(lia)) as Hr.
      destruct (binary_round prec emax false p e); try contradiction; discriminate.
Qed.

Lemma one_plus_within w :
  within (-2) w = true -> (is_zero w \/ fsign w = Some false) ->
  fle (of_int 1) (fadd (of_int 1) w) = true /\
  fle (fadd (of_int 1) w) (lit 125 100) = true.
Proof.
  intros Hw Hs.
  change (of_int 1) with (S754_finite false 8388608 (-23)).
  replace (lit 125 100) with (S754_finite false 10485760 (-23))
    by (vm_compute; reflexivity).
  destruct (within_inv (-2) w Hw) as [Zw | (sw & m & e & -> & He & Hd & Hc & Hv)].
  - destruct w; try contradiction. split; reflexivity.
  - destruct Hs as [[] | Hs]. cbn [fsign] in Hs. injection Hs as ->.
    change (-2 + 149) with 147 in Hv.
    pose proof (Zdigits2_bounds (Z.pos m) ltac:(lia)) as [Hlo _].
    assert (He25 : e <= -25).
    { destruct Hc as [Hc | Hc]; [|lia]. rewrite Hc in Hlo.
      assert (H : 2 ^ (23 + (e + 149)) <= 2 ^ 147).
      { rewrite pow2_split by lia. eapply Z.le_trans; [|exact Hv].
        apply Z.mul_le_mono_nonneg_r; [apply Z.pow_nonneg; lia | exact Hlo]. }
      apply Z.pow_le_mono_r_iff in H; lia. }
    set (T := 2 ^ (- e - 2)).
    assert (HT : 0 < T) by (apply Z.pow_pos_nonneg; lia).
    assert (HmT : Z.pos m <= T).
    { assert (H : Z.pos m * 2 ^ (e + 149) <= T * 2 ^ (e + 149)).
      { unfold T. rewrite <- pow2_split by lia.
        now replace (- e - 2 + (e + 149)) with 147 by lia. }
      apply Z.mul_le_mono_pos_r in H; [exact H | apply Z.pow_pos_nonneg; lia]. }
    unfold fadd, SFadd. replace (Z.min (-23) e) with e by lia.
    pose proof (shl_align_spec 8388608 (-23) e) as Hx.
    pose proof (shl_align_spec m e e) as Hy.
    destruct (shl_align 8388608 (-23) e) as [X ex'], (shl_align m e e) as [Y ey'].
    cbn [fst]. destruct Hx as [Hex' HX], Hy as [Hey' HY].
    replace ex' with e in * by lia. replace ey' with e in * by lia.
    rewrite Z.sub_diag, Z.mul_1_r in HY.
    assert (EX : Z.pos X = 4 * T).
    { rewrite HX. unfold T. change 8388608 with (2 ^ 23).
      rewrite <- pow2_split by lia. change 4 with (2 ^ 2).
      rewrite <- pow2_split by lia. f_equal. lia. }
    cbn [cond_Zopp]. rewrite HY, EX.
    unfold binary_normalize.
    destruct (4 * T + Z.pos m) as [|p|p] eqn:EM; try lia.
    assert (E8 : 2 ^ (- e + 1) = 8 * T).
    { unfold T. change 8 with (2 ^ 3). rewrite <- pow2_split by lia. f_equal. lia. }
    assert (Hdp : Zdigits2 (Z.pos p) = - e + 1).
    { apply Zdigits2_eq; [lia|]. rewrite E8.
      replace (- e + 1 - 1) with (2 + (- e - 2)) by lia.
      rewrite (pow2_split 2) by lia. fold T. change (2 ^ 2) with 4. lia. }
    unfold binary_round.
    change (Z.pos (digits2_pos p)) with (Zdigits2 (Z.pos p)). rewrite Hdp, fexp_eq.
    replace (Z.max (- e + 1 + e - 24) (-149)) with (-23) by lia.
    pose proof (shl_align_spec p e (-23)) as Hal.
    destruct (shl_align p e (-23)) as [mz ez]. destruct Hal as [Hez Hmz].
    replace ez with e in * by lia. rewrite Z.sub_diag, Z.mul_1_r in Hmz.
    rewrite Hmz.
    destruct (binary_round_aux_bound false (Z.pos p) e 10485760)
      as (m2 & Hm2 & _ & Heq); [lia | rewrite Hdp, fexp_eq; lia | |].
    { rewrite Hdp, fexp_eq.
      replace (Z.max (- e + 1 + e - 24) (-149) - e) with (- 23 - e) by lia.
      assert (E5 : 10485760 * 2 ^ (-23 - e) = 5 * T).
      { unfold T. change 10485760 with (5 * 2 ^ 21).
        rewrite <- Z.mul_assoc, <- pow2_split by lia. do 2 f_equal. lia. }
      lia. }
    rewrite Hdp, fexp_eq in Heq.
    replace (Z.max (- e + 1 + e - 24) (-149)) with (-23) in Heq by lia.
    replace (m2 =? 2 ^ 24) with false in Heq
      by (symmetry; apply Z.eqb_neq; change (2 ^ 24) with 16777216; lia).
    pose proof (binary_round_aux_range false (Z.pos p) e loc_Exact) as Hr.
    rewrite Hdp in Hr. replace (- e + 1 + e) with 1 in Hr by lia.
    specialize (Hr ltac:(pose proof (Zdigits2_bounds (Z.pos p) ltac:(lia)) as [Hl _];
                         rewrite Hdp in Hl;
                         eapply Z.le_trans; [|exact Hl];
                         apply Z.pow_le_mono_r; lia) ltac:(lia)).
    rewrite Heq in *.
    destruct m2 as [|q|q]; try contradiction; try lia.
    unfold pack in *. change (-23 <=? emax - prec) with true in *. cbv iota in *.
    destruct Hr as [Hq _]. change (2 ^ 23) with 8388608 in Hq.
    rewrite !fle_finite_pos. split; right; (split; [reflexivity | lia]).
Qed.

(** X16: the squash-and-stretch deformation is bounded.  In every Bounce
    State the frame loop can reach the vertical scale [1 - squash] lies
    between 0.5 and 1 and the horizontal scale [1 + squash * 0.5] between 1
    and 1.25, roundings included: the object is never flattened to nothing,
    never mirrored, and never shrinks horizontally. *)
Theorem squash_scales_bounded g s :
  reachable (physics_init g) s ->
  let v := mk_view g (physics_init g) s in
  fle (lit 5 10) (yscale v) = true /\ fle (yscale v) (of_int 1) = true /\
  fle (of_int 1) (xzscale v) = true /\ fle (xzscale v) (lit 125 100) = true.
Proof.
  intros Hr v. destruct (reachable_squash_within g s Hr) as [Hw Hs].
  unfold v, mk_view. cbn [yscale xzscale].
  destruct (one_minus_within (squash s) Hw Hs) as [Hy1 Hy2].
  split; [exact Hy1|]. split; [exact Hy2|].
  apply one_plus_within.
  - apply (fmul_within (-1) (-1)); [exact Hw | vm_compute; reflexivity | lia].
  - destruct Hs as [Hz | Hp].
    + left. destruct (squash s); try contradiction. rewrite lit_5_10. exact I.
    + pose proof (fsign_fmul_pos (squash s) (lit 5 10)) as Hm.
      assert (Hw2 : within (-2) (fmul (squash s) (lit 5 10)) = true)
        by (apply (fmul_within (-1) (-1)); [exact Hw | vm_compute; reflexivity | lia]).
      destruct (fmul (squash s) (lit 5 10)) as [|z| |[] m e];
        try (now left); try discriminate Hw2.
      * exfalso. apply Hm; [congruence | vm_compute; congruence | reflexivity].
      * now right.
Qed.

Lemma squash_scales_bounded_witness :
  let g := mk_geom 80 24 in
  let s := physics_step (physics_init g) (bounce_init (physics_init g)) in
  let v := mk_view g (physics_init g) s in
  fle (lit 5 10) (yscale v) = true /\ fle (yscale v) (of_int 1) = true /\
  fle (of_int 1) (xzscale v) = true /\ fle (xzscale v) (lit 125 100) = true.
Proof.
  apply (squash_scales_bounded (mk_geom 80 24)
           (physics_step (physics_init (mk_geom 80 24))
              (bounce_init (physics_init (mk_geom 80 24))))).
  apply reach_step, reach_init.
Defined.

(** ** Floating point: quotients and conversions *)

Lemma binary_round_aux_zero s l k :
  -149 <= k ->
  within k (binary_round_aux prec emax s 0 (-149) l) = true.
Proof.
  intros Hk.
  assert (H : binary_round_aux prec emax s 0 (-149) l = S754_zero s \/
              binary_round_aux prec emax s 0 (-149) l = S754_finite s 1 (-149))
    by (destruct l as [|[| |]]; vm_compute; auto).
  destruct H as [-> | ->]; [reflexivity|].
  unfold within. change (valid_binary prec emax (S754_finite s 1 (-149))) with true.
  cbn [andb]. apply Z.leb_le. change (-149 + 149) with 0. change (2 ^ 0) with 1.
  rewrite Z.mul_1_r.
  assert (0 < 2 ^ (k + 149)) by (apply Z.pow_pos_nonneg; lia). lia.
Qed.

Lemma new_location_exact m r :
  new_location m r = loc_Exact <-> r = 0.
Proof.
  unfold new_location, new_location_even, new_location_odd.
  destruct (Z.even m); destruct (Z.eqb_spec r 0); split; auto; try discriminate;
    intros; contradiction.
Qed.

(** Dividing by a float of at least 1 does not increase the magnitude. *)
Lemma fdiv_within k a b :
  within k a = true -> frange 1 24 b -> -149 <= k <= 127 ->
  within k (fdiv a b) = true.
Proof.
  intros Ha Hb Hk.
  destruct b as [| | |sy m2 e2]; try contradiction.
  pose proof (frange_digits _ _ _ _ _ Hb) as Hd2. destruct Hb as [Hm2 He2].
  destruct (within_inv k a Ha) as [Za | (sx & m1 & e1 & -> & He1 & Hd1 & Hc1 & Hv1)].
  { destruct a; try contradiction. reflexivity. }
  unfold fdiv, SFdiv, SFdiv_core_binary. rewrite Hd2, fexp_eq.
  set (d1 := Zdigits2 (Z.pos m1)) in *.
  pose proof (Zdigits2_bounds (Z.pos m1) ltac:(lia)) as [Hlo1 Hhi1]. fold d1 in Hlo1, Hhi1.
  assert (Hd1p : 0 < d1) by (apply Zdigits2_pos; lia).
  set (e' := Z.max (d1 + e1 - (24 + e2) - 24) (-149)).
  replace (Z.min e' (e1 - e2)) with e' by lia.
  set (sh := e1 - e2 - e').
  assert (Hsh : 0 <= sh) by lia.
  set (m' := Z.pos m1 * 2 ^ sh).
  assert (Em' : forall z, 0 <= z ->
            match z with
            | 0 => Z.pos m1
            | Z.pos _ => Z.shiftl (Z.pos m1) z
            | Z.neg _ => 0
            end = Z.pos m1 * 2 ^ z).
  { intros [|p|p] Hz; [simpl; lia | now rewrite Z.shiftl_mul_pow2 by lia | lia]. }
  rewrite (Em' sh Hsh). fold m'. clear Em'.
  assert (Hm'pos : 0 < m').
  { unfold m'. apply Z.mul_pos_pos; [lia | apply Z.pow_pos_nonneg; lia]. }
  pose proof (Z_div_mod m' (Z.pos m2) ltac:(lia)) as Hdm.
  destruct (Z.div_eucl m' (Z.pos m2)) as [q r]. destruct Hdm as [Hq Hr].
  (* the value of [a] bounds the quotient *)
  assert (Hdk : d1 + e1 <= k + 1).
  { assert (H : 2 ^ (d1 - 1 + (e1 + 149)) <= 2 ^ (k + 149)).
    { rewrite pow2_split by lia. eapply Z.le_trans; [|exact Hv1].
      apply Z.mul_le_mono_nonneg_r; [apply Z.pow_nonneg; lia | exact Hlo1]. }
    apply Z.pow_le_mono_r_iff in H; lia. }
  assert (Hek : e' <= k) by lia.
  set (U := 2 ^ (k - e')).
  assert (HU : 0 < U) by (apply Z.pow_pos_nonneg; lia).
  set (W := 2 ^ (- e2)).
  assert (HW : 0 < W) by (apply Z.pow_pos_nonneg; lia).
  assert (HWm : W <= Z.pos m2).
  { eapply Z.le_trans; [|apply Hm2]. unfold W. apply Z.pow_le_mono_r; lia. }
  assert (Hm'U : m' <= U * W).
  { assert (H : m' * 2 ^ (e' + e2 + 172) <= U * W * 2 ^ (e' + e2 + 172)).
    { unfold m', U, W.
      rewrite <- !Z.mul_assoc, <- (pow2_split sh), <- (pow2_split (- e2)),
        <- (pow2_split (k - e')) by lia.
      replace (sh + (e' + e2 + 172)) with ((e1 + 149) + 23) by lia.
      replace (k - e' + (- e2 + (e' + e2 + 172))) with ((k + 149) + 23) by lia.
      rewrite (pow2_split (e1 + 149)), (pow2_split (k + 149)) by lia.
      rewrite Z.mul_assoc.
      apply Z.mul_le_mono_nonneg_r; [apply Z.pow_nonneg; lia | exact Hv1]. }
    apply Z.mul_le_mono_pos_r in H; [exact H | apply Z.pow_pos_nonneg; lia]. }
  set (dl := match new_location (Z.pos m2) r with loc_Exact => 0 | _ => 1 end).
  assert (Hdl : q + dl <= U).
  { unfold dl. destruct (new_location (Z.pos m2) r) eqn:El.
    - nia.
    - assert (r <> 0)
        by (intros E; apply (new_location_exact (Z.pos m2)) in E; congruence).
      nia. }
  assert (Hq0 : 0 <= q) by nia.
  destruct (Z.eq_dec q 0) as [-> | Hqnz].
  - assert (He' : e' = -149).
    { destruct (Z_le_gt_dec (d1 + e1 - (24 + e2) - 24) (-149)) as [|Hn]; [lia|].
      exfalso.
      assert (Hs48 : sh = 48 - d1) by lia.
      assert (H47 : 2 ^ 47 <= m').
      { unfold m'. rewrite Hs48. replace 47 with ((d1 - 1) + (48 - d1)) by lia.
        rewrite pow2_split by lia.
        apply Z.mul_le_mono_nonneg_r; [apply Z.pow_nonneg; lia | exact Hlo1]. }
      change (2 ^ 47) with 140737488355328 in H47.
      change (2 ^ 24) with 16777216 in Hm2. lia. }
    rewrite He'. apply binary_round_aux_zero. lia.
  - assert (Hq23 : -149 < d1 + e1 - (24 + e2) - 24 -> 2 ^ 23 <= q).
    { intros Hn.
      assert (Hs48 : sh = 48 - d1) by lia.
      assert (H47 : 2 ^ 47 <= m').
      { unfold m'. rewrite Hs48. replace 47 with ((d1 - 1) + (48 - d1)) by lia.
        rewrite pow2_split by lia.
        apply Z.mul_le_mono_nonneg_r; [apply Z.pow_nonneg; lia | exact Hlo1]. }
      change (2 ^ 47) with (8388608 * 16777216) in H47.
      change (2 ^ 24) with 16777216 in Hm2. change (2 ^ 23) with 8388608. nia. }
    apply binary_round_aux_within_loc; try lia.
    + rewrite fexp_eq.
      destruct (Z_le_gt_dec (d1 + e1 - (24 + e2) - 24) (-149)) as [|Hn]; [lia|].
      pose proof (Zdigits2_ge q 24 ltac:(lia) (Hq23 ltac:(lia))). lia.
    + fold dl.
      replace (e' + 298) with ((e' + 149) + 149) by lia.
      replace (k + 298) with ((k - e') + ((e' + 149) + 149)) by lia.
      rewrite (pow2_split (k - e')) by lia. fold U.
      apply Z.mul_le_mono_nonneg_r; [apply Z.pow_nonneg; lia | exact Hdl].
Qed.

Lemma of_int_within n k :
  Z.abs n <= 2 ^ k -> 0 <= k <= 127 -> within k (of_int n) = true.
Proof.
  intros Hn Hk. unfold of_int. apply binary_normalize_within; try lia.
  change (0 + 149) with 149. rewrite pow2_split by lia.
  apply Z.mul_le_mono_nonneg_r; [apply Z.pow_nonneg; lia | exact Hn].
Qed.

Lemma fminf_within j k x y :
  within j x = true -> within k y = true -> within (Z.max j k) (fminf x y) = true.
Proof.
  intros Hx Hy. unfold fminf.
  destruct (fle x y); [apply (within_weaken j); [exact Hx | lia]|].
  destruct (flt y x); [apply (within_weaken k); [exact Hy | lia]|].
  destruct (is_nan y); [apply (within_weaken j) | apply (within_weaken k)];
    auto; lia.
Qed.

(** The conversion to [int] of a float of magnitude at most [2 ^ 30] is
    defined, and as small. *)
Lemma int_of_float_within k x :
  within k x = true -> 0 <= k <= 30 ->
  int_of_float x = trunc x /\ - 2 ^ k <= int_of_float x <= 2 ^ k.
Proof.
  intros Hx Hk.
  assert (Hp : 0 < 2 ^ k) by (apply Z.pow_pos_nonneg; lia).
  destruct (within_inv k x Hx) as [Zx | (s & m & e & -> & He & Hd & Hc & Hv)].
  { destruct x; try contradiction. simpl. lia. }
  assert (Ha : 0 <= (if 0 <=? e then Z.pos m * 2 ^ e else Z.pos m / 2 ^ (- e)) <= 2 ^ k).
  { destruct (Z.leb_spec 0 e) as [Hpos | Hneg].
    - split; [apply Z.mul_nonneg_nonneg; [lia | apply Z.pow_nonneg; lia]|].
      rewrite (pow2_split e 149), (pow2_split k 149) in Hv by lia.
      rewrite Z.mul_assoc in Hv.
      apply Z.mul_le_mono_pos_r in Hv; [exact Hv | apply Z.pow_pos_nonneg; lia].
    - assert (Hm : Z.pos m <= 2 ^ k * 2 ^ (- e)).
      { replace (k + 149) with ((k + - e) + (e + 149)) in Hv by lia.
        rewrite (pow2_split (k + - e)) in Hv by lia.
        apply Z.mul_le_mono_pos_r in Hv; [|apply Z.pow_pos_nonneg; lia].
        now rewrite pow2_split in Hv by lia. }
      assert (Hpe : 0 < 2 ^ (- e)) by (apply Z.pow_pos_nonneg; lia).
      split; [apply Z.div_pos; lia|].
      apply Z.div_le_upper_bound; [exact Hpe | lia]. }
  assert (H30 : 2 ^ k <= 2 ^ 30) by (apply Z.pow_le_mono_r; lia).
  change (2 ^ 30) with 1073741824 in H30.
  assert (Hn : - 2 ^ k <= trunc (S754_finite s m e) <= 2 ^ k).
  { cbn [trunc]. cbv zeta. destruct s; lia. }
  unfold int_of_float. cbv zeta.
  set (n := trunc (S754_finite s m e)) in *.
  assert (E : (INT_MIN <=? n) && (n <=? INT_MAX) = true).
  { unfold INT_MIN, INT_MAX. change (2 ^ 31) with 2147483648.
    apply andb_true_iff. split; apply Z.leb_le; lia. }
  rewrite E. split; [reflexivity | exact Hn].
Qed.

(** ** The edge loop: conversions and rasterizer arithmetic *)

Lemma within_cast_defined k x :
  within k x = true -> 0 <= k <= 30 ->
  cast_defined x = true /\ - 2 ^ k <= int_of_float x <= 2 ^ k.
Proof.
  intros Hx Hk. destruct (int_of_float_within k x Hx Hk) as [E Hb].
  split; [|exact Hb].
  assert (H30 : 2 ^ k <= 2 ^ 30) by (apply Z.pow_le_mono_r; lia).
  change (2 ^ 30) with 1073741824 in H30.
  destruct x as [s|s| |s m e]; [reflexivity | discriminate Hx | discriminate Hx |].
  unfold cast_defined. rewrite <- E. unfold int_ok, INT_MIN, INT_MAX.
  change (2 ^ 31) with 2147483648.
  apply andb_true_iff. split; apply Z.leb_le; lia.
Qed.

(** [transform_vertex] in terms of the rotation and the divisor. *)
Lemma transform_vertex_by_divisor v t p :
  transform_vertex v t p =
    (fadd (obj_cx v)
       (fmul (fdiv (fmul (rotate t p).1.1 (xzscale v)) (depth_divisor t p)) (scale v)),
     fadd (obj_cy v)
       (fmul (fdiv (fmul (rotate t p).1.2 (yscale v)) (depth_divisor t p)) (scale v))).
Proof. destruct p as [[x y] z]. reflexivity. Qed.

(** The rotated horizontal and vertical coordinates of a vertex are at
    most 16 in magnitude. *)
Lemma rotate_plane_within t p :
  unit_trig t = true -> In p base_verts ->
  within 4 (rotate t p).1.1 = true /\ within 4 (rotate t p).1.2 = true.
Proof.
  intros Ht Hp. destruct (base_verts_within p Hp) as (Hx & Hy & Hz).
  destruct p as [[x y] z]. cbn [fst snd] in Hx, Hy, Hz.
  unfold unit_trig in Ht.
  do 5 (apply andb_true_iff in Ht; destruct Ht as [Ht ?]).
  repeat match goal with
         | H : unit_float _ = true |- _ => apply unit_float_within in H
         end.
  unfold rotate. cbn [fst snd].
  assert (Hy1 : within 2 (fsub (fmul y (c1 t)) (fmul z (s1 t))) = true).
  { apply (fsub_within 1 1); try lia;
      apply (fmul_within 1 0); try assumption; lia. }
  assert (Hz1 : within 2 (fadd (fmul y (s1 t)) (fmul z (c1 t))) = true).
  { apply (fadd_within 1 1); try lia;
      apply (fmul_within 1 0); try assumption; lia. }
  assert (Hx2 : within 3 (fadd (fmul x (c2 t))
                    (fmul (fadd (fmul y (s1 t)) (fmul z (c1 t))) (s2 t))) = true).
  { apply (fadd_within 1 2); try lia.
    - apply (fmul_within 1 0); try assumption; lia.
    - apply (fmul_within 2 0); try assumption; lia. }
  split.
  - apply (fsub_within 3 2); try lia.
    + apply (fmul_within 3 0); try assumption; lia.
    + apply (fmul_within 2 0); try assumption; lia.
  - apply (fadd_within 3 2); try lia.
    + apply (fmul_within 3 0); try assumption; lia.
    + apply (fmul_within 2 0); try assumption; lia.
Qed.

(** The divisor is a normal float of exponent between 1 and 5. *)
Lemma depth_divisor_range t p :
  unit_trig t = true -> In p base_verts -> frange 1 24 (depth_divisor t p).
Proof.
  intros Ht Hp. pose proof (rotate_depth_within t p Ht Hp) as Hz.
  assert (Hw : within 2 (fmul (snd (rotate t p)) (lit 3 10)) = true).
  { apply (fmul_within 3 (-1)); [exact Hz | vm_compute; reflexivity | lia]. }
  destruct (five_plus_within _ Hw) as [Hr _].
  eapply frange_weaken; [exact Hr | lia | lia].
Qed.

(** The per-frame values for a terminal of at most 65535 columns and rows
    (the sizes are [unsigned short]), a squash factor of at most 0.5 and a
    height of at most [2 ^ 18]. *)
Lemma view_within cols rows b :
  0 <= cols <= 65535 -> 0 <= rows <= 65535 ->
  within (-1) (squash b) = true -> within 18 (pos b) = true ->
  let v := mk_view (mk_geom cols rows) (physics_init (mk_geom cols rows)) b in
  within 17 (scale v) = true /\ within 17 (obj_cx v) = true /\
  within 20 (obj_cy v) = true /\
  within 1 (yscale v) = true /\ within 1 (xzscale v) = true.
Proof.
  intros Hc Hr Hs Hp v.
  assert (Hpw : within 17 (of_int (cols * 2)) = true).
  { apply of_int_within; [change (2 ^ 17) with 131072; lia | lia]. }
  assert (Hph : within 18 (of_int (rows * 4)) = true).
  { apply of_int_within; [change (2 ^ 18) with 262144; lia | lia]. }
  assert (Hsc : within 17 (scale v) = true).
  { unfold v, mk_view. cbn [scale pw ph mk_geom].
    apply (fmul_within 18 (-1)); [|vm_compute; reflexivity | lia].
    exact (fminf_within 17 18 _ _ Hpw Hph). }
  split; [exact Hsc|]. split; [|split; [|split]].
  - unfold v, mk_view. cbn [obj_cx pw mk_geom].
    apply fdiv_within; [exact Hpw | | lia].
    change (of_int 2) with (S754_finite false 8388608 (-22)). cbn [frange].
    change (2 ^ 23) with 8388608. change (2 ^ 24) with 16777216. lia.
  - change (obj_cy v) with
      (fsub (fsub (floor_py (physics_init (mk_geom cols rows))) (pos b))
            (fmul (scale v) (lit 2 10))).
    apply (fsub_within 19 15); try lia.
    + apply (fsub_within 18 18); try lia; [|exact Hp].
      cbn [physics_init floor_py]. unfold horizon_of. cbn [ch mk_geom].
      apply of_int_within; [|lia]. change (2 ^ 18) with 262144.
      assert (0 <= rows * 55 ÷ 100 <= 36045); [|lia].
      split; [apply Z.quot_pos; lia|].
      rewrite Z.quot_div_nonneg by lia.
      apply Z.lt_le_incl, Z.div_lt_upper_bound; lia.
    + apply (fmul_within 17 (-2)); [exact Hsc | vm_compute; reflexivity | lia].
  - unfold v, mk_view. cbn [yscale].
    apply (fsub_within 0 (-1)); try lia; [vm_compute; reflexivity | exact Hs].
  - unfold v, mk_view. cbn [xzscale].
    apply (fadd_within 0 (-2)); try lia; [vm_compute; reflexivity|].
    apply (fmul_within (-1) (-1)); [exact Hs | vm_compute; reflexivity | lia].
Qed.

(** Every projected coordinate is at most [2 ^ 23] in magnitude. *)
Lemma transform_vertex_within cols rows b t p :
  0 <= cols <= 65535 -> 0 <= rows <= 65535 ->
  within (-1) (squash b) = true -> within 18 (pos b) = true ->
  unit_trig t = true -> In p base_verts ->
  let q := transform_vertex
             (mk_view (mk_geom cols rows) (physics_init (mk_geom cols rows)) b) t p in
  within 23 q.1 = true /\ within 23 q.2 = true.
Proof.
  intros Hc Hr Hs Hpos Ht Hp q. unfold q. clear q.
  destruct (view_within cols rows b Hc Hr Hs Hpos) as (Hsc & Hcx & Hcy & Hys & Hxs).
  destruct (rotate_plane_within t p Ht Hp) as [Hx3 Hy3].
  pose proof (depth_divisor_range t p Ht Hp) as Hd.
  rewrite transform_vertex_by_divisor. cbn [fst snd]. split.
  - apply (fadd_within 17 22); try lia; [exact Hcx|].
    apply (fmul_within 5 17); [|exact Hsc | lia].
    apply fdiv_within; [|exact Hd | lia].
    apply (fmul_within 4 1); [exact Hx3 | exact Hxs | lia].
  - apply (fadd_within 20 22); try lia; [exact Hcy|].
    apply (fmul_within 5 17); [|exact Hsc | lia].
    apply fdiv_within; [|exact Hd | lia].
    apply (fmul_within 4 1); [exact Hy3 | exact Hys | lia].
Qed.

(** The same for whatever the edge loop reads from [proj]. *)
Lemma nth_project_within cols rows b t i :
  0 <= cols <= 65535 -> 0 <= rows <= 65535 ->
  within (-1) (squash b) = true -> within 18 (pos b) = true ->
  unit_trig t = true ->
  let q := nth i (project (mk_view (mk_geom cols rows)
                             (physics_init (mk_geom cols rows)) b) t)
               (of_int 0, of_int 0) in
  within 23 q.1 = true /\ within 23 q.2 = true.
Proof.
  intros Hc Hr Hs Hpos Ht q. unfold q. clear q.
  set (v := mk_view _ _ _).
  destruct (nth_in_or_default i (project v t) (of_int 0, of_int 0)) as [Hin | E].
  - apply in_map_iff in Hin. destruct Hin as (p & <- & Hp).
    now apply transform_vertex_within.
  - rewrite E. split; reflexivity.
Qed.

(** A line between points of at most 23 bits stays within [int]. *)
Lemma line_in_int_small x0 y0 x1 y1 :
  - 2 ^ 23 <= x0 <= 2 ^ 23 -> - 2 ^ 23 <= y0 <= 2 ^ 23 ->
  - 2 ^ 23 <= x1 <= 2 ^ 23 -> - 2 ^ 23 <= y1 <= 2 ^ 23 ->
  line_in_int (line_fuel x0 y0 x1 y1) x0 y0 x1 y1 = true.
Proof.
  change (2 ^ 23) with 8388608. intros Hx0 Hy0 Hx1 Hy1.
  unfold line_in_int, line_fuel.
  destruct (loop_inv_init x0 y0 x1 y1) as (Hsx & Hsy & Hinv).
  assert (HA : Z.abs (x1 - x0) <= 2 ^ 28 /\ Z.abs (y1 - y0) <= 2 ^ 28)
    by (change (2 ^ 28) with 268435456; lia).
  assert (Hx1' : - 2 ^ 27 <= x1 <= 2 ^ 27) by (change (2 ^ 27) with 134217728; lia).
  assert (Hy1' : - 2 ^ 27 <= y1 <= 2 ^ 27) by (change (2 ^ 27) with 134217728; lia).
  rewrite (loop_in_int_ok _ _ _ _ _ _ Hsx Hsy _ (proj1 HA) (proj2 HA) Hx1' Hy1'
             _ _ _ _ _ Hinv) by lia.
  unfold int_ok, INT_MIN, INT_MAX. change (2 ^ 31) with 2147483648.
  repeat (apply andb_true_iff; split); lia.
Qed.

(** X17: the edge loop of a frame has no undefined conversion and no
    integer overflow.  For a terminal of at most 65535 columns and rows,
    sines and cosines of magnitude at most 1, and a Bounce State the loop
    reaches whose height [pos] is at most [2 ^ 18], the two endpoints read
    from [proj] for every edge are finite floats whose integer parts fit
    an [int], at most [2 ^ 23] in magnitude, and the arithmetic of the
    [draw_line] call on them stays within [int]. *)
Theorem edge_loop_defined cols rows b t :
  0 <= cols <= 65535 -> 0 <= rows <= 65535 ->
  unit_trig t = true ->
  reachable (physics_init (mk_geom cols rows)) b ->
  within 18 (pos b) = true ->
  let g := mk_geom cols rows in
  let proj := project (mk_view g (physics_init g) b) t in
  forall i j, In (i, j) edges ->
    let pa := nth i proj (of_int 0, of_int 0) in
    let pb := nth j proj (of_int 0, of_int 0) in
    let x0 := int_of_float pa.1 in let y0 := int_of_float pa.2 in
    let x1 := int_of_float pb.1 in let y1 := int_of_float pb.2 in
    cast_defined pa.1 = true /\ cast_defined pa.2 = true /\
    cast_defined pb.1 = true /\ cast_defined pb.2 = true /\
    Z.abs x0 <= 2 ^ 23 /\ Z.abs y0 <= 2 ^ 23 /\
    Z.abs x1 <= 2 ^ 23 /\ Z.abs y1 <= 2 ^ 23 /\
    line_in_int (line_fuel x0 y0 x1 y1) x0 y0 x1 y1 = true.
Proof.
  intros Hc Hr Ht Hreach Hpos g proj i j _ pa pb.
  destruct (reachable_squash_within _ _ Hreach) as [Hs _].
  destruct (nth_project_within cols rows b t i Hc Hr Hs Hpos Ht) as [Ha1 Ha2].
  destruct (nth_project_within cols rows b t j Hc Hr Hs Hpos Ht) as [Hb1 Hb2].
  fold g in Ha1, Ha2, Hb1, Hb2. fold proj in Ha1, Ha2, Hb1, Hb2.
  fold pa in Ha1, Ha2. fold pb in Hb1, Hb2.
  destruct (within_cast_defined 23 _ Ha1 ltac:(lia)) as [Da1 Ba1].
  destruct (within_cast_defined 23 _ Ha2 ltac:(lia)) as [Da2 Ba2].
  destruct (within_cast_defined 23 _ Hb1 ltac:(lia)) as [Db1 Bb1].
  destruct (within_cast_defined 23 _ Hb2 ltac:(lia)) as [Db2 Bb2].
  intros x0 y0 x1 y1. fold x0 in Ba1. fold y0 in Ba2. fold x1 in Bb1. fold y1 in Bb2.
  repeat (split; [first [assumption | lia]|]).
  now apply line_in_int_small.
Qed.

Lemma edge_loop_defined_witness :
  let g := mk_geom 80 24 in
  let b := physics_step (physics_init g) (bounce_init (physics_init g)) in
  let proj := project (mk_view g (physics_init g) b) trig_zero in
  let pa := nth 8%nat proj (of_int 0, of_int 0) in
  let pb := nth 0%nat proj (of_int 0, of_int 0) in
  cast_defined pa.1 = true /\
  line_in_int (line_fuel (int_of_float pa.1) (int_of_float pa.2)
                         (int_of_float pb.1) (int_of_float pb.2))
              (int_of_float pa.1) (int_of_float pa.2)
              (int_of_float pb.1) (int_of_float pb.2) = true.
Proof.
  intros g b proj pa pb.
  destruct (edge_loop_defined 80 24 b trig_zero) with (i := 8%nat) (j := 0%nat)
    as (H1 & _ & _ & _ & _ & _ & _ & _ & H9).
  - lia.
  - lia.
  - vm_compute; reflexivity.
  - apply reach_step, reach_init.
  - vm_compute; reflexivity.
  - unfold edges. simpl. tauto.
  - split; [exact H1 | exact H9].
Defined.

(** ** The frame loop within defined behaviour *)

Lemma edges_defined_within cols rows b t :
  0 <= cols <= 65535 -> 0 <= rows <= 65535 ->
  within (-1) (squash b) = true -> within 18 (pos b) = true ->
  unit_trig t = true ->
  edges_defined (project (mk_view (mk_geom cols rows)
                            (physics_init (mk_geom cols rows)) b) t) edges = true.
Proof.
  intros Hc Hr Hs Hpos Ht. unfold edges_defined. apply forallb_forall.
  intros [i j] _. cbn [fst snd]. cbv zeta.
  destruct (nth_project_within cols rows b t i Hc Hr Hs Hpos Ht) as [Ha1 Ha2].
  destruct (nth_project_within cols rows b t j Hc Hr Hs Hpos Ht) as [Hb1 Hb2].
  cbv zeta in Ha1, Ha2, Hb1, Hb2.
  destruct (within_cast_defined 23 _ Ha1 ltac:(lia)) as [-> Ba1].
  destruct (within_cast_defined 23 _ Ha2 ltac:(lia)) as [-> Ba2].
  destruct (within_cast_defined 23 _ Hb1 ltac:(lia)) as [-> Bb1].
  destruct (within_cast_defined 23 _ Hb2 ltac:(lia)) as [-> Bb2].
  cbn [andb]. now apply line_in_int_small.
Qed.

(** X7: once start-up has succeeded, the frame loop of [main] stays within
    defined behaviour and within its buffers.  For a display of 20 to 65535
    columns and 10 to 65535 rows whose number of cells is an [int], a floor
    field of that many bytes, sines and cosines of magnitude at most 1, a
    height [pos] of at most [2^18] in the Bounce States rendered, and input
    that arrives at some call of [poll]: the loop returns, having written
    [(q + 1) / 2] frames when the first [q] calls of [poll] report no
    input; every frame fits [rbuf]; in every frame each conversion to [int]
    of the edge loop is defined, the arithmetic of each [draw_line] call
    stays within [int] and no store leaves the framebuffer; and every index
    into the framebuffer and the floor field is an [int]. *)
Theorem main_frame_loop_safe sinf cosf cols rows fm polls :
  20 <= cols <= 65535 -> 10 <= rows <= 65535 -> cols * rows <= INT_MAX ->
  let g := mk_geom cols rows in
  let P := physics_init g in
  let n := Nat.div2 (S (quiet polls)) in
  fb_sized g fm -> Forall is_byte fm ->
  In true polls ->
  (forall k, (k < n)%nat -> unit_trig (pose_trig sinf cosf (pose_at k)) = true) ->
  (forall k, (k < n)%nat -> within 18 (pos (bounce_at P (S k))) = true) ->
  exists frames,
    main_loop sinf cosf g P fm polls (replicate (Z.to_nat (cw g * ch g)) 0)
              (bounce_init P) {| ax := of_int 0; ay := of_int 0; az := of_int 0 |} []
      = Ok frames /\
    length frames = n /\
    Forall (fun f => Z.of_nat (length f) <= rbuf_size g) frames /\
    (forall k, (k < n)%nat ->
       edges_defined (project (mk_view g P (bounce_at P (S k)))
                              (pose_trig sinf cosf (pose_at k))) edges = true /\
       frame_image sinf cosf g P fm k = Ok (frames !!! k)) /\
    (forall x y, in_bounds g (x, y) = true -> int_ok (cell_index g x y) = true) /\
    (forall row col, 0 <= row < rows -> 0 <= col < cols ->
       int_ok (row * cw g + col) = true).
Proof.
  intros Hc Hr HN g P n Hsz Hby _ Htrig Hpos.
  assert (Hg : geom_ok g) by (unfold geom_ok, g; simpl; lia).
  set (fb0 := replicate (Z.to_nat (cw g * ch g)) 0).
  assert (Hsz0 : fb_sized g fb0).
  { unfold fb_sized, fb0. rewrite length_replicate. destruct Hg as (? & ? & _). nia. }
  destruct (main_loop_frames sinf cosf g P fm Hg (length polls)
              polls fb0 0%nat [] (Nat.le_refl _) Hsz0) as (imgs & Hm & Hlen & Hk).
  exists imgs. split; [exact Hm|]. split; [exact Hlen|]. fold n in Hlen.
  assert (Hint : forall i, 0 <= i < cols * rows -> int_ok i = true).
  { intros i Hi. unfold int_ok, INT_MIN, INT_MAX in *.
    change (2 ^ 31) with 2147483648 in *. apply andb_true_iff. lia. }
  split; [|split; [|split]].
  - apply Forall_lookup. intros k f Hf.
    assert (Hlt : (k < length imgs)%nat) by (eapply lookup_lt_Some; eassumption).
    apply list_lookup_total_correct in Hf. subst f.
    specialize (Hk k Hlt). unfold frame_image in Hk. cbv zeta in Hk.
    destruct (draw_edges _ _ _ _) as [fb'| |]; try discriminate.
    simpl in Hk. injection Hk as <-.
    now apply render_length.
  - intros k Hlt. split; [|apply (Hk k); lia].
    destruct (reachable_squash_within _ _ (reachable_bounce_at (physics_init g) (S k)))
      as [Hs _].
    apply edges_defined_within; try lia; auto.
  - intros x y Hin. apply Hint. apply negb_true_iff in Hin.
    apply (cell_index_range g x y Hg Hin).
  - intros row col Hrow Hcol. apply Hint. cbn [cw g mk_geom]. nia.
Qed.

Lemma main_frame_loop_safe_witness :
  let sinf := fun _ : float => of_int 0 in
  let cosf := fun _ : float => of_int 1 in
  let g := mk_geom 20 10 in
  let P := physics_init g in
  let fm := replicate 200 0 in
  let polls := [false; false; false; true] in
  exists frames,
    main_loop sinf cosf g P fm polls (replicate (Z.to_nat (cw g * ch g)) 0)
              (bounce_init P) {| ax := of_int 0; ay := of_int 0; az := of_int 0 |} []
      = Ok frames /\
    length frames = 2%nat /\
    Forall (fun f => Z.of_nat (length f) <= rbuf_size g) frames /\
    (forall k, (k < 2)%nat ->
       edges_defined (project (mk_view g P (bounce_at P (S k)))
                              (pose_trig sinf cosf (pose_at k))) edges = true /\
       frame_image sinf cosf g P fm k = Ok (frames !!! k)) /\
    (forall x y, in_bounds g (x, y) = true -> int_ok (cell_index g x y) = true) /\
    (forall row col, 0 <= row < 10 -> 0 <= col < 20 ->
       int_ok (row * cw g + col) = true).
Proof.
  apply (main_frame_loop_safe (fun _ => of_int 0) (fun _ => of_int 1) 20 10
           (replicate 200 0) [false; false; false; true]).
  - lia.
  - lia.
  - unfold INT_MAX. change (2 ^ 31 - 1) with 2147483647. lia.
  - reflexivity.
  - apply Forall_replicate. unfold is_byte. lia.
  - simpl. tauto.
  - intros k _. reflexivity.
  - intros k Hk. destruct k as [|[|k]]; [vm_compute; reflexivity ..|].
    simpl in Hk. lia.
Defined.
